(** * lyrecho: the lyric cache, the lyric resolver and the player observer

    A shallow embedding of [internal/cache/cache.go], of the [lyrics]
    package (normalisation, candidate generation, the fetch loop, the LRC
    parser) and of the seek heuristic of [internal/player/player.go],
    together with the properties the design document states for them.

    Go strings are byte strings: they are modelled by [string], whose
    characters are the 8-bit [ascii].  Go's [int64] is modelled by [Z] with
    the wrap-around written out. *)

From Stdlib Require Import ZArith List Ascii String Bool Lia DecimalString.
From Stdlib Require Import Floats.SpecFloat.
From stdpp Require Import base option list gmap strings.

Import ListNotations.
Local Open Scope string_scope.
Local Open Scope Z_scope.

(** ** Machine integers *)

Module Int64.

Definition min_int : Z := - 2 ^ 63.
Definition max_int : Z := 2 ^ 63 - 1.

(** Two's-complement wrap-around of a mathematical integer to [int64]. *)
Definition wrap (x : Z) : Z := (x + 2 ^ 63) mod 2 ^ 64 - 2 ^ 63.

Definition in_range (x : Z) : Prop := min_int <= x <= max_int.

Definition add (a b : Z) : Z := wrap (a + b).
Definition sub (a b : Z) : Z := wrap (a - b).
Definition neg (a : Z) : Z := wrap (- a).

End Int64.

(** ** Bytes and byte strings *)

Definition byte_val (c : ascii) : Z := Z.of_N (N_of_ascii c).
Definition byte_of (z : Z) : ascii := ascii_of_N (Z.to_N z).

Definition bytes_of_string (s : string) : list Z :=
  map byte_val (list_ascii_of_string s).

(** [utf8.RuneSelf]: bytes below it are single-byte runes. *)
Definition RuneSelf : Z := 128.

Fixpoint isASCII (s : string) : bool :=
  match s with
  | EmptyString => true
  | String c r => (byte_val c <? RuneSelf) && isASCII r
  end.

Definition lower_byte (c : ascii) : ascii :=
  let v := byte_val c in
  if (65 <=? v) && (v <=? 90) then byte_of (v + 32) else c.

Definition upper_byte (c : ascii) : ascii :=
  let v := byte_val c in
  if (97 <=? v) && (v <=? 122) then byte_of (v - 32) else c.

Definition string_of_bytes (bs : list Z) : string :=
  string_of_list_ascii (map byte_of bs).

Fixpoint map_bytes (f : ascii -> ascii) (s : string) : string :=
  match s with
  | EmptyString => EmptyString
  | String c r => String (f c) (map_bytes f r)
  end.

(** ** SHA-256 (FIPS 180-4), as [crypto/sha256.Sum256] computes it *)

Module SHA256.

Definition mask32 : Z := 2 ^ 32 - 1.
Definition add32 (a b : Z) : Z := (a + b) mod 2 ^ 32.
Definition rotr (n x : Z) : Z :=
  Z.lor (Z.shiftr x n) (Z.land (Z.shiftl x (32 - n)) mask32).
Definition shr (n x : Z) : Z := Z.shiftr x n.
Definition not32 (x : Z) : Z := Z.lxor x mask32.

Definition Ch (x y z : Z) : Z := Z.lxor (Z.land x y) (Z.land (not32 x) z).
Definition Maj (x y z : Z) : Z :=
  Z.lxor (Z.lxor (Z.land x y) (Z.land x z)) (Z.land y z).
Definition bsig0 (x : Z) : Z := Z.lxor (Z.lxor (rotr 2 x) (rotr 13 x)) (rotr 22 x).
Definition bsig1 (x : Z) : Z := Z.lxor (Z.lxor (rotr 6 x) (rotr 11 x)) (rotr 25 x).
Definition ssig0 (x : Z) : Z := Z.lxor (Z.lxor (rotr 7 x) (rotr 18 x)) (shr 3 x).
Definition ssig1 (x : Z) : Z := Z.lxor (Z.lxor (rotr 17 x) (rotr 19 x)) (shr 10 x).

(** The round constants and the initial chaining value are defined by
    FIPS 180-4 as the first 32 bits of the fractional parts of the cube
    roots, respectively square roots, of the first primes. *)
Definition is_prime (n : Z) : bool :=
  forallb (fun d => negb (n mod Z.of_nat d =? 0)) (seq 2 (Z.to_nat n - 2)).

Definition primes : list Z :=
  filter is_prime (map Z.of_nat (seq 2 310)).

(** Integer cube root, bit by bit from bit [bits - 1] down. *)
Fixpoint cube_root (bits : nat) (r n : Z) : Z :=
  match bits with
  | O => r
  | S b =>
      let r' := r + 2 ^ Z.of_nat b in
      cube_root b (if r' * r' * r' <=? n then r' else r) n
  end.

Definition frac32_cbrt (p : Z) : Z := cube_root 36 0 (p * 2 ^ 96) mod 2 ^ 32.
Definition frac32_sqrt (p : Z) : Z := Z.sqrt (p * 2 ^ 64) mod 2 ^ 32.

Definition K : list Z := Eval vm_compute in map frac32_cbrt primes.

(** The eight working variables / chaining values. *)
Record digest := Digest {
  h0 : Z; h1 : Z; h2 : Z; h3 : Z; h4 : Z; h5 : Z; h6 : Z; h7 : Z
}.

Definition init : digest :=
  match map frac32_sqrt (firstn 8 primes) with
  | [a; b; c; d; e; f; g; h] => Digest a b c d e f g h
  | _ => Digest 0 0 0 0 0 0 0 0
  end.

(** Big-endian serialisation. *)
Definition be_bytes (n : nat) (x : Z) : list Z :=
  map (fun i => Z.land (Z.shiftr x (8 * Z.of_nat i)) 255) (rev (seq 0 n)).

Fixpoint be_word (bs : list Z) (acc : Z) : Z :=
  match bs with
  | [] => acc
  | b :: r => be_word r (Z.lor (Z.shiftl acc 8) b)
  end.

(** Message padding: a [0x80] byte, zeros up to 56 mod 64, then the bit
    length on eight bytes. *)
Definition pad (msg : list Z) : list Z :=
  let len := Z.of_nat (length msg) in
  let zeros := Z.to_nat ((55 - len) mod 64) in
  msg ++ [128] ++ repeat 0 zeros ++ be_bytes 8 (8 * len).

Fixpoint chunks (fuel n : nat) (l : list Z) : list (list Z) :=
  match fuel with
  | O => []
  | S f =>
      match l with
      | [] => []
      | _ => firstn n l :: chunks f n (skipn n l)
      end
  end.

Definition block_words (block : list Z) : list Z :=
  map (fun w => be_word w 0) (chunks 16 4 block).

(** The message schedule, extended from 16 to 64 words. *)
Fixpoint extend (n : nat) (w : list Z) : list Z :=
  match n with
  | O => w
  | S n' =>
      let t := length w in
      let at_ (k : nat) := nth (t - k) w 0 in
      extend n' (w ++ [add32 (add32 (ssig1 (at_ 2%nat)) (at_ 7%nat))
                             (add32 (ssig0 (at_ 15%nat)) (at_ 16%nat))])
  end.

Definition round (d : digest) (kw : Z * Z) : digest :=
  let '(k, w) := kw in
  let t1 := add32 (add32 (add32 (h7 d) (bsig1 (h4 d)))
                         (add32 (Ch (h4 d) (h5 d) (h6 d)) k)) w in
  let t2 := add32 (bsig0 (h0 d)) (Maj (h0 d) (h1 d) (h2 d)) in
  Digest (add32 t1 t2) (h0 d) (h1 d) (h2 d) (add32 (h3 d) t1) (h4 d) (h5 d) (h6 d).

Definition compress (d : digest) (block : list Z) : digest :=
  let w := extend 48 (block_words block) in
  let r := fold_left round (combine K w) d in
  Digest (add32 (h0 d) (h0 r)) (add32 (h1 d) (h1 r))
         (add32 (h2 d) (h2 r)) (add32 (h3 d) (h3 r))
         (add32 (h4 d) (h4 r)) (add32 (h5 d) (h5 r))
         (add32 (h6 d) (h6 r)) (add32 (h7 d) (h7 r)).

Definition digest_bytes (d : digest) : list Z :=
  flat_map (be_bytes 4) [h0 d; h1 d; h2 d; h3 d; h4 d; h5 d; h6 d; h7 d].

(** [sha256.Sum256]: the 32-byte digest of a byte string. *)
Definition Sum256 (msg : list Z) : list Z :=
  let p := pad msg in
  digest_bytes (fold_left compress (chunks (length p) 64 p) init).

End SHA256.

(** ** [encoding/hex] *)

Definition hex_digit (d : Z) : ascii :=
  if d <? 10 then byte_of (48 + d) else byte_of (87 + d).

Fixpoint hex_EncodeToString (bs : list Z) : string :=
  match bs with
  | [] => EmptyString
  | b :: r =>
      String (hex_digit (Z.shiftr b 4))
        (String (hex_digit (Z.land b 15)) (hex_EncodeToString r))
  end.

(** ** The [strings] package

    [strings.ToLower] and [strings.ToUpper] have a byte-wise path for
    strings made of ASCII bytes only, and otherwise map every rune through
    the Unicode case tables.  The tables are part of Go's standard library;
    the rune-wise path is a parameter of the development. *)

Class UnicodeCase := {
  (** [strings.Map(unicode.ToLower, s)] *)
  Map_ToLower : string -> string;
  (** [strings.Map(unicode.ToUpper, s)] *)
  Map_ToUpper : string -> string
}.

Module Strings.

Definition ToLower `{UnicodeCase} (s : string) : string :=
  if isASCII s then map_bytes lower_byte s else Map_ToLower s.

Definition ToUpper `{UnicodeCase} (s : string) : string :=
  if isASCII s then map_bytes upper_byte s else Map_ToUpper s.

Definition HasPrefix (s pre : string) : bool := String.prefix pre s.

(** [strings.Index], for a non-empty [sub]; [-1] when [sub] does not occur. *)
Definition Index (s sub : string) : Z :=
  match String.index 0 sub s with
  | Some n => Z.of_nat n
  | None => -1
  end.

Definition Contains (s sub : string) : bool := 0 <=? Index s sub.

(** The slice expression [s[lo:hi]]. *)
Definition slice (s : string) (lo hi : nat) : string :=
  String.substring lo (hi - lo) s.

(** The slice expression [s[lo:]]. *)
Definition slice_from (s : string) (lo : nat) : string :=
  String.substring lo (String.length s - lo) s.

(** [strings.ReplaceAll], for a non-empty [old]: the non-overlapping
    occurrences of [old], found from left to right, become [new].  [skip]
    counts the bytes of a found occurrence that are still to be dropped. *)
Fixpoint replace_from (old new : string) (skip : nat) (s : string) : string :=
  match s with
  | EmptyString => EmptyString
  | String c r =>
      match skip with
      | S k => replace_from old new k r
      | O =>
          if String.prefix old s
          then new ++ replace_from old new (String.length old - 1) r
          else String c (replace_from old new 0 r)
      end
  end.

Definition ReplaceAll (s old new : string) : string := replace_from old new 0 s.

(** [strings.Split] with a one-byte separator. *)
Fixpoint Split (s : string) (sep : ascii) : list string :=
  match s with
  | EmptyString => [EmptyString]
  | String c r =>
      if Ascii.eqb c sep then EmptyString :: Split r sep
      else match Split r sep with
           | h :: t => String c h :: t
           | [] => [String c EmptyString]
           end
  end.

Fixpoint Join (elems : list string) (sep : string) : string :=
  match elems with
  | [] => EmptyString
  | [e] => e
  | e :: r => e ++ sep ++ Join r sep
  end.

(** The ASCII white space of the [asciiSpace] table. *)
Definition asciiSpace (b : Z) : bool :=
  (b =? 9) || (b =? 10) || (b =? 11) || (b =? 12) || (b =? 13) || (b =? 32).

(** Width in bytes of the white-space rune ([unicode.IsSpace]) whose UTF-8
    encoding starts the byte sequence, [0] when there is none: the six ASCII
    characters, U+0085, U+00A0, U+1680, U+2000 to U+200A, U+2028, U+2029,
    U+202F, U+205F and U+3000. *)
Definition space_width (bs : list Z) : nat :=
  match bs with
  | [] => 0%nat
  | b0 :: r =>
      if asciiSpace b0 then 1%nat
      else match r with
           | [] => 0%nat
           | b1 :: r' =>
               if (b0 =? 0xC2) && ((b1 =? 0x85) || (b1 =? 0xA0)) then 2%nat
               else match r' with
                    | [] => 0%nat
                    | b2 :: _ =>
                        if ((b0 =? 0xE1) && (b1 =? 0x9A) && (b2 =? 0x80))
                           || ((b0 =? 0xE2) && (b1 =? 0x80)
                               && (((0x80 <=? b2) && (b2 <=? 0x8A))
                                   || (b2 =? 0xA8) || (b2 =? 0xA9) || (b2 =? 0xAF)))
                           || ((b0 =? 0xE2) && (b1 =? 0x81) && (b2 =? 0x9F))
                           || ((b0 =? 0xE3) && (b1 =? 0x80) && (b2 =? 0x80))
                        then 3%nat else 0%nat
                    end
           end
  end.

(** Width of the white-space rune that ends a byte sequence, given
    reversed (last byte first). *)
Definition space_width_rev (rbs : list Z) : nat :=
  match rbs with
  | [] => 0%nat
  | b :: r =>
      if asciiSpace b then 1%nat
      else match r with
           | [] => 0%nat
           | a :: r' =>
               if (space_width [a; b] =? 2)%nat then 2%nat
               else match r' with
                    | [] => 0%nat
                    | z :: _ => if (space_width [z; a; b] =? 3)%nat then 3%nat else 0%nat
                    end
           end
  end.

Fixpoint trim_left (skip : nat) (bs : list Z) : list Z :=
  match bs with
  | [] => []
  | _ :: r =>
      match skip with
      | S k => trim_left k r
      | O =>
          match space_width bs with
          | O => bs
          | S k => trim_left k r
          end
      end
  end.

Fixpoint trim_right_rev (skip : nat) (rbs : list Z) : list Z :=
  match rbs with
  | [] => []
  | _ :: r =>
      match skip with
      | S k => trim_right_rev k r
      | O =>
          match space_width_rev rbs with
          | O => rbs
          | S k => trim_right_rev k r
          end
      end
  end.

(** [strings.TrimSpace]: leading and trailing white-space runes removed. *)
Definition TrimSpace (s : string) : string :=
  string_of_bytes (rev (trim_right_rev 0 (rev (trim_left 0 (bytes_of_string s))))).

Definition flush (cur : list Z) : list string :=
  match cur with
  | [] => []
  | _ => [string_of_bytes (rev cur)]
  end.

Fixpoint fields_from (skip : nat) (cur : list Z) (bs : list Z) : list string :=
  match bs with
  | [] => flush cur
  | b :: r =>
      match skip with
      | S k => fields_from k cur r
      | O =>
          match space_width bs with
          | O => fields_from 0 (b :: cur) r
          | S k => flush cur ++ fields_from k [] r
          end
      end
  end.

(** [strings.Fields]: the maximal runs of runes that are not white space. *)
Definition Fields (s : string) : list string :=
  fields_from 0 [] (bytes_of_string s).

End Strings.

(** [fmt.Sprintf("%d", n)]. *)
Definition format_int (n : Z) : string := NilZero.string_of_int (Z.to_int n).

(** ** Errors

    An [error] value is what the code can observe of it: its text
    ([Error()]) and the chain that [errors.Is] walks. *)

Inductive error :=
| ErrNew (msg : string)                  (* errors.New, fmt.Errorf without %w *)
| ErrWrap (msg : string) (inner : error) (* fmt.Errorf(msg + "%w", inner) and wrapping error types *)
| DeadlineExceeded                       (* context.DeadlineExceeded *)
| Canceled.                              (* context.Canceled *)

Fixpoint Error (e : error) : string :=
  match e with
  | ErrNew msg => msg
  | ErrWrap msg inner => msg ++ Error inner
  | DeadlineExceeded => "context deadline exceeded"
  | Canceled => "context canceled"
  end.

(** [errors.Is(err, context.DeadlineExceeded)] *)
Fixpoint Is_DeadlineExceeded (e : error) : bool :=
  match e with
  | DeadlineExceeded => true
  | ErrWrap _ inner => Is_DeadlineExceeded inner
  | _ => false
  end.

Inductive result (A : Type) : Type :=
| Ok (a : A)
| Err (e : error).
Arguments Ok {A} a.
Arguments Err {A} e.

(** [float64] values are IEEE 754 binary64 numbers. *)
Abbreviation float64 := spec_float.

(** ** Package [cache] *)

Module cache.

Definition cacheVersion : Z := 1.
Definition defaultTTLDays : Z := 30.

Definition ErrCacheMiss : error := ErrNew "cache miss".
Definition ErrCacheExpired : error := ErrNew "cache expired".
Definition ErrCacheCorrupt : error := ErrNew "cache corrupt".

Record LyricEntry := mkLyricEntry {
  Version : Z;            (* uint8 *)
  TrackName : string;
  ArtistName : string;
  AlbumName : string;
  Duration : float64;
  Instrumental : bool;
  PlainLyrics : string;
  SyncedLyrics : string;
  SyncOffset : float64;
  CreatedAt : Z;          (* int64 *)
  ExpiresAt : Z           (* int64 *)
}.

(** The zero value of the struct. *)
Definition zeroEntry : LyricEntry :=
  mkLyricEntry 0 "" "" "" (S754_zero false) false "" "" (S754_zero false) 0 0.

#[export] Instance LyricEntry_inhabited : Inhabited LyricEntry := populate zeroEntry.

(** A [*LyricEntry] that is not nil is an address of the Go heap. *)
Definition loc := positive.

(** What a path of the file tier holds, as [readFromDisk] sees it. *)
Inductive file :=
| Gob (e : LyricEntry)   (* a complete gob record, which decodes to [e] *)
| Garbage                (* bytes that [decoder.Decode] rejects *)
| Unreadable (e : error). (* [os.Open] fails with [e], which is not a not-exist error *)

(** The receiver [*DiskCache] ([basePath], [memCache]) together with what it
    reaches: the entries on the Go heap and the files of the file tier.
    [memCache] holds pointers, so an entry can be shared with a caller. *)
Record DiskCache := mkDiskCache {
  basePath : string;
  memCache : gmap string loc;
  heap : gmap loc LyricEntry;
  files : gmap string file
}.

Definition set_memCache (c : DiskCache) (m : gmap string loc) : DiskCache :=
  mkDiskCache (basePath c) m (heap c) (files c).
Definition set_heap (c : DiskCache) (h : gmap loc LyricEntry) : DiskCache :=
  mkDiskCache (basePath c) (memCache c) h (files c).
Definition set_files (c : DiskCache) (f : gmap string file) : DiskCache :=
  mkDiskCache (basePath c) (memCache c) (heap c) f.

(** The entry a pointer designates. *)
Definition deref (c : DiskCache) (p : loc) : LyricEntry := heap c !!! p.

(** [&LyricEntry{...}] and [var entry LyricEntry; ... &entry]: a new address. *)
Definition alloc (c : DiskCache) (e : LyricEntry) : loc * DiskCache :=
  let p := fresh (dom (heap c)) in (p, set_heap c (<[p := e]> (heap c))).

(** The effect of [os.Remove(path)] when the file can be removed or is not
    there.  [readFromDisk] and [Get] discard the result of the call;
    [Delete] looks at it (see there). *)
Definition os_Remove (c : DiskCache) (path : string) : DiskCache :=
  set_files c (delete path (files c)).

Section Key.
Context `{UnicodeCase}.

Definition generateKey (artist title : string) : string :=
  let normalized := Strings.ToLower artist ++ "|" ++ Strings.ToLower title in
  let hash := SHA256.Sum256 (bytes_of_string normalized) in
  hex_EncodeToString (firstn 12 hash).

(** [filepath.Join(c.basePath, key+".bin")], for the clean [basePath] that
    [NewDiskCache] builds. *)
Definition getFilePath (c : DiskCache) (key : string) : string :=
  if String.eqb (basePath c) "" then ""
  else basePath c ++ "/" ++ key ++ ".bin".

Definition readFromDisk (c : DiskCache) (filePath : string) : result loc * DiskCache :=
  match files c !! filePath with
  | None => (Err ErrCacheMiss, c)
  | Some (Unreadable e) => (Err e, c)
  | Some Garbage => (Err ErrCacheCorrupt, c)
  | Some (Gob entry) =>
      (* version mismatch means stale format *)
      if negb (Version entry =? cacheVersion)
      then (Err ErrCacheCorrupt, os_Remove c filePath)
      else let '(p, c') := alloc c entry in (Ok p, c')
  end.

(** [Get], with the two readings of [time.Now().Unix()] it can make: [now1]
    when it checks the memory tier, [now2] when it checks the file. *)
Definition Get (c : DiskCache) (artist title : string) (now1 now2 : Z)
  : result loc * DiskCache :=
  if String.eqb artist "" || String.eqb title "" then (Err ErrCacheMiss, c)
  else
    let key := generateKey artist title in
    (* check memory cache first *)
    let hit_c1 :=
      match memCache c !! key with
      | Some entry =>
          if ExpiresAt (deref c entry) >? now1 then (Some entry, c)
          else (* expired in memory, remove it *)
            (None, set_memCache c (delete key (memCache c)))
      | None => (None, c)
      end in
    match hit_c1 with
    | (Some entry, c1) => (Ok entry, c1)
    | (None, c1) =>
        (* fall back to disk cache *)
        if String.eqb (basePath c1) "" then (Err ErrCacheMiss, c1)
        else
          let filePath := getFilePath c1 key in
          match readFromDisk c1 filePath with
          | (Err err, c2) => (Err err, c2)
          | (Ok entry, c2) =>
              (* validate expiry *)
              if ExpiresAt (deref c2 entry) <=? now2
              then (Err ErrCacheExpired, os_Remove c2 filePath)
              else (* populate memory cache *)
                (Ok entry, set_memCache c2 (<[key := entry]> (memCache c2)))
          end
    end.

(** Where [writeToDisk] fails, if it does. *)
Inductive write_fault :=
| NoFault
| CreateFails (e : error)
| EncodeFails (e : error)
| SyncFails (e : error)
| CloseFails (e : error)
| RenameFails (e : error).

(** [writeToDisk]: the record goes to a temporary file, which is renamed over
    the destination once complete. *)
Definition writeToDisk (c : DiskCache) (filePath : string) (entry : loc)
    (fault : write_fault) : option error * DiskCache :=
  let tmpPath := filePath ++ ".tmp" in
  match fault with
  | CreateFails e => (Some e, c)
  | EncodeFails e | SyncFails e | CloseFails e =>
      (Some e, os_Remove c tmpPath)
  | RenameFails e =>
      (Some e, set_files c (<[tmpPath := Gob (deref c entry)]> (files c)))
  | NoFault =>
      (None, set_files c (<[filePath := Gob (deref c entry)]> (delete tmpPath (files c))))
  end.

(** The fields [Set] writes into the caller's entry. *)
Definition stamp (e : LyricEntry) (now : Z) : LyricEntry :=
  mkLyricEntry cacheVersion (TrackName e) (ArtistName e) (AlbumName e)
    (Duration e) (Instrumental e) (PlainLyrics e) (SyncedLyrics e)
    (SyncOffset e) now (Int64.add now (Int64.wrap (defaultTTLDays * 24 * 60 * 60))).

(** [Set]; [entry] is [None] for a nil pointer, [now] is the reading of
    [time.Now().Unix()]. *)
Definition Set_ (c : DiskCache) (artist title : string) (entry : option loc)
    (now : Z) (fault : write_fault) : option error * DiskCache :=
  match entry with
  | None => (Some (ErrNew "invalid cache entry"), c)
  | Some p =>
      if String.eqb artist "" || String.eqb title ""
      then (Some (ErrNew "invalid cache entry"), c)
      else
        let key := generateKey artist title in
        (* set timestamps *)
        let c1 := set_heap c (<[p := stamp (deref c p) now]> (heap c)) in
        (* store in memory *)
        let c2 := set_memCache c1 (<[key := p]> (memCache c1)) in
        (* persist to disk *)
        if String.eqb (basePath c2) "" then (None, c2)
        else writeToDisk c2 (getFilePath c2 key) p fault
  end.

(** [Delete]; [remove_err] is the error [os.Remove] meets, if any, other
    than a missing file (a directory that cannot be written to, say): the
    file then stays where it is. *)
Definition Delete (c : DiskCache) (artist title : string) (remove_err : option error)
    : option error * DiskCache :=
  if String.eqb artist "" || String.eqb title ""
  then (Some (ErrNew "invalid artist or title"), c)
  else
    let key := generateKey artist title in
    (* remove from memory cache *)
    let c1 := set_memCache c (delete key (memCache c)) in
    (* remove from disk *)
    if String.eqb (basePath c1) "" then (None, c1)
    else
      match remove_err with
      | Some err => (Some err, c1)
      | None => (None, os_Remove c1 (getFilePath c1 key))
      end.

End Key.

(** The fallback of [GetGlobalCache]: a cache with the memory tier only. *)
Definition memoryOnly : DiskCache := mkDiskCache "" ∅ ∅ ∅.

(** [NewDiskCache] on a directory that could be created. *)
Definition newDiskCache (lyricsPath : string) : DiskCache :=
  mkDiskCache lyricsPath ∅ ∅ ∅.

(** [GetGlobalCache]: [globalCache] is the variable of that name, [None]
    until [globalCacheOnce] has run; [built] is what [NewDiskCache] returns
    if it is run. The result is the cache handed out and the new value of
    the variable. *)
Definition GetGlobalCache (globalCache : option DiskCache) (built : result DiskCache)
    : DiskCache * option DiskCache :=
  match globalCache with
  | Some c => (c, Some c)
  | None =>
      let c := match built with
               | Ok c => c
               | Err _ => memoryOnly
               end in
      (c, Some c)
  end.

End cache.

(** ** [net/url]

    [url.Values] maps a key to its values.  [Values.Encode] writes the map
    out sorted by key and [URL.Query] parses [RawQuery] back into the same
    map, so the model keeps [RawQuery] as the map it encodes. *)

Module url.

Abbreviation Values := (gmap string (list string)).

(** [Values.Set]: the key gets the single value, replacing any other. *)
Definition Set_ (v : Values) (key value : string) : Values := <[key := [value]]> v.

(** [Values.Get]: the first value of the key, or the empty string. *)
Definition Get (v : Values) (key : string) : string :=
  match v !! key with
  | Some (x :: _) => x
  | _ => ""
  end.

Record URL := mkURL {
  Location : string;   (* scheme, host and path *)
  RawQuery : Values
}.

End url.

(** [url.Parse] belongs to Go's standard library: a parameter. *)
Class NetURL := { url_Parse : string -> result url.URL }.

(** ** [float64] arithmetic and [strconv.ParseFloat]

    IEEE 754 binary64 with round-to-nearest-even, from the standard
    library's [SpecFloat].  Operations are not fused. *)

Module Float64.

Definition prec : Z := 53.
Definition emax : Z := 1024.

Definition zero : float64 := S754_zero false.
Definition of_Z (z : Z) : float64 := binary_normalize prec emax z 0 false.
Definition add : float64 -> float64 -> float64 := SFadd prec emax.
Definition mul : float64 -> float64 -> float64 := SFmul prec emax.
Definition div : float64 -> float64 -> float64 := SFdiv prec emax.
Definition ltb : float64 -> float64 -> bool := SFltb.
Definition leb : float64 -> float64 -> bool := SFleb.

(** The conversion [int64(f)]: the fraction is dropped (rounding toward
    zero).  For a NaN, an infinity or a value beyond [int64] the language
    leaves the result to the implementation; amd64 gives the smallest
    [int64]. *)
Definition to_int64 (f : float64) : Z :=
  match f with
  | S754_zero _ => 0
  | S754_finite s m e =>
      let whole := Z.shiftl (Z.pos m) e in
      let v := if s then - whole else whole in
      if (Int64.min_int <=? v) && (v <=? Int64.max_int) then v else Int64.min_int
  | _ => Int64.min_int
  end.

(** The float nearest to [m * 10 ^ e10]. *)
Definition of_decimal (neg : bool) (m : Z) (e10 : Z) : float64 :=
  match m with
  | Zpos p =>
      if 0 <=? e10
      then binary_normalize prec emax ((if neg then - m else m) * 10 ^ e10) 0 false
      else div (S754_finite neg p 0) (S754_finite false (Z.to_pos (10 ^ (- e10))) 0)
  | _ => S754_zero neg
  end.

(** The float nearest to [m * 2 ^ e2]. *)
Definition of_binary (neg : bool) (m : Z) (e2 : Z) : float64 :=
  binary_normalize prec emax (if neg then - m else m) e2 neg.

End Float64.

Module strconv.

Definition lower (c : Z) : Z := Z.lor c 32.
Definition is_digit (c : Z) : bool := (48 <=? c) && (c <=? 57).
Definition is_hex_letter (c : Z) : bool := (97 <=? lower c) && (lower c <=? 102).

(** [commonPrefixLenIgnoreCase(s, prefix)], for a lower-case [prefix]. *)
Fixpoint commonPrefixLenIgnoreCase (s prefix : list Z) : nat :=
  match s, prefix with
  | c :: s', p :: prefix' =>
      let c' := if (65 <=? c) && (c <=? 90) then c + 32 else c in
      if c' =? p then S (commonPrefixLenIgnoreCase s' prefix') else O
  | _, _ => O
  end.

(** [special]: the value and the number of bytes read for "inf",
    "infinity" (with an optional sign) and "nan", in any letter case. *)
Definition special (s : list Z) : option (float64 * nat) :=
  let infinity := bytes_of_string "infinity" in
  let inf (neg : bool) (nsign : nat) (s : list Z) :=
    let n := commonPrefixLenIgnoreCase s infinity in
    let n := if (3 <? n)%nat && (n <? 8)%nat then 3%nat else n in
    if (n =? 3)%nat || (n =? 8)%nat then Some (S754_infinity neg, (nsign + n)%nat)
    else None in
  match s with
  | [] => None
  | c :: s' =>
      if (c =? 43) || (c =? 45) then inf (c =? 45) 1%nat s'
      else if (c =? 105) || (c =? 73) then inf false 0%nat s
      else if (c =? 110) || (c =? 78) then
        if (commonPrefixLenIgnoreCase s (bytes_of_string "nan") =? 3)%nat
        then Some (S754_nan, 3%nat) else None
      else None
  end.

(** [underscoreOK]: underscores only between digits, or between a base
    prefix and a digit.  [saw] is the kind of the last byte: 94 at the
    beginning, 48 for a digit, 95 for an underscore, 33 for anything else. *)
Fixpoint underscore_scan (hex : bool) (saw : Z) (s : list Z) : bool :=
  match s with
  | [] => negb (saw =? 95)
  | c :: r =>
      if is_digit c || (hex && is_hex_letter c) then underscore_scan hex 48 r
      else if c =? 95 then
        if negb (saw =? 48) then false else underscore_scan hex 95 r
      else if saw =? 95 then false
      else underscore_scan hex 33 r
  end.

Definition underscoreOK (s : list Z) : bool :=
  let s := match s with
           | c :: r => if (c =? 45) || (c =? 43) then r else s
           | [] => s
           end in
  match s with
  | c0 :: c1 :: r =>
      if (c0 =? 48) && ((lower c1 =? 98) || (lower c1 =? 111) || (lower c1 =? 120))
      then underscore_scan (lower c1 =? 120) 48 r
      else underscore_scan false 94 s
  | _ => underscore_scan false 94 s
  end.

(** What the digit loop of [readFloat] has read. *)
Record digits := mkDigits {
  mantissa : Z;        (* the digits read, as a number in the base *)
  fraction : Z;        (* how many of them came after the point *)
  sawdot : bool;
  sawdigits : bool;
  underscores : bool
}.

(** The digit loop of [readFloat]; returns what it read and the bytes left. *)
Fixpoint read_digits (hex : bool) (d : digits) (s : list Z) : digits * list Z :=
  match s with
  | [] => (d, [])
  | c :: r =>
      if c =? 95 then
        read_digits hex (mkDigits (mantissa d) (fraction d) (sawdot d) (sawdigits d) true) r
      else if c =? 46 then
        if sawdot d then (d, s)
        else read_digits hex
               (mkDigits (mantissa d) (fraction d) true (sawdigits d) (underscores d)) r
      else if is_digit c then
        read_digits hex
          (mkDigits ((if hex then 16 else 10) * mantissa d + (c - 48))
             (if sawdot d then fraction d + 1 else fraction d)
             (sawdot d) true (underscores d)) r
      else if hex && is_hex_letter c then
        read_digits hex
          (mkDigits (16 * mantissa d + (lower c - 97 + 10))
             (if sawdot d then fraction d + 1 else fraction d)
             (sawdot d) true (underscores d)) r
      else (d, s)
  end.

(** The digits of the exponent, with the cap of [readFloat]; returns the
    exponent, whether an underscore was seen, and the bytes left. *)
Fixpoint read_exponent (e : Z) (us : bool) (s : list Z) : Z * bool * list Z :=
  match s with
  | [] => (e, us, [])
  | c :: r =>
      if c =? 95 then read_exponent e true r
      else if is_digit c then
        read_exponent (if e <? 10000 then e * 10 + (c - 48) else e) us r
      else (e, us, s)
  end.

(** [readFloat] on a whole string: sign, mantissa, exponent of the base and
    whether the number is hexadecimal; [None] when the string is not a
    number from its first to its last byte. *)
Definition readFloat (s : list Z) : option (bool * Z * Z * bool) :=
  let '(neg, s1) :=
    match s with
    | c :: r => if c =? 43 then (false, r) else if c =? 45 then (true, r) else (false, s)
    | [] => (false, s)
    end in
  let '(hex, s2) :=
    match s1 with
    | c0 :: c1 :: ((_ :: _) as r) =>
        if (c0 =? 48) && (lower c1 =? 120) then (true, r) else (false, s1)
    | _ => (false, s1)
    end in
  let '(d, s3) := read_digits hex (mkDigits 0 0 false false false) s2 in
  if negb (sawdigits d) then None
  else
    let expChar := if hex then 112 else 101 in
    let scale := if hex then 4 * fraction d else fraction d in
    let finish (e : Z) (us : bool) (rest : list Z) :=
      match rest with
      | [] =>
          if (underscores d || us) && negb (underscoreOK s) then None
          else Some (neg, mantissa d, e - scale, hex)
      | _ :: _ => None
      end in
    match s3 with
    | c :: r =>
        if lower c =? expChar then
          let '(esign, r1) :=
            match r with
            | c' :: r' => if c' =? 43 then (1, r') else if c' =? 45 then (-1, r') else (1, r)
            | [] => (1, r)
            end in
          match r1 with
          | c' :: _ =>
              if is_digit c' then
                let '(e, us, rest) := read_exponent 0 false r1 in
                finish (e * esign) us rest
              else None
          | [] => None
          end
        else if hex then None else finish 0 false s3
    | [] => if hex then None else finish 0 false s3
    end.

Definition syntax_error (s : string) : error :=
  ErrNew ("strconv.ParseFloat: parsing " ++ String (byte_of 34) s
          ++ String (byte_of 34) ": invalid syntax").
Definition range_error (s : string) : error :=
  ErrNew ("strconv.ParseFloat: parsing " ++ String (byte_of 34) s
          ++ String (byte_of 34) ": value out of range").

(** [strconv.ParseFloat(s, 64)]: the float nearest to the number [s]
    denotes; an error when [s] is not a number or is out of range. *)
Definition ParseFloat (s : string) : result float64 :=
  let bs := bytes_of_string s in
  match special bs with
  | Some (f, n) => if (n =? length bs)%nat then Ok f else Err (syntax_error s)
  | None =>
      match readFloat bs with
      | None => Err (syntax_error s)
      | Some (neg, m, e, hex) =>
          let f := if hex then Float64.of_binary neg m e
                   else Float64.of_decimal neg m e in
          match f with
          | S754_infinity _ => Err (range_error s)
          | _ => Ok f
          end
      end
  end.

End strconv.

(** ** Package [lyrics] *)

Module lyrics.

Record LrclibResponse := mkLrclibResponse {
  TrackName : string;
  ArtistName : string;
  AlbumName : string;
  Duration : float64;
  Instrumental : bool;
  PlainLyrics : string;
  SyncedLyrics : string;
  SyncOffset : float64
}.

Record TimedLine := mkTimedLine {
  TimeSeconds : float64;
  Text : string
}.

Record TrackParams := mkTrackParams {
  Title : string;
  Artist : string;
  Album : string;
  DurationSecs : Z
}.

(** [json.Unmarshal] into a [LrclibResponse]. *)
Class JSON := { json_Unmarshal : string -> result LrclibResponse }.

(** The loop [for strings.Contains(s, "  ") { s = strings.ReplaceAll(s, "  ", " ") }];
    every round shortens [s], so [length s] rounds are enough. *)
Fixpoint collapse_spaces (fuel : nat) (s : string) : string :=
  match fuel with
  | O => s
  | S f =>
      if Strings.Contains s "  "
      then collapse_spaces f (Strings.ReplaceAll s "  " " ")
      else s
  end.

(** normalizeString cleans and normalizes track/artist names *)
Definition normalizeString (s : string) : string :=
  let s := Strings.TrimSpace s in
  (* remove multiple spaces *)
  let s := collapse_spaces (String.length s) s in
  Strings.TrimSpace s.

(** The loop that removes the spans between [opening] and [closing]; every
    round shortens [s]. *)
Fixpoint strip_spans (fuel : nat) (opening closing s : string) : string :=
  match fuel with
  | O => s
  | S f =>
      if Strings.Contains s opening && Strings.Contains s closing then
        let start := Strings.Index s opening in
        let end_ := Strings.Index s closing in
        if end_ >? start
        then strip_spans f opening closing
               (Strings.slice s 0 (Z.to_nat start) ++ " "
                ++ Strings.slice_from s (Z.to_nat (end_ + 1)))
        else s
      else s
  end.

(** stripVersionInfo removes text in parentheses and brackets *)
Definition stripVersionInfo (s : string) : string :=
  let s := Strings.TrimSpace s in
  (* remove content within parentheses *)
  let s := strip_spans (String.length s) "(" ")" s in
  (* remove content within brackets *)
  let s := strip_spans (String.length s) "[" "]" s in
  (* remove multiple spaces *)
  let s := collapse_spaces (String.length s) s in
  Strings.TrimSpace s.

(** The conversion [string(b)] of a byte: the UTF-8 form of the rune [b]. *)
Definition string_of_byte (c : ascii) : string :=
  let v := byte_val c in
  if v <? RuneSelf then String c EmptyString
  else string_of_bytes [Z.lor 0xC0 (Z.shiftr v 6); Z.lor 0x80 (Z.land v 0x3F)].

Section Resolver.
Context `{UnicodeCase} `{NetURL}.

(** toTitleCase converts a string to title case *)
Definition toTitleCase (s : string) : string :=
  let words := Strings.Fields s in
  Strings.Join
    (map (fun word =>
            match word with
            | EmptyString => word
            | String c r => Strings.ToUpper (string_of_byte c) ++ Strings.ToLower r
            end) words)
    " ".

(** One element of [searchStrategies]. *)
Record strategy := mkStrategy {
  artist : string;
  title : string;
  album : string;
  duration : Z
}.

Definition searchStrategies (track : TrackParams) : list strategy :=
  let normalizedArtist := normalizeString (Artist track) in
  let normalizedTitle := normalizeString (Title track) in
  let strippedArtist := stripVersionInfo (Artist track) in
  let strippedTitle := stripVersionInfo (Title track) in
  [ (* normalized names with album and duration *)
    mkStrategy normalizedArtist normalizedTitle (Album track) (DurationSecs track);
    (* normalized names without album *)
    mkStrategy normalizedArtist normalizedTitle "" (DurationSecs track);
    (* normalized names without album or duration *)
    mkStrategy normalizedArtist normalizedTitle "" 0;
    (* stripped version info (no parens/brackets) without album *)
    mkStrategy strippedArtist strippedTitle "" 0;
    (* uppercase *)
    mkStrategy (Strings.ToUpper normalizedArtist) (Strings.ToUpper normalizedTitle) "" 0;
    (* lowercase *)
    mkStrategy (Strings.ToLower normalizedArtist) (Strings.ToLower normalizedTitle) "" 0;
    (* title case *)
    mkStrategy (toTitleCase normalizedArtist) (toTitleCase normalizedTitle) "" 0;
    (* original names without album or duration (fallback) *)
    mkStrategy (Artist track) (Title track) "" 0 ].

(** [fmt.Sprintf("%s|%s|%s|%d", ...)]: the key under which a strategy is
    remembered as seen. *)
Definition strategy_key (s : strategy) : string :=
  artist s ++ "|" ++ title s ++ "|" ++ album s ++ "|" ++ format_int (duration s).

(** deduplicate strategies *)
Fixpoint deduplicate (seen : gset string) (l : list strategy) : list strategy :=
  match l with
  | [] => []
  | s :: rest =>
      if String.eqb (artist s) "" || String.eqb (title s) "" then deduplicate seen rest
      else
        let key := strategy_key s in
        if decide (key ∈ seen) then deduplicate seen rest
        else s :: deduplicate ({[key]} ∪ seen) rest
  end.

Definition uniqueStrategies (track : TrackParams) : list strategy :=
  deduplicate ∅ (searchStrategies track).

Definition isTimeoutError (err : error) : bool :=
  Is_DeadlineExceeded err
  || Strings.Contains (Error err) "timeout"
  || Strings.Contains (Error err) "deadline exceeded"
  || Strings.Contains (Error err) "i/o timeout".

Definition isNotFoundError (err : error) : bool :=
  Strings.Contains (Error err) "status 404"
  || Strings.Contains (Error err) "not found".

(** What the HTTP client gives [doFetchRequest] for a request: no request
    could be built; the round trip failed ([client.Do] returned an error: a
    request that exceeded its deadline gives [context.DeadlineExceeded],
    wrapped by the client); or a response arrived, with its status code, the
    bytes of its body that could be read and the error that ended the
    reading, if any. *)
Inductive http_outcome :=
| NoRequest (err : error)
| NoResponse (err : error)
| Response (StatusCode : Z) (body : string) (read_err : option error).

(** [doFetchRequest], given what the client did with the request. *)
Definition doFetchRequest `{JSON} (r : http_outcome) : result LrclibResponse :=
  match r with
  | NoRequest err => Err (ErrWrap "failed to build http request: " err)
  | NoResponse err => Err err
  | Response StatusCode body read_err =>
      if StatusCode =? 404 then Err (ErrNew "status 404: lyrics not found")
      else if negb (StatusCode =? 200) then
        (* the first 512 bytes of the body go into the error *)
        Err (ErrNew ("lrclib returned status " ++ format_int StatusCode ++ ": "
                     ++ Strings.slice body 0 512))
      else
        match read_err with
        | Some err => Err (ErrWrap "failed to read lrclib response: " err)
        | None =>
            match json_Unmarshal body with
            | Err err => Err (ErrWrap "failed to decode lrclib json: " err)
            | Ok payload => Ok payload
            end
        end
  end.

(** What surrounds one call of [Fetch]: what [doFetchRequest] returns at
    the i-th attempt, the caller's context at the delay before the i-th
    attempt ([Some err] when [parentCtx] is done first), the clock readings
    of the cache calls and the fate of the file write. *)
Record Env := mkEnv {
  remote : nat -> url.URL -> result LrclibResponse;
  ctx_Err : nat -> option error;
  now_get_memory : Z;
  now_get_file : Z;
  now_set : Z;
  fault : cache.write_fault
}.

(** What [Fetch] returns, the requests it issued (oldest first) and the
    cache it leaves. *)
Definition outcome : Type := result LrclibResponse * list url.URL * cache.DiskCache.

Definition answer (o : outcome) : result LrclibResponse := fst (fst o).
Definition requests (o : outcome) : list url.URL := snd (fst o).
Definition cache_after (o : outcome) : cache.DiskCache := snd o.

Definition issued (u : url.URL) (o : outcome) : outcome :=
  (answer o, u :: requests o, cache_after o).

Definition entry_of (payload : LrclibResponse) : cache.LyricEntry :=
  cache.mkLyricEntry 0 (TrackName payload) (ArtistName payload) (AlbumName payload)
    (Duration payload) (Instrumental payload) (PlainLyrics payload)
    (SyncedLyrics payload) (SyncOffset payload) 0 0.

Definition response_of (cached : cache.LyricEntry) : LrclibResponse :=
  mkLrclibResponse (cache.TrackName cached) (cache.ArtistName cached)
    (cache.AlbumName cached) (cache.Duration cached) (cache.Instrumental cached)
    (cache.PlainLyrics cached) (cache.SyncedLyrics cached) (cache.SyncOffset cached).

(** The query of the request for [s], built on the URL as the previous
    iteration left it. *)
Definition next_url (parsedURL : url.URL) (s : strategy) : url.URL :=
  let query := url.RawQuery parsedURL in
  let query := url.Set_ query "artist_name" (artist s) in
  let query := url.Set_ query "track_name" (title s) in
  let query := if negb (String.eqb (album s) "")
               then url.Set_ query "album_name" (album s) else query in
  let query := if duration s >? 0
               then url.Set_ query "duration" (format_int (duration s)) else query in
  url.mkURL (url.Location parsedURL) query.

Definition no_lyrics (payload : LrclibResponse) : bool :=
  String.eqb (PlainLyrics payload) "" && String.eqb (SyncedLyrics payload) ""
  && negb (Instrumental payload).

(** The loop over [uniqueStrategies]. *)
Fixpoint fetch_loop (env : Env) (track : TrackParams) (strategyIdx : nat)
    (strategies : list strategy) (parsedURL : url.URL) (lastErr : option error)
    (diskCache : cache.DiskCache) : outcome :=
  match strategies with
  | [] =>
      (* all strategies failed *)
      match lastErr with
      | Some e =>
          (Err (ErrWrap ("no lyrics found for " ++ Artist track ++ " - "
                         ++ Title track ++ ": ") e), [], diskCache)
      | None =>
          (Err (ErrNew ("no lyrics found for " ++ Artist track ++ " - "
                        ++ Title track ++ " (tried multiple search variations)")),
           [], diskCache)
      end
  | s :: rest =>
      let parsedURL := next_url parsedURL s in
      (* add small delay between strategies *)
      match (if (0 <? strategyIdx)%nat then ctx_Err env strategyIdx else None) with
      | Some e => (Err e, [], diskCache)
      | None =>
          match remote env strategyIdx parsedURL with
          | Ok payload =>
              if no_lyrics payload then
                (* no lyrics in response, try next strategy *)
                issued parsedURL
                  (fetch_loop env track (S strategyIdx) rest parsedURL
                     (Some (ErrNew "no lyrics in response")) diskCache)
              else
                (* found lyrics! persist to disk cache using original keys *)
                let '(p, c1) := cache.alloc diskCache (entry_of payload) in
                let '(_, c2) := cache.Set_ c1 (Artist track) (Title track) (Some p)
                                  (now_set env) (fault env) in
                (Ok payload, [parsedURL], c2)
          | Err err =>
              (* only give up immediately on actual network timeouts *)
              if isTimeoutError err then
                (Err (ErrNew "lyrics server took too long to respond"),
                 [parsedURL], diskCache)
              else
                issued parsedURL
                  (fetch_loop env track (S strategyIdx) rest parsedURL (Some err)
                     diskCache)
          end
      end
  end.

(** [%q] of a string that needs no escaping. *)
Definition quoted (s : string) : string :=
  String (byte_of 34) s ++ String (byte_of 34) EmptyString.

(** [Fetch]; [track] is [None] for a nil pointer.  [diskCache] is the
    cache in the state in which [cache.GetGlobalCache()] hands it to the
    call.  The source asks for it after the first three checks and before
    the check of the normalised names (on the first use in a process that
    builds the cache, see [cache.GetGlobalCache]); it does nothing with it
    before the lookup. *)
Definition Fetch (env : Env) (diskCache : cache.DiskCache) (baseURL : string)
    (track : option TrackParams) : outcome :=
  match track with
  | None => (Err (ErrNew "nil track info"), [], diskCache)
  | Some track =>
      if String.eqb (Title track) "" || String.eqb (Artist track) "" then
        (Err (ErrNew "track title or artist is empty"), [], diskCache)
      else if String.eqb baseURL "" then
        (Err (ErrNew "lrclib base url is empty"), [], diskCache)
      else
        let normalizedArtist := normalizeString (Artist track) in
        let normalizedTitle := normalizeString (Title track) in
        if String.eqb normalizedTitle "" || String.eqb normalizedArtist "" then
          (Err (ErrNew "track title or artist is empty after normalization"),
           [], diskCache)
        else
          (* check persistent cache first (use original values for cache key) *)
          match cache.Get diskCache (Artist track) (Title track)
                  (now_get_memory env) (now_get_file env) with
          | (Ok cached, c1) => (Ok (response_of (cache.deref c1 cached)), [], c1)
          | (Err _, c1) =>
              match url_Parse baseURL with
              | Err err =>
                  (Err (ErrWrap ("invalid lrclib url " ++ quoted baseURL ++ ": ") err),
                   [], c1)
              | Ok parsedURL =>
                  fetch_loop env track 0 (uniqueStrategies track) parsedURL None c1
              end
          end
  end.

(** [Fetch] as a process runs it: [globalCache] is the variable of that
    name in package [cache] ([None] until [GetGlobalCache] has run once),
    [built] what [NewDiskCache] returns if it is run.  The first three checks
    come before [cache.GetGlobalCache()]; from there on the call is [Fetch]
    on the cache handed out.  The third component is the variable after the
    call. *)
Definition Fetch_process (env : Env) (globalCache : option cache.DiskCache)
    (built : result cache.DiskCache) (baseURL : string) (track : option TrackParams)
    : result LrclibResponse * list url.URL * option cache.DiskCache :=
  match track with
  | None => (Err (ErrNew "nil track info"), [], globalCache)
  | Some tr =>
      if String.eqb (Title tr) "" || String.eqb (Artist tr) "" then
        (Err (ErrNew "track title or artist is empty"), [], globalCache)
      else if String.eqb baseURL "" then
        (Err (ErrNew "lrclib base url is empty"), [], globalCache)
      else
        let diskCache := fst (cache.GetGlobalCache globalCache built) in
        let o := Fetch env diskCache baseURL track in
        (answer o, requests o, Some (cache_after o))
  end.

End Resolver.

(** The LRC parser *)

Definition parseFloatSafe (s : string) : result float64 :=
  match strconv.ParseFloat (Strings.TrimSpace s) with
  | Err err =>
      Err (ErrWrap ("failed to parse float " ++ String (byte_of 34) s
                    ++ String (byte_of 34) ": ") err)
  | Ok value => Ok value
  end.

Definition parseLrcTimeToSeconds (raw : string) : result float64 :=
  if String.eqb raw "" then Err (ErrNew "empty time value")
  else
    let parts := Strings.Split raw ":" in
    let finish (hours minutes seconds : float64) :=
      let total :=
        Float64.add
          (Float64.add (Float64.mul hours (Float64.of_Z 3600))
                       (Float64.mul minutes (Float64.of_Z 60)))
          seconds in
      if Float64.ltb total Float64.zero
      then Err (ErrNew "negative time not allowed")
      else Ok total in
    match parts with
    | [p0; p1; p2] =>
        match parseFloatSafe p0 with
        | Err err => Err err
        | Ok hours =>
            match parseFloatSafe p1 with
            | Err err => Err err
            | Ok minutes =>
                match parseFloatSafe p2 with
                | Err err => Err err
                | Ok seconds => finish hours minutes seconds
                end
            end
        end
    | [p0; p1] =>
        match parseFloatSafe p0 with
        | Err err => Err err
        | Ok minutes =>
            match parseFloatSafe p1 with
            | Err err => Err err
            | Ok seconds => finish Float64.zero minutes seconds
            end
        end
    | _ => Err (ErrNew ("invalid time format: " ++ raw))
    end.

Definition splitLrcLine (line : string) : string * string :=
  if negb (Strings.HasPrefix line "[") then ("", "")
  else
    let endIndex := Strings.Index line "]" in
    if endIndex <=? 1 then ("", "")
    else
      let timePart := Strings.slice line 1 (Z.to_nat endIndex) in
      let textPart := Strings.TrimSpace (Strings.slice_from line (Z.to_nat (endIndex + 1))) in
      if String.eqb textPart "" then ("", "")
      else (timePart, textPart).

(** The body of the loop of [ParseSynced]: the line it appends, if any. *)
Definition parse_line (line : string) : option TimedLine :=
  let trimmed := Strings.TrimSpace line in
  if String.eqb trimmed "" then None
  else
    let '(timePart, text) := splitLrcLine trimmed in
    if String.eqb timePart "" || String.eqb text "" then None
    else
      match parseLrcTimeToSeconds timePart with
      | Err _ => None
      | Ok seconds => Some (mkTimedLine seconds text)
      end.

Fixpoint parse_lines (lines : list string) : list TimedLine :=
  match lines with
  | [] => []
  | line :: rest =>
      match parse_line line with
      | Some l => l :: parse_lines rest
      | None => parse_lines rest
      end
  end.

Definition ParseSynced (raw : string) : list TimedLine :=
  if String.eqb raw "" then []
  else parse_lines (Strings.Split raw (byte_of 10)).

(** The loop of [FindCurrentLineIndex], at line [i] with the index found so
    far. *)
Fixpoint find_from (lines : list TimedLine) (positionSeconds : float64)
    (i index : Z) : Z :=
  match lines with
  | [] => index
  | line :: rest =>
      if Float64.leb (TimeSeconds line) positionSeconds
      then find_from rest positionSeconds (i + 1) i
      else index
  end.

Definition FindCurrentLineIndex (lines : list TimedLine) (positionSeconds : float64) : Z :=
  match lines with
  | [] => -1
  | _ => find_from lines positionSeconds 0 (-1)
  end.

End lyrics.

(** ** Instances and predicates used by the statements *)

(** Case mapping that leaves strings with non-ASCII bytes alone: enough to
    run the code on ASCII inputs. *)
Definition ascii_case : UnicodeCase :=
  {| Map_ToLower := fun s => s; Map_ToUpper := fun s => s |}.

(** What the Unicode tables give: lowering a string that is already the
    result of the rune-wise lowering changes nothing. *)
Definition lowering_stable `{UnicodeCase} : Prop :=
  forall s, isASCII s = false -> Strings.ToLower (Map_ToLower s) = Map_ToLower s.

Definition is_hex_char (c : ascii) : bool :=
  let v := byte_val c in
  ((48 <=? v) && (v <=? 57)) || ((97 <=? v) && (v <=? 102)).

Fixpoint all_bytes (P : ascii -> bool) (s : string) : bool :=
  match s with
  | EmptyString => true
  | String c r => P c && all_bytes P r
  end.

(** The fields of an entry that [Set] leaves as the caller gave them. *)
Definition same_payload (e1 e2 : cache.LyricEntry) : Prop :=
  cache.TrackName e1 = cache.TrackName e2
  /\ cache.ArtistName e1 = cache.ArtistName e2
  /\ cache.AlbumName e1 = cache.AlbumName e2
  /\ cache.Duration e1 = cache.Duration e2
  /\ cache.Instrumental e1 = cache.Instrumental e2
  /\ cache.PlainLyrics e1 = cache.PlainLyrics e2
  /\ cache.SyncedLyrics e1 = cache.SyncedLyrics e2
  /\ cache.SyncOffset e1 = cache.SyncOffset e2.

(** A cache entry and a response carry the same lyric data. *)
Definition same_fields (e : cache.LyricEntry) (r : lyrics.LrclibResponse) : Prop :=
  cache.TrackName e = lyrics.TrackName r
  /\ cache.ArtistName e = lyrics.ArtistName r
  /\ cache.AlbumName e = lyrics.AlbumName r
  /\ cache.Duration e = lyrics.Duration r
  /\ cache.Instrumental e = lyrics.Instrumental r
  /\ cache.PlainLyrics e = lyrics.PlainLyrics r
  /\ cache.SyncedLyrics e = lyrics.SyncedLyrics r
  /\ cache.SyncOffset e = lyrics.SyncOffset r.

(** Thirty days, in seconds. *)
Definition ttl_seconds : Z := 2592000.

(** A reading of [time.Now().Unix()] to which the TTL can be added within
    [int64]. *)
Definition clock_ok (now : Z) : Prop :=
  Int64.in_range now /\ now + ttl_seconds <= Int64.max_int.

(** The stamping invariant of an entry. *)
Definition stamped (e : cache.LyricEntry) : Prop :=
  cache.ExpiresAt e = cache.CreatedAt e + ttl_seconds
  /\ cache.Version e = cache.cacheVersion.

(** Every entry the cache can hand out, from either tier, is stamped. *)
Definition cache_stamped (c : cache.DiskCache) : Prop :=
  (forall key p, cache.memCache c !! key = Some p -> stamped (cache.deref c p))
  /\ (forall path e, cache.files c !! path = Some (cache.Gob e) ->
        cache.Version e = cache.cacheVersion -> stamped e).

(** A concrete cache and entry on which the statements are run. *)
Definition sample_entry : cache.LyricEntry :=
  cache.mkLyricEntry 0 "X" "Abc" "Album" (S754_zero false) false
    "la la" "[00:01.50]la la" (S754_zero false) 0 0.

Definition sample_cache : cache.DiskCache :=
  cache.mkDiskCache "/home/u/.cache/lyric-shower/lyrics" ∅ {[ 1%positive := sample_entry ]} ∅.

(** The memory tier has nothing to return under [key] at time [now]: no
    entry, or an expired one. *)
Definition mem_stale (c : cache.DiskCache) (key : string) (now : Z) : Prop :=
  match cache.memCache c !! key with
  | Some p => cache.ExpiresAt (cache.deref c p) <= now
  | None => True
  end.

(** The cache once [Get] has dropped [key] from the memory tier. *)
Definition evicted (c : cache.DiskCache) (key : string) : cache.DiskCache :=
  cache.set_memCache c (delete key (cache.memCache c)).

(** A cache whose file tier holds one valid record, for the key of
    ("Abc", "X"), expiring at time 2000. *)
Definition disk_entry : cache.LyricEntry :=
  cache.mkLyricEntry 1 "X" "Abc" "" (S754_zero false) false
    "la la" "" (S754_zero false) (2000 - ttl_seconds) 2000.

Definition disk_sample : cache.DiskCache :=
  cache.mkDiskCache "/c" ∅ ∅ {[ "/c/336591ab7e90f75ec33592d6.bin" := cache.Gob disk_entry ]}.

(** A base URL without a query string. *)
Definition plain_url : NetURL :=
  {| url_Parse := fun s => Ok (url.mkURL s ∅) |}.

Definition too_slow : error := ErrNew "lyrics server took too long to respond".

(** The cache once [Fetch] has persisted an accepted payload. *)
Definition persisted `{UnicodeCase} (env : lyrics.Env) (track : lyrics.TrackParams)
    (c : cache.DiskCache) (payload : lyrics.LrclibResponse) : cache.DiskCache :=
  let pc := cache.alloc c (lyrics.entry_of payload) in
  snd (cache.Set_ (snd pc) (lyrics.Artist track) (lyrics.Title track) (Some (fst pc))
         (lyrics.now_set env) (lyrics.fault env)).

(** A failure that is no timeout as far as its error tells: no
    deadline-exceeded error in its chain and no mention of a timeout or a
    deadline in its text. *)
Definition plain_failure (e : error) : Prop :=
  Is_DeadlineExceeded e = false
  /\ Strings.Contains (Error e) "timeout" = false
  /\ Strings.Contains (Error e) "deadline exceeded" = false.

(** An environment whose HTTP client behaves as [http]. *)
Definition served `{lyrics.JSON} (http : nat -> url.URL -> lyrics.http_outcome)
    : lyrics.Env :=
  lyrics.mkEnv (fun i u => lyrics.doFetchRequest (http i u)) (fun _ => None)
    1700000000 1700000000 1700000000 cache.NoFault.

(** The inputs [Fetch] does not reject before it looks at the cache. *)
Definition resolvable (baseURL : string) (track : lyrics.TrackParams) : Prop :=
  lyrics.Title track <> "" /\ lyrics.Artist track <> "" /\ baseURL <> ""
  /\ lyrics.normalizeString (lyrics.Title track) <> ""
  /\ lyrics.normalizeString (lyrics.Artist track) <> "".

(** A query and environments on which the resolver is run. *)
Definition sample_track : lyrics.TrackParams :=
  lyrics.mkTrackParams "One More Time" "Daft Punk" "Discovery" 320.

Definition sample_base : string := "https://lrclib.net/api/get".

Definition deadline_error : error :=
  ErrWrap "Get https://lrclib.net/api/get: " DeadlineExceeded.

(** A remote that always times out. *)
Definition timeout_env : lyrics.Env :=
  lyrics.mkEnv (fun _ _ => Err deadline_error) (fun _ => None)
    1700000000 1700000000 1700000000 cache.NoFault.

Definition empty_payload : lyrics.LrclibResponse :=
  lyrics.mkLrclibResponse "" "" "" (S754_zero false) false "" "" (S754_zero false).

(** A remote that finds no lyrics, whatever it is asked. *)
Definition no_match_env : lyrics.Env :=
  lyrics.mkEnv (fun _ _ => Ok empty_payload) (fun _ => None)
    1700000000 1700000000 1700000000 cache.NoFault.

Definition sample_payload : lyrics.LrclibResponse :=
  lyrics.mkLrclibResponse "One More Time" "Daft Punk" "Discovery" (S754_zero false)
    false "la la" "[00:01.50]la la" (S754_zero false).

(** A remote that answers the first request with lyrics, while the file
    write of the cache fails. *)
Definition found_env : lyrics.Env :=
  lyrics.mkEnv (fun _ _ => Ok sample_payload) (fun _ => None)
    1700000000 1700000000 1700000000 (cache.RenameFails (ErrNew "rename: permission denied")).

(** The query of a request that carries the fields of candidate [s] and
    nothing else, on a base URL whose own query is [base]. *)
Definition candidate_query (base : url.Values) (s : lyrics.strategy) : url.Values :=
  url.RawQuery (lyrics.next_url (url.mkURL "" base) s).

Definition strategy_fields (s : lyrics.strategy) : string * string * string * Z :=
  (lyrics.artist s, lyrics.title s, lyrics.album s, lyrics.duration s).

(** The parameters a request carries, in the order artist_name, track_name,
    album_name, duration; [None] for a parameter that is absent. *)
Definition request_parameters (u : url.URL) : list (option (list string)) :=
  map (fun k => url.RawQuery u !! k)
      ["artist_name"; "track_name"; "album_name"; "duration"].

(** The lines are in chronological order: each timestamp is at most the
    next one. *)
Fixpoint chronological (lines : list lyrics.TimedLine) : Prop :=
  match lines with
  | a :: rest =>
      match rest with
      | b :: _ =>
          Float64.leb (lyrics.TimeSeconds a) (lyrics.TimeSeconds b) = true
          /\ chronological rest
      | [] => True
      end
  | [] => True
  end.

(** The index of the last line whose timestamp is at most the position,
    looking at every line; [i] is the index of the head, [found] the answer
    so far. *)
Fixpoint last_index_le (lines : list lyrics.TimedLine) (position : float64)
    (i found : Z) : Z :=
  match lines with
  | [] => found
  | line :: rest =>
      last_index_le rest position (i + 1)
        (if Float64.leb (lyrics.TimeSeconds line) position then i else found)
  end.

Definition predecessor_index (lines : list lyrics.TimedLine) (position : float64) : Z :=
  last_index_le lines position 0 (-1).

Definition lrc_example : string :=
  "[00:01.50]Hello" ++ String (byte_of 10) "[00:03.00]World".

(** 1.5, 3, 2, 0.5 and 10 as [float64]. *)
Definition f1_5 : float64 := Float64.div (Float64.of_Z 3) (Float64.of_Z 2).
Definition f3 : float64 := Float64.of_Z 3.
Definition f2 : float64 := Float64.of_Z 2.
Definition f0_5 : float64 := Float64.div (Float64.of_Z 1) (Float64.of_Z 2).
Definition f10 : float64 := Float64.of_Z 10.

(** ** Package [time], as far as the observer uses it

    A [time.Time] is an instant, counted in nanoseconds from the zero
    instant (the zero value of the type); a [time.Duration] is an [int64]
    number of nanoseconds. *)

Module time.

Definition Time := Z.
Definition zero : Time := 0.
Definition IsZero (t : Time) : bool := t =? 0.

Definition Second : Z := 1000000000.

(** [t.Sub(u)]: the difference, brought back into [int64]. *)
Definition Sub (t u : Time) : Z :=
  let d := t - u in
  if d <? Int64.min_int then Int64.min_int
  else if Int64.max_int <? d then Int64.max_int
  else d.

(** [time.Since(t)], when [time.Now()] reads [now]. *)
Definition Since (now t : Time) : Z := Sub now t.

(** [d.Seconds()]: the whole seconds and the remaining nanoseconds, put
    together in binary64: [float64(sec) + float64(nsec)/1e9]. *)
Definition Seconds (d : Z) : float64 :=
  let sec := Z.quot d Second in
  let nsec := Z.rem d Second in
  Float64.add (Float64.of_Z sec)
    (Float64.div (Float64.of_Z nsec) (Float64.of_Z 1000000000)).

(** [int64(d.Seconds())] *)
Definition whole_seconds (d : Z) : Z := Float64.to_int64 (Seconds d).

End time.

(** ** Package [track] *)

Module track.

Record Info := mkInfo {
  Title : string;
  Artist : string;
  Album : string;
  DurationSecs : Z;
  ArtworkURL : string;
  TrackID : string
}.

(** A [*Info] is [None] when nil. *)
Definition IsValid (t : option Info) : bool :=
  match t with
  | None => false
  | Some t => negb (String.eqb (Title t) "") && negb (String.eqb (Artist t) "")
  end.

Definition IsSameTrack (t other : option Info) : bool :=
  match t, other with
  | None, None => true
  | None, Some _ | Some _, None => false
  | Some t, Some other =>
      if negb (String.eqb (TrackID t) "") && negb (String.eqb (TrackID other) "")
      then String.eqb (TrackID t) (TrackID other)
      else String.eqb (Title t) (Title other) && String.eqb (Artist t) (Artist other)
  end.

End track.

(** ** Package [player] *)

Module player.

Inductive Event :=
| EventTrackChanged
| EventPositionChanged
| EventSeeked
| EventPlaybackStateChanged.

Record EventData := mkEventData {
  Type_ : Event;
  Track : option track.Info;
  Position : Z;
  Playing : bool
}.

Record State := mkState {
  state_Track : option track.Info;
  PositionSecs : Z;
  state_Playing : bool;
  lastPositionUpdate : time.Time;
  lastPositionSecs : Z
}.

(** [DetectSeek], when [time.Now()] reads [now]. *)
Definition DetectSeek (s : State) (now : time.Time) (newPosition : Z) : bool :=
  if time.IsZero (lastPositionUpdate s) then false
  else
    let elapsed := time.Since now (lastPositionUpdate s) in
    let expectedPos := Int64.add (lastPositionSecs s) (time.whole_seconds elapsed) in
    let diff := Int64.sub newPosition expectedPos in
    let diff := if diff <? 0 then Int64.neg diff else diff in
    diff >? 3.

Definition UpdatePosition (s : State) (now : time.Time) (pos : Z) : State :=
  mkState (state_Track s) pos (state_Playing s) now pos.

(** The part of a [Service] the observer's logic works on: the name of the
    player, the state, and the events waiting in [eventChan] (oldest
    first), a channel of capacity 16. *)
Record Service := mkService {
  service : string;
  state : State;
  eventChan : list EventData
}.

(** [&State{}] *)
Definition zeroState : State := mkState None 0 false time.zero 0.

(** [NewService]; [bus_is_nil] says whether the connection is nil. *)
Definition NewService (bus_is_nil : bool) (mprisService : string) : result Service :=
  if bus_is_nil then Err (ErrNew "nil dbus connection")
  else if String.eqb mprisService "" then Err (ErrNew "empty mpris service name")
  else Ok (mkService mprisService zeroState []).

(** [emitEvent]: a send that does not block; the event is dropped when the
    channel is full. *)
Definition emitEvent (s : Service) (event : EventData) : Service :=
  if (length (eventChan s) <? 16)%nat
  then mkService (service s) (state s) (eventChan s ++ [event])
  else s.

(** Microseconds of the control surface to seconds, as [GetCurrentPosition]
    does once it has an [int64]. *)
Definition position_of_microseconds (positionMicroseconds : Z) : Z :=
  if positionMicroseconds <? 0 then 0
  else Z.quot positionMicroseconds 1000000.

(** [Poll], given what [GetCurrentTrack] and [GetCurrentPosition] return and
    the readings of the clock in [DetectSeek] and in [UpdatePosition]. *)
Definition Poll (s : Service) (trk : result track.Info) (pos : result Z)
    (now1 now2 : time.Time) : option error * Service :=
  match trk with
  | Err err => (Some err, s)
  | Ok trk =>
      match pos with
      | Err err => (Some err, s)
      | Ok pos =>
          let currentTrack := state_Track (state s) in
          let seekDetected := DetectSeek (state s) now1 pos in
          let st := UpdatePosition (state s) now2 pos in
          if negb (track.IsSameTrack (Some trk) currentTrack) then
            let st := mkState (Some trk) (PositionSecs st) (state_Playing st)
                        (lastPositionUpdate st) (lastPositionSecs st) in
            (None, emitEvent (mkService (service s) st (eventChan s))
                     (mkEventData EventTrackChanged (Some trk) pos false))
          else
            let s' := mkService (service s) st (eventChan s) in
            if seekDetected
            then (None, emitEvent s' (mkEventData EventSeeked None pos false))
            else (None, s')
      end
  end.

(** [handleSeeked], for a signal whose first body element is the [int64]
    [positionMicroseconds]. *)
Definition handleSeeked (s : Service) (positionMicroseconds : Z) (now : time.Time)
  : Service :=
  if positionMicroseconds <? 0 then s
  else
    let pos := Z.quot positionMicroseconds 1000000 in
    emitEvent (mkService (service s) (UpdatePosition (state s) now pos) (eventChan s))
      (mkEventData EventSeeked None pos false).

End player.

(** The state of the shift register after [k >= 1] steps from an exact
    mantissa. *)
Definition shifted (M k : Z) : SpecFloat.shr_record :=
  Build_shr_record (M / 2 ^ k) (2 ^ (k - 1) <=? M mod 2 ^ k)
    (negb ((M mod 2 ^ k) mod 2 ^ (k - 1) =? 0)).

(** A position the control surface can report: whole seconds of a
    non-negative [int64] count of microseconds. *)
Definition position_ok (p : Z) : Prop := 0 <= p <= Int64.max_int / 1000000.

(** The deviation of the reading [a] from [p0] plus the elapsed wall time,
    with the elapsed time taken exactly (in nanoseconds), exceeds three
    seconds. *)
Definition deviates_exactly (p0 elapsed_ns a : Z) : Prop :=
  Z.abs (a * time.Second - (p0 * time.Second + elapsed_ns)) > 3 * time.Second.

(** A state with the baseline (10 s, instant [t0]). *)
Definition baseline_state (t0 : time.Time) : player.State :=
  player.mkState None 10 true t0 10.

Definition sample_instant : time.Time := 63800000000 * time.Second.

(** ** Further definitions for the properties of the cache *)

(** The cache a new process builds over the same directory: [NewDiskCache]
    with an empty memory tier, the files as they were left. *)
Definition reopened (c : cache.DiskCache) : cache.DiskCache :=
  cache.mkDiskCache (cache.basePath c) ∅ ∅ (cache.files c).

(** A remote that finds nothing, with a caller who cancels after the first
    request. *)
Definition cancel_env : lyrics.Env :=
  lyrics.mkEnv (fun _ _ => Ok empty_payload) (fun _ => Some Canceled)
    1700000000 1700000000 1700000000 cache.NoFault.

(** ** Further definitions for the properties of timed lines *)

(** How many lines at the head of the sequence are at or before the
    position. *)
Fixpoint leading_le (lines : list lyrics.TimedLine) (position : float64) : nat :=
  match lines with
  | [] => 0
  | line :: rest =>
      if Float64.leb (lyrics.TimeSeconds line) position
      then S (leading_le rest position)
      else 0
  end.

(** ** The control surface, as the observer reads it

    The values a D-Bus variant can hold, as far as the type assertions and
    type switches of the code tell them apart. *)

(** [%q] of a string that needs no escaping. *)
Definition quoted_string (s : string) : string :=
  String (byte_of 34) s ++ String (byte_of 34) EmptyString.

Module mpris.

Definition mprisPlayerIface : string := "org.mpris.MediaPlayer2.Player".

Inductive Variant :=
| VNil
| VString (s : string)
| VStrings (l : list string)
| VInt64 (n : Z)
| VUint64 (n : Z)
| VOther.

(** The value of a property, or of an entry of the changed properties:
    a metadata map besides the plain values. *)
Inductive PropValue :=
| PNil
| PString (s : string)
| PInt64 (n : Z)
| PMetadata (m : gmap string Variant)
| POther (type_name : string).

Definition extractString (metadata : gmap string Variant) (key : string) : string :=
  match metadata !! key with
  | None => ""
  | Some (VString text) => text
  | Some _ => ""
  end.

Definition extractArtist (metadata : gmap string Variant) (key : string) : string :=
  match metadata !! key with
  | None => ""
  | Some (VStrings typed) =>
      match typed with
      | first :: _ => first
      | [] => ""
      end
  | Some (VString typed) => typed
  | Some _ => ""
  end.

Definition extractDurationSeconds (metadata : gmap string Variant) (key : string) : Z :=
  match metadata !! key with
  | None => 0
  | Some (VInt64 typed) => if typed <=? 0 then 0 else Z.quot typed 1000000
  | Some (VUint64 typed) => if typed =? 0 then 0 else Int64.wrap (typed / 1000000)
  | Some _ => 0
  end.

Definition info_of (metadata : gmap string Variant) : track.Info :=
  track.mkInfo
    (extractString metadata "xesam:title")
    (extractArtist metadata "xesam:artist")
    (extractString metadata "xesam:album")
    (extractDurationSeconds metadata "mpris:length")
    (extractString metadata "mpris:artUrl")
    (extractString metadata "mpris:trackid").

(** [GetCurrentTrack], given what [obj.GetProperty] returns for the
    Metadata property. *)
Definition GetCurrentTrack (prop : result PropValue) : result track.Info :=
  match prop with
  | Err err => Err (ErrWrap "failed to get metadata property: " err)
  | Ok PNil => Err (ErrNew "metadata value is nil")
  | Ok (PMetadata metadata) =>
      let info := info_of metadata in
      if negb (track.IsValid (Some info))
      then Err (ErrNew ("missing title or artist in metadata (title="
                        ++ quoted_string (track.Title info) ++ ", artist="
                        ++ quoted_string (track.Artist info) ++ ")"))
      else Ok info
  | Ok (PString _) => Err (ErrNew "unexpected metadata type string")
  | Ok (PInt64 _) => Err (ErrNew "unexpected metadata type int64")
  | Ok (POther type_name) => Err (ErrNew ("unexpected metadata type " ++ type_name))
  end.

(** [GetCurrentPosition], given what [obj.GetProperty] returns for the
    Position property. *)
Definition GetCurrentPosition (prop : result PropValue) : result Z :=
  match prop with
  | Err err => Err (ErrWrap "failed to get position property: " err)
  | Ok PNil => Err (ErrNew "position value is nil")
  | Ok (PInt64 positionMicroseconds) =>
      if positionMicroseconds <? 0 then Ok 0
      else Ok (Z.quot positionMicroseconds 1000000)
  | Ok (PString _) => Err (ErrNew "unexpected position type string")
  | Ok (PMetadata _) => Err (ErrNew "unexpected position type map[string]dbus.Variant")
  | Ok (POther type_name) => Err (ErrNew ("unexpected position type " ++ type_name))
  end.

(** [Poll] on the answers of the control surface. *)
Definition Poll (s : player.Service) (metadata position : result PropValue)
    (now1 now2 : time.Time) : option error * player.Service :=
  match GetCurrentTrack metadata with
  | Err err => (Some err, s)
  | Ok trk =>
      match GetCurrentPosition position with
      | Err err => (Some err, s)
      | Ok pos => player.Poll s (Ok trk) (Ok pos) now1 now2
      end
  end.

(** The body of a signal. *)
Inductive BodyValue :=
| BString (s : string)
| BInt64 (n : Z)
| BProps (m : gmap string PropValue)
| BOther.

(** [handlePropertiesChanged], with the clock readings of its two updates. *)
Definition handlePropertiesChanged (s : player.Service) (body : list BodyValue)
    (now1 now2 : time.Time) : player.Service :=
  match body with
  | BString interfaceName :: BProps changedProps :: _ =>
      if negb (String.eqb interfaceName mprisPlayerIface) then s
      else
        let after_metadata : option player.Service :=
          match changedProps !! "Metadata" with
          | Some (PMetadata metadata) =>
              let info := info_of metadata in
              if track.IsValid (Some info) then
                let st := player.state s in
                Some (player.emitEvent
                        (player.mkService (player.service s)
                           (player.mkState (Some info) (player.PositionSecs st)
                              (player.state_Playing st) now1 0)
                           (player.eventChan s))
                        (player.mkEventData player.EventTrackChanged (Some info) 0 false))
              else Some s
          | Some _ => None
          | None => Some s
          end in
        match after_metadata with
        | None => s
        | Some s1 =>
            match changedProps !! "PlaybackStatus" with
            | Some (PString status) =>
                let playing := String.eqb status "Playing" in
                let st := player.state s1 in
                player.emitEvent
                  (player.mkService (player.service s1)
                     (player.mkState (player.state_Track st) (player.PositionSecs st)
                        playing now2 (player.lastPositionSecs st))
                     (player.eventChan s1))
                  (player.mkEventData player.EventPlaybackStateChanged None 0 playing)
            | _ => s1
            end
        end
  | _ => s
  end.

(** [handleSeeked] on the body of a signal. *)
Definition handleSeeked (s : player.Service) (body : list BodyValue) (now : time.Time)
  : player.Service :=
  match body with
  | BInt64 positionMicroseconds :: _ => player.handleSeeked s positionMicroseconds now
  | _ => s
  end.

(** [GetState]: a copy, without the baseline of the seek heuristic. *)
Definition GetState (s : player.Service) : player.State :=
  player.mkState (player.state_Track (player.state s))
    (player.PositionSecs (player.state s)) (player.state_Playing (player.state s))
    time.zero 0.

End mpris.

(** The events a step added to the channel: what follows the events that
    were waiting before. *)
Definition added_events (s s' : player.Service) : list player.EventData :=
  drop (length (player.eventChan s)) (player.eventChan s').

(** The metadata holds a length that fits its D-Bus type. *)
Definition length_well_typed (metadata : gmap string mpris.Variant) : Prop :=
  match metadata !! "mpris:length" with
  | Some (mpris.VInt64 n) => Int64.in_range n
  | Some (mpris.VUint64 n) => 0 <= n < 2 ^ 64
  | _ => True
  end.

Definition sample_info : track.Info :=
  track.mkInfo "One More Time" "Daft Punk" "Discovery" 320 "" "/track/1".

Definition sample_metadata : gmap string mpris.Variant :=
  {[ "xesam:title" := mpris.VString "One More Time";
     "xesam:artist" := mpris.VStrings ["Daft Punk"; "Romanthony"];
     "mpris:length" := mpris.VInt64 320500000 ]}.

(** * Properties *)

(** ** Checks of the library models *)

Lemma wrap_in_range x : Int64.in_range x -> Int64.wrap x = x.
Proof.
  unfold Int64.in_range, Int64.wrap, Int64.min_int, Int64.max_int. intros H.
  rewrite Z.mod_small; lia.
Qed.

Example sha256_constants :
  nth 0 SHA256.K 0 = 0x428a2f98 /\ nth 63 SHA256.K 0 = 0xc67178f2
  /\ length SHA256.K = 64%nat /\ SHA256.h0 SHA256.init = 0x6a09e667.
Proof. vm_compute. repeat split; reflexivity. Qed.

Example sha256_abc :
  hex_EncodeToString (SHA256.Sum256 (bytes_of_string "abc")) =
  "ba7816bf8f01cfea414140de5dae2223b00361a396177a9cb410ff61f20015ad".
Proof. vm_compute. reflexivity. Qed.

Example sha256_two_blocks :
  hex_EncodeToString (SHA256.Sum256 (bytes_of_string
    "abcdbcdecdefdefgefghfghighijhijkijkljklmklmnlmnomnopnopq")) =
  "248d6a61d20638b8e5c026930c3e6039a33ce45964ff2167f6ecedd419db06c1".
Proof. vm_compute. reflexivity. Qed.

Example TrimSpace_ex :
  Strings.TrimSpace (String (byte_of 9) "  a b " ++ String (byte_of 0xC2) (String (byte_of 0xA0) ""))
  = "a b".
Proof. vm_compute. reflexivity. Qed.

Example Fields_ex : Strings.Fields "  ab  c d " = ["ab"; "c"; "d"].
Proof. vm_compute. reflexivity. Qed.

Example ReplaceAll_ex : Strings.ReplaceAll "a   b  c" "  " " " = "a  b c".
Proof. vm_compute. reflexivity. Qed.

Example Split_ex : Strings.Split "00:01.50" ":" = ["00"; "01.50"].
Proof. vm_compute. reflexivity. Qed.

Example Index_ex : Strings.Index "[00:01.50]Hello" "]" = 9 /\ Strings.Index "abc" "]" = -1.
Proof. vm_compute. split; reflexivity. Qed.

Example format_int_ex : format_int 100 = "100" /\ format_int 0 = "0" /\ format_int (-7) = "-7".
Proof. vm_compute. repeat split; reflexivity. Qed.

(** ** Cache keys *)

Lemma lower_byte_idem c : lower_byte (lower_byte c) = lower_byte c.
Proof. destruct c as [[] [] [] [] [] [] [] []]; reflexivity. Qed.

Lemma lower_byte_ascii c :
  (byte_val (lower_byte c) <? RuneSelf) = (byte_val c <? RuneSelf).
Proof. destruct c as [[] [] [] [] [] [] [] []]; reflexivity. Qed.

Lemma isASCII_lower s : isASCII (map_bytes lower_byte s) = isASCII s.
Proof.
  induction s as [|c r IH]; simpl; [reflexivity|].
  now rewrite lower_byte_ascii, IH.
Qed.

Lemma map_lower_idem s :
  map_bytes lower_byte (map_bytes lower_byte s) = map_bytes lower_byte s.
Proof.
  induction s as [|c r IH]; simpl; [reflexivity|].
  now rewrite lower_byte_idem, IH.
Qed.

Lemma ToLower_idem `{UnicodeCase} :
  lowering_stable -> forall s, Strings.ToLower (Strings.ToLower s) = Strings.ToLower s.
Proof.
  intros Hst s. unfold Strings.ToLower at 2 3.
  destruct (isASCII s) eqn:Hs.
  - unfold Strings.ToLower. now rewrite isASCII_lower, Hs, map_lower_idem.
  - now apply Hst.
Qed.

Lemma ascii_case_stable : @lowering_stable ascii_case.
Proof. intros s Hs. unfold Strings.ToLower. simpl. now rewrite Hs. Qed.

Lemma be_bytes_byte n x b : In b (SHA256.be_bytes n x) -> 0 <= b <= 255.
Proof.
  unfold SHA256.be_bytes. rewrite in_map_iff. intros (i & <- & _).
  rewrite (Z.land_ones _ 8 ltac:(lia) : Z.land _ 255 = _).
  change (2 ^ 8) with 256.
  pose proof (Z.mod_pos_bound (Z.shiftr x (8 * Z.of_nat i)) 256). lia.
Qed.

Lemma Sum256_bytes msg b : In b (SHA256.Sum256 msg) -> 0 <= b <= 255.
Proof.
  unfold SHA256.Sum256, SHA256.digest_bytes. rewrite in_flat_map.
  intros (x & _ & Hb). eapply be_bytes_byte, Hb.
Qed.

Lemma Sum256_length msg : length (SHA256.Sum256 msg) = 32%nat.
Proof. reflexivity. Qed.

Lemma hex_digit_hex d : 0 <= d <= 15 -> is_hex_char (hex_digit d) = true.
Proof.
  intros Hd.
  assert (Hc : d = 0 \/ d = 1 \/ d = 2 \/ d = 3 \/ d = 4 \/ d = 5 \/ d = 6 \/ d = 7
            \/ d = 8 \/ d = 9 \/ d = 10 \/ d = 11 \/ d = 12 \/ d = 13 \/ d = 14
            \/ d = 15) by lia.
  repeat (destruct Hc as [-> | Hc]; [reflexivity|]). now subst.
Qed.

Lemma hex_EncodeToString_length bs :
  String.length (hex_EncodeToString bs) = (2 * length bs)%nat.
Proof. induction bs as [|b r IH]; simpl; [reflexivity|]. rewrite IH. lia. Qed.

Lemma hex_EncodeToString_hex bs :
  (forall b, In b bs -> 0 <= b <= 255) ->
  all_bytes is_hex_char (hex_EncodeToString bs) = true.
Proof.
  induction bs as [|b r IH]; intros Hb; simpl; [reflexivity|].
  assert (0 <= b <= 255) as Hr by (apply Hb; now left).
  rewrite !hex_digit_hex, IH; try reflexivity.
  - intros b' Hin. apply Hb. now right.
  - rewrite (Z.land_ones _ 4 ltac:(lia) : Z.land _ 15 = _).
    change (2 ^ 4) with 16. pose proof (Z.mod_pos_bound b 16). lia.
  - rewrite Z.shiftr_div_pow2 by lia. split.
    + apply Z.div_pos; lia.
    + change (2 ^ 4) with 16. apply Z.lt_succ_r. apply Z.div_lt_upper_bound; lia.
Qed.

(** C8. The cache key depends on artist and title through their lower-cased
    forms only: the key of a pair equals the key of the lower-cased pair, two
    pairs with the same lower-cased forms have the same key, and the key is
    the hex form of the first 12 bytes of the SHA-256 digest of
    lower(artist) + "|" + lower(title): 24 characters, all hex digits. *)
Theorem generateKey_case_insensitive `{UnicodeCase} :
  lowering_stable ->
  forall artist title : string,
    cache.generateKey artist title
      = cache.generateKey (Strings.ToLower artist) (Strings.ToLower title)
    /\ (forall artist' title',
          Strings.ToLower artist' = Strings.ToLower artist ->
          Strings.ToLower title' = Strings.ToLower title ->
          cache.generateKey artist' title' = cache.generateKey artist title)
    /\ cache.generateKey artist title
         = hex_EncodeToString (firstn 12 (SHA256.Sum256 (bytes_of_string
             (Strings.ToLower artist ++ "|" ++ Strings.ToLower title))))
    /\ String.length (cache.generateKey artist title) = 24%nat
    /\ all_bytes is_hex_char (cache.generateKey artist title) = true
    /\ cache.generateKey "Abc" "X" = cache.generateKey "abc" "x".
Proof.
  intros Hst artist title. split; [|split; [|split; [|split; [|split]]]].
  - unfold cache.generateKey. now rewrite !(ToLower_idem Hst).
  - intros a' t' Ha Ht. unfold cache.generateKey. now rewrite Ha, Ht.
  - reflexivity.
  - unfold cache.generateKey. rewrite hex_EncodeToString_length.
    rewrite length_firstn, Sum256_length. reflexivity.
  - unfold cache.generateKey. apply hex_EncodeToString_hex.
    intros b Hb. eapply Sum256_bytes.
    rewrite <- (firstn_skipn 12). apply in_or_app. left. exact Hb.
  - vm_compute. reflexivity.
Qed.

Lemma generateKey_case_insensitive_witness :
  cache.generateKey (H := ascii_case) "Abc" "X"
    = cache.generateKey (H := ascii_case)
        (Strings.ToLower (H := ascii_case) "Abc") (Strings.ToLower (H := ascii_case) "X")
  /\ cache.generateKey (H := ascii_case) "Abc" "X" = "336591ab7e90f75ec33592d6".
Proof.
  split.
  - exact (proj1 (generateKey_case_insensitive (H := ascii_case) ascii_case_stable "Abc" "X")).
  - vm_compute. reflexivity.
Defined.

(** ** The cache *)

Lemma eqb_empty_false s : s <> "" -> String.eqb s "" = false.
Proof. intros Hs. now apply String.eqb_neq. Qed.

Lemma stamp_ExpiresAt e now :
  clock_ok now -> cache.ExpiresAt (cache.stamp e now) = now + ttl_seconds.
Proof.
  intros [Hr Hb]. unfold cache.stamp, Int64.add. simpl.
  change (Int64.wrap (cache.defaultTTLDays * 24 * 60 * 60)) with ttl_seconds.
  apply wrap_in_range. unfold Int64.in_range, Int64.min_int, ttl_seconds in *. lia.
Qed.

Lemma stamp_same_payload e now : same_payload (cache.stamp e now) e.
Proof. unfold same_payload. now repeat split. Qed.

Lemma stamp_stamped e now : clock_ok now -> stamped (cache.stamp e now).
Proof.
  intros Hc. split; [|reflexivity].
  now rewrite stamp_ExpiresAt.
Qed.

(** The state [Set] leaves behind agrees with the memory-tier update
    whatever happens to the file. *)
Lemma Set_memory `{UnicodeCase} c artist title p now fault :
  artist <> "" -> title <> "" ->
  let c' := snd (cache.Set_ c artist title (Some p) now fault) in
  cache.memCache c' = <[cache.generateKey artist title := p]> (cache.memCache c)
  /\ cache.heap c' = <[p := cache.stamp (cache.deref c p) now]> (cache.heap c)
  /\ cache.basePath c' = cache.basePath c.
Proof.
  intros Ha Ht. unfold cache.Set_.
  rewrite (eqb_empty_false _ Ha), (eqb_empty_false _ Ht). simpl.
  destruct (String.eqb (cache.basePath c) ""); [now simpl|].
  unfold cache.writeToDisk. destruct fault; now simpl.
Qed.

(** C1. Round trip: after [Set(artist, title, e)], a [Get(artist, title)]
    made before the TTL has run out succeeds, whatever happened to the file
    write, and returns the entry [Set] was given: its eight payload fields
    are those of [e], and Version, CreatedAt and ExpiresAt are the stamps of
    [Set]. *)
Theorem Set_Get_roundtrip `{UnicodeCase} c artist title p now fault now1 now2 :
  artist <> "" -> title <> "" -> clock_ok now -> now1 < now + ttl_seconds ->
  let e := cache.deref c p in
  let c1 := snd (cache.Set_ c artist title (Some p) now fault) in
  let r := cache.Get c1 artist title now1 now2 in
  fst r = Ok p
  /\ same_payload (cache.deref (snd r) p) e
  /\ cache.Version (cache.deref (snd r) p) = cache.cacheVersion
  /\ cache.CreatedAt (cache.deref (snd r) p) = now
  /\ cache.ExpiresAt (cache.deref (snd r) p) = now + ttl_seconds.
Proof.
  intros Ha Ht Hc Hnow e c1 r.
  destruct (Set_memory c artist title p now fault Ha Ht) as (Hm & Hh & _).
  fold c1 in Hm, Hh.
  assert (Hd : cache.deref c1 p = cache.stamp e now).
  { unfold cache.deref. rewrite Hh. apply lookup_total_insert_eq. }
  assert (Hr : r = (Ok p, c1)).
  { unfold r, cache.Get.
    rewrite (eqb_empty_false _ Ha), (eqb_empty_false _ Ht). simpl.
    rewrite Hm, lookup_insert_eq, Hd, stamp_ExpiresAt by assumption.
    destruct (now + ttl_seconds >? now1) eqn:Hgt; [reflexivity|].
    rewrite Z.gtb_ltb, Z.ltb_ge in Hgt. lia. }
  rewrite Hr. simpl. rewrite Hd.
  repeat split; try apply stamp_same_payload.
  now apply stamp_ExpiresAt.
Qed.

Lemma clock_ok_sample : clock_ok 1700000000.
Proof.
  unfold clock_ok, Int64.in_range, Int64.min_int, Int64.max_int, ttl_seconds.
  lia.
Defined.

Lemma Set_Get_roundtrip_witness :
  let c1 := snd (cache.Set_ (H := ascii_case) sample_cache "Abc" "X"
                   (Some 1%positive) 1700000000 cache.NoFault) in
  let r := cache.Get (H := ascii_case) c1 "Abc" "X" 1700000005 1700000005 in
  fst r = Ok 1%positive
  /\ same_payload (cache.deref (snd r) 1%positive) sample_entry
  /\ cache.ExpiresAt (cache.deref (snd r) 1%positive) = 1702592000.
Proof.
  intros c1 r.
  destruct (Set_Get_roundtrip (H := ascii_case) sample_cache "Abc" "X" 1%positive
              1700000000 cache.NoFault 1700000005 1700000005)
    as (H1 & H2 & _ & _ & H5).
  - discriminate.
  - discriminate.
  - exact clock_ok_sample.
  - unfold ttl_seconds. lia.
  - split; [exact H1|]. split; [exact H2|exact H5].
Defined.

Lemma Get_mem_hit `{UnicodeCase} c artist title now1 now2 p :
  artist <> "" -> title <> "" ->
  cache.memCache c !! cache.generateKey artist title = Some p ->
  cache.ExpiresAt (cache.deref c p) > now1 ->
  cache.Get c artist title now1 now2 = (Ok p, c).
Proof.
  intros Ha Ht Hp He. unfold cache.Get.
  rewrite (eqb_empty_false _ Ha), (eqb_empty_false _ Ht). simpl.
  rewrite Hp. destruct (_ >? now1) eqn:Hgt; [reflexivity|].
  rewrite Z.gtb_ltb, Z.ltb_ge in Hgt. lia.
Qed.

(** With nothing usable in the memory tier, [Get] is its disk half run on
    the cache without the key. *)
Lemma Get_mem_stale `{UnicodeCase} c artist title now1 now2 :
  artist <> "" -> title <> "" ->
  let key := cache.generateKey artist title in
  mem_stale c key now1 ->
  let c1 := evicted c key in
  cache.Get c artist title now1 now2 =
    if String.eqb (cache.basePath c) "" then (Err cache.ErrCacheMiss, c1)
    else match cache.readFromDisk c1 (cache.getFilePath c key) with
         | (Err err, c2) => (Err err, c2)
         | (Ok entry, c2) =>
             if cache.ExpiresAt (cache.deref c2 entry) <=? now2
             then (Err cache.ErrCacheExpired, cache.os_Remove c2 (cache.getFilePath c key))
             else (Ok entry, cache.set_memCache c2 (<[key := entry]> (cache.memCache c2)))
         end.
Proof.
  intros Ha Ht key Hst c1. unfold cache.Get.
  rewrite (eqb_empty_false _ Ha), (eqb_empty_false _ Ht). simpl.
  fold key. unfold mem_stale in Hst.
  destruct (cache.memCache c !! key) as [p|] eqn:Hp.
  - destruct (_ >? now1) eqn:Hgt.
    + rewrite Z.gtb_ltb, Z.ltb_lt in Hgt. lia.
    + reflexivity.
  - assert (Hc : c1 = c).
    { unfold c1, evicted. rewrite delete_id by assumption. now destruct c. }
    now rewrite Hc.
Qed.

Lemma alloc_deref c e :
  cache.deref (snd (cache.alloc c e)) (fst (cache.alloc c e)) = e.
Proof. unfold cache.alloc, cache.deref. simpl. apply lookup_total_insert_eq. Qed.

Lemma alloc_fresh c e : cache.heap c !! fst (cache.alloc c e) = None.
Proof.
  unfold cache.alloc. simpl. apply not_elem_of_dom. apply is_fresh.
Qed.

(** C4. What [Get] answers, case by case.  It never returns an entry whose
    ExpiresAt is not after the clock reading it was checked against.  An
    empty artist or title is a miss.  An unexpired memory entry is returned
    as it is.  Otherwise the key leaves the memory tier and the file decides:
    no file (or no file tier) is a cache miss; an undecodable file is
    cache-corrupt; a file with another version is cache-corrupt and is
    deleted; an expired file is deleted and reported as cache-expired; a valid
    file is loaded, promoted into the memory tier and returned. *)
Theorem Get_taxonomy `{UnicodeCase} c artist title now1 now2 :
  let key := cache.generateKey artist title in
  let path := cache.getFilePath c key in
  let c1 := evicted c key in
  let r := cache.Get c artist title now1 now2 in
  (forall q, fst r = Ok q ->
     (cache.memCache c !! key = Some q
        /\ cache.ExpiresAt (cache.deref (snd r) q) > now1)
     \/ (mem_stale c key now1
        /\ cache.ExpiresAt (cache.deref (snd r) q) > now2))
  /\ (artist = "" \/ title = "" -> r = (Err cache.ErrCacheMiss, c))
  /\ (artist <> "" -> title <> "" ->
      (forall p, cache.memCache c !! key = Some p ->
                 cache.ExpiresAt (cache.deref c p) > now1 -> r = (Ok p, c))
      /\ (mem_stale c key now1 ->
          cache.memCache c1 !! key = None
          /\ (cache.basePath c = "" -> r = (Err cache.ErrCacheMiss, c1))
          /\ (cache.basePath c <> "" ->
              (cache.files c !! path = None -> r = (Err cache.ErrCacheMiss, c1))
              /\ (forall e, cache.files c !! path = Some (cache.Unreadable e) ->
                    r = (Err e, c1))
              /\ (cache.files c !! path = Some cache.Garbage ->
                    r = (Err cache.ErrCacheCorrupt, c1))
              /\ (forall e, cache.files c !! path = Some (cache.Gob e) ->
                    cache.Version e <> cache.cacheVersion ->
                    r = (Err cache.ErrCacheCorrupt, cache.os_Remove c1 path)
                    /\ cache.files (snd r) !! path = None)
              /\ (forall e, cache.files c !! path = Some (cache.Gob e) ->
                    cache.Version e = cache.cacheVersion ->
                    cache.ExpiresAt e <= now2 ->
                    fst r = Err cache.ErrCacheExpired
                    /\ cache.files (snd r) !! path = None
                    /\ cache.memCache (snd r) !! key = None)
              /\ (forall e, cache.files c !! path = Some (cache.Gob e) ->
                    cache.Version e = cache.cacheVersion ->
                    cache.ExpiresAt e > now2 ->
                    exists q, fst r = Ok q
                      /\ cache.heap c !! q = None
                      /\ cache.deref (snd r) q = e
                      /\ cache.memCache (snd r) !! key = Some q
                      /\ cache.files (snd r) = cache.files c)))).
Proof.
  intros key path c1 r.
  assert (Hdisk : artist <> "" -> title <> "" -> mem_stale c key now1 ->
    cache.basePath c <> "" ->
    forall e, cache.files c !! path = Some (cache.Gob e) ->
    cache.Version e = cache.cacheVersion ->
    r = if cache.ExpiresAt e <=? now2
        then (Err cache.ErrCacheExpired,
              cache.os_Remove (snd (cache.alloc c1 e)) path)
        else (Ok (fst (cache.alloc c1 e)),
              cache.set_memCache (snd (cache.alloc c1 e))
                (<[key := fst (cache.alloc c1 e)]> (cache.memCache c1)))).
  { intros Ha Ht Hst Hb e He Hv. unfold r.
    rewrite (Get_mem_stale c artist title now1 now2 Ha Ht Hst).
    rewrite (eqb_empty_false _ Hb). fold key path c1.
    unfold cache.readFromDisk. change (cache.files c1) with (cache.files c).
    rewrite He, Hv. simpl.
    pose proof (alloc_deref c1 e) as Hd. unfold cache.alloc in Hd. simpl in Hd.
    unfold cache.alloc. simpl. now rewrite Hd. }
  assert (Hcases : artist <> "" -> title <> "" -> mem_stale c key now1 ->
    r = if String.eqb (cache.basePath c) "" then (Err cache.ErrCacheMiss, c1)
        else match cache.readFromDisk c1 path with
         | (Err err, c2) => (Err err, c2)
         | (Ok entry, c2) =>
             if cache.ExpiresAt (cache.deref c2 entry) <=? now2
             then (Err cache.ErrCacheExpired, cache.os_Remove c2 path)
             else (Ok entry, cache.set_memCache c2 (<[key := entry]> (cache.memCache c2)))
         end).
  { intros Ha Ht Hst. apply (Get_mem_stale c artist title now1 now2 Ha Ht Hst). }
  split; [|split; [|intros Ha Ht; split; [|intros Hst; split; [|split; [|intros Hb;
    split; [|split; [|split; [|split; [|split]]]]]]]]].
  - (* never an expired entry *)
    intros q Hq.
    destruct (String.eqb artist "" || String.eqb title "") eqn:Hemp.
    { unfold r, cache.Get in Hq. rewrite Hemp in Hq. discriminate. }
    apply orb_false_elim in Hemp as [Ha Ht].
    apply String.eqb_neq in Ha, Ht.
    destruct (cache.memCache c !! key) as [p|] eqn:Hp.
    + destruct (Z_gt_le_dec (cache.ExpiresAt (cache.deref c p)) now1) as [Hgt|Hle].
      * unfold r in *. rewrite (Get_mem_hit c artist title now1 now2 p Ha Ht Hp Hgt) in *.
        simpl in *. left. inversion Hq; subst. now split.
      * right. assert (Hst : mem_stale c key now1) by (unfold mem_stale; now rewrite Hp).
        split; [exact Hst|]. revert Hq. rewrite (Hcases Ha Ht Hst).
        destruct (String.eqb (cache.basePath c) ""); [discriminate|].
        destruct (cache.readFromDisk c1 path) as [[p'|e'] c2]; [|discriminate].
        destruct (_ <=? now2) eqn:Hle2; [discriminate|].
        simpl. intros [= <-]. apply Z.leb_gt in Hle2.
        unfold cache.deref in *. simpl. lia.
    + right. assert (Hst : mem_stale c key now1) by (unfold mem_stale; now rewrite Hp).
      split; [exact Hst|]. revert Hq. rewrite (Hcases Ha Ht Hst).
      destruct (String.eqb (cache.basePath c) ""); [discriminate|].
      destruct (cache.readFromDisk c1 path) as [[p'|e'] c2]; [|discriminate].
      destruct (_ <=? now2) eqn:Hle2; [discriminate|].
      simpl. intros [= <-]. apply Z.leb_gt in Hle2.
      unfold cache.deref in *. simpl. lia.
  - (* empty input *)
    intros Hemp. unfold r, cache.Get.
    destruct Hemp as [-> | ->]; simpl; [reflexivity|].
    now rewrite orb_true_r.
  - intros p Hp Hgt. apply (Get_mem_hit c artist title now1 now2 p Ha Ht Hp Hgt).
  - unfold c1, evicted. simpl. apply lookup_delete_eq.
  - intros Hb. rewrite (Hcases Ha Ht Hst), Hb. reflexivity.
  - intros Hf. rewrite (Hcases Ha Ht Hst), (eqb_empty_false _ Hb).
    unfold cache.readFromDisk. change (cache.files c1) with (cache.files c).
    now rewrite Hf.
  - intros e Hf. rewrite (Hcases Ha Ht Hst), (eqb_empty_false _ Hb).
    unfold cache.readFromDisk. change (cache.files c1) with (cache.files c).
    now rewrite Hf.
  - intros Hf. rewrite (Hcases Ha Ht Hst), (eqb_empty_false _ Hb).
    unfold cache.readFromDisk. change (cache.files c1) with (cache.files c).
    now rewrite Hf.
  - intros e Hf Hv. rewrite (Hcases Ha Ht Hst), (eqb_empty_false _ Hb).
    unfold cache.readFromDisk. change (cache.files c1) with (cache.files c).
    rewrite Hf. apply Z.eqb_neq in Hv. rewrite Hv. simpl.
    split; [reflexivity|]. apply lookup_delete_eq.
  - intros e Hf Hv Hle. rewrite (Hdisk Ha Ht Hst Hb e Hf Hv).
    apply Z.leb_le in Hle. rewrite Hle. simpl.
    split; [reflexivity|]. split; [apply lookup_delete_eq|].
    apply lookup_delete_eq.
  - intros e Hf Hv Hgt. rewrite (Hdisk Ha Ht Hst Hb e Hf Hv).
    assert (Hle : (cache.ExpiresAt e <=? now2) = false) by (apply Z.leb_gt; lia).
    rewrite Hle. simpl. exists (fresh (dom (cache.heap c))).
    split; [reflexivity|]. split; [apply (alloc_fresh c e)|].
    split; [apply (alloc_deref c e)|]. split; [apply lookup_insert_eq|reflexivity].
Qed.

Lemma Get_taxonomy_witness :
  (exists q, fst (cache.Get (H := ascii_case) disk_sample "Abc" "X" 1000 1000) = Ok q
     /\ cache.deref (snd (cache.Get (H := ascii_case) disk_sample "Abc" "X" 1000 1000)) q
          = disk_entry)
  /\ fst (cache.Get (H := ascii_case) disk_sample "Abc" "X" 3000 3000)
       = Err cache.ErrCacheExpired.
Proof.
  split.
  - destruct (Get_taxonomy (H := ascii_case) disk_sample "Abc" "X" 1000 1000)
      as (_ & _ & H3).
    destruct H3 as (_ & H4); [discriminate|discriminate|].
    destruct H4 as (_ & _ & H5); [exact I|].
    destruct H5 as (_ & _ & _ & _ & _ & H6); [discriminate|].
    destruct (H6 disk_entry) as (q & Hq & _ & Hd & _).
    + vm_compute. reflexivity.
    + reflexivity.
    + vm_compute. reflexivity.
    + exists q. split; assumption.
  - destruct (Get_taxonomy (H := ascii_case) disk_sample "Abc" "X" 3000 3000)
      as (_ & _ & H3).
    destruct H3 as (_ & H4); [discriminate|discriminate|].
    destruct H4 as (_ & _ & H5); [exact I|].
    destruct H5 as (_ & _ & _ & _ & H6 & _); [discriminate|].
    destruct (H6 disk_entry) as (Hq & _).
    + vm_compute. reflexivity.
    + reflexivity.
    + vm_compute. discriminate.
    + exact Hq.
Defined.

(** A way to re-establish [cache_stamped]: every pointer of the memory tier
    and every record of the file tier is either unchanged or stamped. *)
Lemma cache_stamped_step c c' :
  (forall key p, cache.memCache c' !! key = Some p ->
     (cache.memCache c !! key = Some p /\ cache.deref c' p = cache.deref c p)
     \/ stamped (cache.deref c' p)) ->
  (forall path e, cache.files c' !! path = Some (cache.Gob e) ->
     cache.files c !! path = Some (cache.Gob e) \/ stamped e) ->
  cache_stamped c -> cache_stamped c'.
Proof.
  intros Hm Hf [Im If]. split.
  - intros key p Hp. destruct (Hm key p Hp) as [[Hp' ->]|Hs]; eauto.
  - intros path e He Hv. destruct (Hf path e He) as [He'|Hs]; eauto.
Qed.

Lemma deref_insert c p e q :
  cache.deref (cache.set_heap c (<[p := e]> (cache.heap c))) q
  = if decide (p = q) then e else cache.deref c q.
Proof.
  unfold cache.deref. simpl. case_decide as Hpq.
  - subst. apply lookup_total_insert_eq.
  - now apply lookup_total_insert_ne.
Qed.

Lemma Set_preserves `{UnicodeCase} c artist title p now fault :
  artist <> "" -> title <> "" -> clock_ok now ->
  cache_stamped c ->
  cache_stamped (snd (cache.Set_ c artist title (Some p) now fault)).
Proof.
  intros Ha Ht Hc. 
  destruct (Set_memory c artist title p now fault Ha Ht) as (Hm & Hh & _).
  set (c' := snd (cache.Set_ c artist title (Some p) now fault)) in *.
  assert (Hd : forall q, cache.deref c' q =
            if decide (p = q) then cache.stamp (cache.deref c p) now
            else cache.deref c q).
  { intros q. unfold cache.deref at 1. rewrite Hh. case_decide as Hpq.
    - subst. apply lookup_total_insert_eq.
    - now apply lookup_total_insert_ne. }
  assert (Hsp : stamped (cache.deref c' p)).
  { rewrite Hd. case_decide; [|congruence]. now apply stamp_stamped. }
  apply cache_stamped_step.
  - intros key q Hq. rewrite Hm in Hq.
    destruct (decide (p = q)) as [<-|Hpq]; [now right|].
    left. rewrite Hd. case_decide; [congruence|]. split; [|reflexivity].
    rewrite lookup_insert in Hq. case_decide; [congruence|assumption].
  - intros path e He.
    assert (Hfiles :
      cache.files c !! path = Some (cache.Gob e) \/ e = cache.deref c' p).
    { revert He. unfold c', cache.Set_.
      rewrite (eqb_empty_false _ Ha), (eqb_empty_false _ Ht). simpl.
      destruct (String.eqb (cache.basePath c) ""); [simpl; now left|].
      fold (cache.deref c p).
      unfold cache.writeToDisk, cache.deref. simpl.
      destruct fault; simpl; intros He;
        repeat match type of He with
        | context [<[?k := _]> _ !! ?k'] =>
            rewrite lookup_insert in He; case_decide; simplify_eq
        | context [delete ?k _ !! ?k'] =>
            rewrite lookup_delete in He; case_decide; simplify_eq
        end; auto; right; symmetry; apply lookup_total_insert_eq. }
    destruct Hfiles as [Hold| ->]; [now left|now right].
Qed.

Lemma alloc_deref_other c e q :
  cache.deref (snd (cache.alloc c e)) q
  = if decide (fst (cache.alloc c e) = q) then e else cache.deref c q.
Proof. unfold cache.alloc. simpl. apply deref_insert. Qed.

Lemma Get_preserves `{UnicodeCase} c artist title now1 now2 :
  cache_stamped c ->
  cache_stamped (snd (cache.Get c artist title now1 now2))
  /\ forall q, fst (cache.Get c artist title now1 now2) = Ok q ->
       stamped (cache.deref (snd (cache.Get c artist title now1 now2)) q).
Proof.
  intros Hinv. pose proof Hinv as [Im If].
  unfold cache.Get.
  destruct (String.eqb artist "" || String.eqb title ""); [split; [assumption|discriminate]|].
  set (key := cache.generateKey artist title).
  assert (Hev : cache_stamped (evicted c key)).
  { revert Hinv. apply cache_stamped_step; [|intros; now left].
    intros k p Hp. left. unfold evicted in Hp. simpl in Hp.
    apply lookup_delete_Some in Hp as [_ Hp]. now split. }
  assert (Hdisk : forall c1, cache_stamped c1 ->
    let r := (if String.eqb (cache.basePath c1) "" then (Err cache.ErrCacheMiss, c1)
      else match cache.readFromDisk c1 (cache.getFilePath c1 key) with
           | (Err err, c2) => (Err err, c2)
           | (Ok entry, c2) =>
               if cache.ExpiresAt (cache.deref c2 entry) <=? now2
               then (Err cache.ErrCacheExpired,
                     cache.os_Remove c2 (cache.getFilePath c1 key))
               else (Ok entry, cache.set_memCache c2 (<[key := entry]> (cache.memCache c2)))
           end) in
    cache_stamped (snd r) /\ forall q, fst r = Ok q -> stamped (cache.deref (snd r) q)).
  { intros c1 [Jm Jf].
    destruct (String.eqb (cache.basePath c1) ""); [split; [now split|discriminate]|].
    unfold cache.readFromDisk.
    destruct (cache.files c1 !! cache.getFilePath c1 key) as [[e| |e]|] eqn:Hf;
      try (split; [now split|discriminate]).
    destruct (cache.Version e =? cache.cacheVersion) eqn:Hv; simpl.
    2:{ split; [|discriminate]. split; [exact Jm|].
        intros path e' He'. simpl in He'.
        apply lookup_delete_Some in He' as [_ He']. eauto. }
    apply Z.eqb_eq in Hv. pose proof (Jf _ _ Hf Hv) as Hse.
    set (q := fresh (dom (cache.heap c1))).
    assert (Hdq : forall p, cache.deref
              (cache.set_heap c1 (<[q := e]> (cache.heap c1))) p
              = if decide (q = p) then e else cache.deref c1 p)
      by (intros p; apply deref_insert).
    destruct (_ <=? now2); simpl.
    - split; [|discriminate]. split.
      + intros k p Hp. simpl in Hp. unfold cache.deref in *. simpl.
        specialize (Hdq p). unfold cache.deref in Hdq. simpl in Hdq. rewrite Hdq.
        case_decide; eauto.
      + intros path e' He'. simpl in He'.
        apply lookup_delete_Some in He' as [_ He']. eauto.
    - split.
      + split.
        * intros k p Hp. simpl in Hp. unfold cache.deref in *. simpl.
          specialize (Hdq p). unfold cache.deref in Hdq. simpl in Hdq. rewrite Hdq.
          case_decide; [assumption|].
          rewrite lookup_insert in Hp. case_decide; [congruence|eauto].
        * intros path e' He'. simpl in He'. eauto.
      + intros p [= <-]. unfold cache.deref. simpl.
        now rewrite lookup_total_insert_eq. }
  destruct (cache.memCache c !! key) as [p|] eqn:Hp.
  - destruct (_ >? now1).
    + simpl. split; [assumption|]. intros q [= <-]. eauto.
    + apply (Hdisk _ Hev).
  - apply (Hdisk _ Hinv).
Qed.

Lemma Delete_preserves `{UnicodeCase} c artist title remove_err :
  cache_stamped c -> cache_stamped (snd (cache.Delete c artist title remove_err)).
Proof.
  intros Hinv. unfold cache.Delete.
  destruct (String.eqb artist "" || String.eqb title ""); [assumption|].
  simpl. revert Hinv. apply cache_stamped_step.
  - intros k p Hp. left.
    destruct (String.eqb (cache.basePath c) ""), remove_err; simpl in Hp;
      apply lookup_delete_Some in Hp as [_ Hp]; now split.
  - intros path e He. left.
    destruct (String.eqb (cache.basePath c) ""), remove_err; simpl in He;
      try assumption.
    now apply lookup_delete_Some in He as [_ He].
Qed.

(** C5. Whatever the caller put in the entry, [Set] leaves under the key an
    entry with Version = the current version, CreatedAt = now and
    ExpiresAt = CreatedAt + 2,592,000 (30 days), and a successful write puts
    that very record into the file.  The stamping is an invariant of the
    cache: it holds of the empty caches, [Set], [Get] and [Delete] keep it,
    and every entry [Get] returns has it. *)
Theorem Set_stamps `{UnicodeCase} c artist title p now fault :
  artist <> "" -> title <> "" -> clock_ok now ->
  let key := cache.generateKey artist title in
  let r := cache.Set_ c artist title (Some p) now fault in
  (cache.memCache (snd r) !! key = Some p
   /\ cache.Version (cache.deref (snd r) p) = cache.cacheVersion
   /\ cache.CreatedAt (cache.deref (snd r) p) = now
   /\ cache.ExpiresAt (cache.deref (snd r) p)
        = cache.CreatedAt (cache.deref (snd r) p) + 30 * 24 * 60 * 60
   /\ (cache.basePath c <> "" -> fst r = None ->
         cache.files (snd r) !! cache.getFilePath c key
           = Some (cache.Gob (cache.deref (snd r) p))))
  /\ (cache_stamped c -> cache_stamped (snd r))
  /\ (forall c0 a t now1 now2, cache_stamped c0 ->
        cache_stamped (snd (cache.Get c0 a t now1 now2))
        /\ forall q, fst (cache.Get c0 a t now1 now2) = Ok q ->
             stamped (cache.deref (snd (cache.Get c0 a t now1 now2)) q))
  /\ (forall c0 a t remove_err,
        cache_stamped c0 -> cache_stamped (snd (cache.Delete c0 a t remove_err)))
  /\ cache_stamped cache.memoryOnly
  /\ (forall dir, cache_stamped (cache.newDiskCache dir)).
Proof.
  intros Ha Ht Hc key r.
  destruct (Set_memory c artist title p now fault Ha Ht) as (Hm & Hh & Hb).
  fold r in Hm, Hh, Hb.
  assert (Hd : cache.deref (snd r) p = cache.stamp (cache.deref c p) now).
  { unfold cache.deref at 1. rewrite Hh. apply lookup_total_insert_eq. }
  split; [|split; [|split; [|split; [|split]]]].
  - rewrite Hd, Hm. split; [apply lookup_insert_eq|].
    split; [reflexivity|]. split; [reflexivity|].
    split; [now rewrite stamp_ExpiresAt|].
    intros Hbase Hok. rewrite <- Hd. revert Hok. unfold r, cache.Set_.
    rewrite (eqb_empty_false _ Ha), (eqb_empty_false _ Ht). simpl.
    rewrite (eqb_empty_false _ Hbase).
    unfold cache.writeToDisk, cache.getFilePath. simpl.
    rewrite (eqb_empty_false _ Hbase).
    destruct fault; simpl; try discriminate.
    intros _. apply lookup_insert_eq.
  - now apply Set_preserves.
  - intros c0 a t now1 now2. apply Get_preserves.
  - intros c0 a t. apply Delete_preserves.
  - split; intros ? ? Hl; simpl in Hl; now rewrite lookup_empty in Hl.
  - intros dir. split; intros ? ? Hl; simpl in Hl; now rewrite lookup_empty in Hl.
Qed.

Lemma Set_stamps_witness :
  let r := cache.Set_ (H := ascii_case) sample_cache "Abc" "X" (Some 1%positive)
             1700000000 cache.NoFault in
  cache.ExpiresAt (cache.deref (snd r) 1%positive)
    = cache.CreatedAt (cache.deref (snd r) 1%positive) + 30 * 24 * 60 * 60
  /\ cache.Version (cache.deref (snd r) 1%positive) = 1.
Proof.
  intros r.
  destruct (Set_stamps (H := ascii_case) sample_cache "Abc" "X" 1%positive
              1700000000 cache.NoFault) as ((_ & Hv & _ & He & _) & _).
  - discriminate.
  - discriminate.
  - exact clock_ok_sample.
  - split; [exact He|exact Hv].
Defined.

(** ** The resolver *)

#[local] Arguments cache.Set_ : simpl never.
#[local] Arguments cache.alloc : simpl never.
#[local] Arguments cache.Get : simpl never.

Section ResolverFacts.
Context `{UnicodeCase} `{NetURL}.
Variable env : lyrics.Env.
Variable track : lyrics.TrackParams.

(** What the requests of the loop say about its result: a request that
    times out, or whose response is accepted, is the last one. *)
Lemma fetch_loop_trace strategies :
  forall idx u lastErr c i v,
    let o := lyrics.fetch_loop env track idx strategies u lastErr c in
    lyrics.requests o !! i = Some v ->
    (forall e, lyrics.remote env (idx + i) v = Err e ->
       lyrics.isTimeoutError e = true ->
       lyrics.answer o = Err too_slow
       /\ length (lyrics.requests o) = S i
       /\ lyrics.cache_after o = c)
    /\ (forall payload, lyrics.remote env (idx + i) v = Ok payload ->
       lyrics.no_lyrics payload = false ->
       lyrics.answer o = Ok payload
       /\ length (lyrics.requests o) = S i
       /\ lyrics.cache_after o = persisted env track c payload).
Proof.
  induction strategies as [|s rest IH]; intros idx u lastErr c i v o Hi.
  - unfold o, lyrics.requests in Hi. simpl in Hi.
    destruct lastErr; simpl in Hi; discriminate.
  - unfold o in *. clear o. cbn [lyrics.fetch_loop] in *.
    set (u' := lyrics.next_url u s) in *.
    unfold lyrics.issued, lyrics.answer, lyrics.requests, lyrics.cache_after in *.
    destruct (if (0 <? idx)%nat then lyrics.ctx_Err env idx else None);
      [simpl in Hi; discriminate|].
    destruct (lyrics.remote env idx u') as [payload|err] eqn:Hrem.
    + destruct (lyrics.no_lyrics payload) eqn:Hno.
      * destruct i as [|j]; simpl in Hi.
        -- injection Hi as <-. rewrite Nat.add_0_r, Hrem.
           split; [discriminate|]. intros ? [= <-]. congruence.
        -- specialize (IH (S idx) u' (Some (ErrNew "no lyrics in response")) c j v Hi).
           replace (idx + S j)%nat with (S idx + j)%nat by lia.
           destruct IH as [IH1 IH2]. split.
           ++ intros e He Ht. destruct (IH1 e He Ht) as (? & ? & ?).
              unfold lyrics.issued, lyrics.answer, lyrics.requests, lyrics.cache_after in *.
              simpl. auto.
           ++ intros p Hp Hn. destruct (IH2 p Hp Hn) as (? & ? & ?).
              unfold lyrics.issued, lyrics.answer, lyrics.requests, lyrics.cache_after in *.
              simpl. auto.
      * unfold persisted.
        destruct (cache.alloc c (lyrics.entry_of payload)) as [p c1] eqn:Hal.
        simpl.
        destruct (cache.Set_ c1 (lyrics.Artist track) (lyrics.Title track) (Some p)
                    (lyrics.now_set env) (lyrics.fault env)) as [w c2] eqn:Hset.
        destruct i as [|j]; simpl in Hi; [|discriminate].
        injection Hi as <-. rewrite Nat.add_0_r, Hrem.
        split; [discriminate|]. intros ? [= <-] _. simpl.
        split; [reflexivity|]. split; [reflexivity|].
        unfold cache.alloc in Hal. injection Hal as <- <-. now rewrite Hset.
    + destruct (lyrics.isTimeoutError err) eqn:Hto.
      * destruct i as [|j]; simpl in Hi; [|discriminate].
        injection Hi as <-. rewrite Nat.add_0_r, Hrem.
        split; [|discriminate]. intros ? [= <-] _. auto.
      * destruct i as [|j]; simpl in Hi.
        -- injection Hi as <-. rewrite Nat.add_0_r, Hrem.
           split; [|discriminate]. intros ? [= <-]. congruence.
        -- specialize (IH (S idx) u' (Some err) c j v Hi).
           replace (idx + S j)%nat with (S idx + j)%nat by lia.
           destruct IH as [IH1 IH2]. split.
           ++ intros e He Ht. destruct (IH1 e He Ht) as (? & ? & ?).
              unfold lyrics.issued, lyrics.answer, lyrics.requests, lyrics.cache_after in *.
              simpl. auto.
           ++ intros p Hp Hn. destruct (IH2 p Hp Hn) as (? & ? & ?).
              unfold lyrics.issued, lyrics.answer, lyrics.requests, lyrics.cache_after in *.
              simpl. auto.
Qed.

(** A remote that only fails, never by a timeout, is asked once per
    strategy, and the last failure is what the final error wraps. *)
Lemma fetch_loop_exhausts strategies :
  (forall i v, exists e, lyrics.remote env i v = Err e /\ lyrics.isTimeoutError e = false) ->
  (forall i, lyrics.ctx_Err env i = None) ->
  forall idx u lastErr c,
    let o := lyrics.fetch_loop env track idx strategies u lastErr c in
    length (lyrics.requests o) = length strategies
    /\ lyrics.cache_after o = c
    /\ (strategies <> [] \/ lastErr <> None ->
        exists e, lyrics.answer o =
          Err (ErrWrap ("no lyrics found for " ++ lyrics.Artist track ++ " - "
                        ++ lyrics.Title track ++ ": ") e)
          /\ match last (lyrics.requests o) with
             | Some v => lyrics.remote env (idx + length strategies - 1) v = Err e
             | None => lastErr = Some e
             end).
Proof.
  intros Hrem Hctx.
  induction strategies as [|s rest IH]; intros idx u lastErr c o.
  - unfold o. simpl. destruct lastErr as [e|]; simpl.
    + repeat split. intros _. now exists e.
    + repeat split. intros [Hc|Hc]; congruence.
  - unfold o. clear o. simpl.
    set (u' := lyrics.next_url u s).
    replace (if (0 <? idx)%nat then lyrics.ctx_Err env idx else None)
      with (@None error) by (destruct (0 <? idx)%nat; now rewrite ?Hctx).
    destruct (Hrem idx u') as (e & He & Hto). rewrite He, Hto.
    destruct (IH (S idx) u' (Some e) c) as (Hlen & Hc & Hans).
    unfold lyrics.issued, lyrics.answer, lyrics.requests, lyrics.cache_after in *.
    simpl. split; [now rewrite Hlen|]. split; [assumption|].
    intros _. destruct Hans as (e' & Hans & Hlast); [right; discriminate|].
    exists e'. split; [assumption|].
    rewrite last_cons.
    destruct (last _) as [v|] eqn:Hl.
    + replace (idx + S (length rest) - 1)%nat with (S idx + length rest - 1)%nat by lia.
      exact Hlast.
    + injection Hlast as <-.
      apply last_None in Hl. rewrite Hl in Hlen. simpl in Hlen.
      rewrite <- Hlen. replace (idx + 1 - 1)%nat with idx by lia. exact He.
Qed.

(** An input that passes the checks and misses the cache runs the loop. *)
Lemma Fetch_runs_loop c baseURL :
  resolvable baseURL track ->
  forall e c1 parsedURL,
    cache.Get c (lyrics.Artist track) (lyrics.Title track)
      (lyrics.now_get_memory env) (lyrics.now_get_file env) = (Err e, c1) ->
    url_Parse baseURL = Ok parsedURL ->
    lyrics.Fetch env c baseURL (Some track)
    = lyrics.fetch_loop env track 0 (lyrics.uniqueStrategies track) parsedURL None c1.
Proof.
  intros (Ht & Ha & Hb & Hnt & Hna) e c1 parsedURL Hget Hurl.
  unfold lyrics.Fetch.
  rewrite (eqb_empty_false _ Ht), (eqb_empty_false _ Ha), (eqb_empty_false _ Hb).
  rewrite (eqb_empty_false _ Hnt), (eqb_empty_false _ Hna). simpl.
  now rewrite Hget, Hurl.
Qed.

(** Outside the loop [Fetch] issues no request. *)
Lemma Fetch_cases c baseURL otrack :
  let o := lyrics.Fetch env c baseURL otrack in
  lyrics.requests o = []
  \/ exists tr parsedURL c1,
       otrack = Some tr /\
       o = lyrics.fetch_loop env tr 0 (lyrics.uniqueStrategies tr) parsedURL None c1.
Proof.
  unfold lyrics.Fetch. destruct otrack as [tr|]; [|now left].
  destruct (_ || _); [now left|]. destruct (String.eqb baseURL ""); [now left|].
  destruct (_ || _); [now left|].
  destruct (cache.Get _ _ _ _ _) as [[q|e] c1]; [now left|].
  destruct (url_Parse baseURL) as [u|e']; [|now left].
  right. now exists tr, u, c1.
Qed.

(** A strategy with artist and title is kept when nothing was seen yet. *)
Lemma deduplicate_head s rest :
  lyrics.artist s <> "" -> lyrics.title s <> "" ->
  lyrics.deduplicate ∅ (s :: rest)
  = s :: lyrics.deduplicate ({[lyrics.strategy_key s]} ∪ ∅) rest.
Proof.
  intros Ha Ht. cbn [lyrics.deduplicate].
  rewrite (eqb_empty_false _ Ha), (eqb_empty_false _ Ht). cbn [orb].
  destruct (decide (lyrics.strategy_key s ∈ (∅ : gset string))) as [Hin|_];
    [set_solver|reflexivity].
Qed.

(** The first strategy survives the deduplication. *)
Lemma uniqueStrategies_first :
  lyrics.normalizeString (lyrics.Title track) <> "" ->
  lyrics.normalizeString (lyrics.Artist track) <> "" ->
  exists rest,
    lyrics.uniqueStrategies track =
      lyrics.mkStrategy (lyrics.normalizeString (lyrics.Artist track))
        (lyrics.normalizeString (lyrics.Title track))
        (lyrics.Album track) (lyrics.DurationSecs track) :: rest.
Proof.
  intros Ht Ha. unfold lyrics.uniqueStrategies, lyrics.searchStrategies.
  rewrite deduplicate_head by assumption. eauto.
Qed.

End ResolverFacts.

(** The fourth phrase [isTimeoutError] looks for contains the first. *)
Lemma substring_tail m s :
  String.substring m 11 s = "i/o timeout" -> String.substring (m + 4) 7 s = "timeout".
Proof.
  revert s. induction m as [|m IH]; intros s Hs.
  - do 11 (destruct s as [|? s]; [discriminate Hs|]).
    simpl in Hs. injection Hs as -> -> -> -> -> -> -> -> -> -> -> _.
    simpl. now destruct s.
  - destruct s as [|c s]; [discriminate Hs|]. simpl in Hs |- *. now apply IH.
Qed.

Lemma Contains_io_timeout s :
  Strings.Contains s "i/o timeout" = true -> Strings.Contains s "timeout" = true.
Proof.
  unfold Strings.Contains, Strings.Index.
  destruct (String.index 0 "i/o timeout" s) as [m|] eqn:Hm; [intros _|discriminate].
  apply String.index_correct1 in Hm. apply substring_tail in Hm.
  destruct (String.index 0 "timeout" s) as [n|] eqn:Hn; [apply Z.leb_le; lia|].
  exfalso.
  refine (String.index_correct3 0 (m + 4) "timeout" s Hn _ (Nat.le_0_l _) Hm).
  discriminate.
Qed.

Lemma plain_failure_classified e : plain_failure e -> lyrics.isTimeoutError e = false.
Proof.
  intros (Hd & Ht & Hx). unfold lyrics.isTimeoutError. rewrite Hd, Ht, Hx. simpl.
  destruct (Strings.Contains (Error e) "i/o timeout") eqn:Hio; [|reflexivity].
  apply Contains_io_timeout in Hio. congruence.
Qed.

Lemma timeout_classified e :
  Is_DeadlineExceeded e = true
  \/ Strings.Contains (Error e) "timeout" = true
  \/ Strings.Contains (Error e) "deadline exceeded" = true ->
  lyrics.isTimeoutError e = true.
Proof.
  unfold lyrics.isTimeoutError. intros [->| [->| ->]];
    rewrite ?orb_true_r; reflexivity.
Qed.

(** C2. A request whose error is a timeout (it wraps the deadline-exceeded
    error of the context, or its text speaks of a timeout or of an exceeded
    deadline) is the last request of the call, and the call answers with the
    fatal "took too long" error; a remote that always exceeds the deadline
    is asked exactly once.  A failure whose error shows none of this is kept
    as the last error and the loop goes on with the next candidate; when the
    candidates run out, the last error is what the final error wraps.  A
    404 response is such a failure.  The classification is by the text of
    the error, and the error of a response with another status quotes the
    response body: a 500 response whose body reads "upstream request
    timeout" arrived in time and is no timeout, yet the call gives up after
    that one request with four candidates untried, where the same response
    with the body "internal error" lets the loop ask for all five. *)
Theorem Fetch_timeout_short_circuit :
  (forall `{UnicodeCase} `{NetURL} (env : lyrics.Env) (c : cache.DiskCache)
      (baseURL : string) (track : lyrics.TrackParams),
     let o := lyrics.Fetch env c baseURL (Some track) in
     (forall i v e,
        lyrics.requests o !! i = Some v ->
        lyrics.remote env i v = Err e ->
        Is_DeadlineExceeded e = true
        \/ Strings.Contains (Error e) "timeout" = true
        \/ Strings.Contains (Error e) "deadline exceeded" = true ->
        lyrics.answer o = Err too_slow /\ length (lyrics.requests o) = S i)
     /\ (forall e0 c1 parsedURL,
           resolvable baseURL track ->
           cache.Get c (lyrics.Artist track) (lyrics.Title track)
             (lyrics.now_get_memory env) (lyrics.now_get_file env) = (Err e0, c1) ->
           url_Parse baseURL = Ok parsedURL ->
           ((forall i v, exists e,
               lyrics.remote env i v = Err e /\ Is_DeadlineExceeded e = true) ->
            lyrics.answer o = Err too_slow /\ length (lyrics.requests o) = 1%nat)
           /\ ((forall i v, exists e,
                  lyrics.remote env i v = Err e /\ plain_failure e) ->
               (forall i, lyrics.ctx_Err env i = None) ->
               length (lyrics.requests o) = length (lyrics.uniqueStrategies track)
               /\ exists e v,
                    last (lyrics.requests o) = Some v
                    /\ lyrics.remote env (length (lyrics.requests o) - 1) v = Err e
                    /\ lyrics.answer o =
                         Err (ErrWrap ("no lyrics found for " ++ lyrics.Artist track
                                       ++ " - " ++ lyrics.Title track ++ ": ") e)))
     /\ (forall idx s rest u lastErr c0 e,
           (if (0 <? idx)%nat then lyrics.ctx_Err env idx else None) = None ->
           lyrics.remote env idx (lyrics.next_url u s) = Err e ->
           plain_failure e ->
           lyrics.fetch_loop env track idx (s :: rest) u lastErr c0
           = lyrics.issued (lyrics.next_url u s)
               (lyrics.fetch_loop env track (S idx) rest (lyrics.next_url u s)
                  (Some e) c0)))
  /\ (forall `{lyrics.JSON} body read_err,
        lyrics.doFetchRequest (lyrics.Response 404 body read_err)
        = Err (ErrNew "status 404: lyrics not found")
        /\ plain_failure (ErrNew "status 404: lyrics not found"))
  /\ (forall `{lyrics.JSON},
        let fetch := fun body =>
          lyrics.Fetch (H := ascii_case) (H0 := plain_url)
            (served (fun _ _ => lyrics.Response 500 body None))
            cache.memoryOnly sample_base (Some sample_track) in
        let e500 := ErrNew "lrclib returned status 500: upstream request timeout" in
        lyrics.doFetchRequest (lyrics.Response 500 "upstream request timeout" None)
        = Err e500
        /\ Is_DeadlineExceeded e500 = false
        /\ lyrics.answer (fetch "upstream request timeout") = Err too_slow
        /\ length (lyrics.requests (fetch "upstream request timeout")) = 1%nat
        /\ length (lyrics.uniqueStrategies (H := ascii_case) sample_track) = 5%nat
        /\ length (lyrics.requests (fetch "internal error")) = 5%nat).
Proof.
  split; [|split].
  - intros HU HN env c baseURL track o. split; [|split].
    + intros i v e Hi He Hto. apply timeout_classified in Hto.
      destruct (Fetch_cases env c baseURL (Some track))
        as [Hnil|(tr & u & c1 & Htr & Ho)]; fold o in Hnil || fold o in Ho.
      * rewrite Hnil in Hi. discriminate Hi.
      * injection Htr as <-. rewrite Ho in Hi |- *.
        destruct (fetch_loop_trace env track _ 0 u None c1 i v Hi) as [Ht _].
        destruct (Ht e He Hto) as (Ha & Hl & _). now split.
    + intros e0 c1 parsedURL Hres Hget Hurl.
      pose proof (Fetch_runs_loop env track c baseURL Hres e0 c1 parsedURL Hget Hurl)
        as Ho.
      fold o in Ho. destruct Hres as (_ & _ & _ & Hnt & Hna).
      destruct (uniqueStrategies_first track Hnt Hna) as (rest & Hu).
      split.
      * intros Hall. rewrite Ho, Hu. cbn [lyrics.fetch_loop Nat.ltb Nat.leb].
        destruct (Hall 0%nat (lyrics.next_url parsedURL
          (lyrics.mkStrategy (lyrics.normalizeString (lyrics.Artist track))
             (lyrics.normalizeString (lyrics.Title track))
             (lyrics.Album track) (lyrics.DurationSecs track)))) as (e & He & Hto).
        rewrite He, (timeout_classified e (or_introl Hto)). now split.
      * intros Hall Hctx.
        assert (Hall' : forall i v, exists e,
                  lyrics.remote env i v = Err e /\ lyrics.isTimeoutError e = false).
        { intros i v. destruct (Hall i v) as (e & He & Hp).
          exists e. split; [exact He|now apply plain_failure_classified]. }
        destruct (fetch_loop_exhausts env track (lyrics.uniqueStrategies track)
                    Hall' Hctx 0 parsedURL None c1) as (Hlen & _ & Hans).
        rewrite <- Ho in Hlen, Hans. split; [exact Hlen|].
        destruct Hans as (e & Hans & Hlast); [left; rewrite Hu; discriminate|].
        destruct (last (lyrics.requests o)) as [v|] eqn:Hl.
        -- exists e, v. rewrite Hlen. now repeat split.
        -- apply last_None in Hl. rewrite Hl, Hu in Hlen. discriminate Hlen.
    + intros idx s rest u lastErr c0 e Hctx He Hp.
      cbn [lyrics.fetch_loop].
      now rewrite Hctx, He, (plain_failure_classified e Hp).
  - intros HJ body read_err. split; [reflexivity|].
    split; [|split]; vm_compute; reflexivity.
  - intros HJ fetch e500.
    split; [reflexivity|]. split; [reflexivity|].
    split; [vm_compute; reflexivity|]. split; [vm_compute; reflexivity|].
    split; vm_compute; reflexivity.
Qed.

Lemma resolvable_sample : resolvable sample_base sample_track.
Proof. vm_compute. repeat split; discriminate. Defined.

Lemma Fetch_timeout_short_circuit_witness :
  let o := lyrics.Fetch (H := ascii_case) (H0 := plain_url) timeout_env
             cache.memoryOnly sample_base (Some sample_track) in
  lyrics.answer o = Err too_slow /\ length (lyrics.requests o) = 1%nat.
Proof.
  intros o.
  destruct Fetch_timeout_short_circuit as (Hg & _).
  destruct (Hg ascii_case plain_url timeout_env cache.memoryOnly sample_base
              sample_track) as (_ & H2 & _).
  destruct (H2 cache.ErrCacheMiss cache.memoryOnly (url.mkURL sample_base ∅))
    as (H3 & _).
  - exact resolvable_sample.
  - vm_compute. reflexivity.
  - reflexivity.
  - apply H3. intros i v. exists deadline_error. split; reflexivity.
Defined.

Lemma Get_basePath `{UnicodeCase} c artist title now1 now2 :
  cache.basePath (snd (cache.Get c artist title now1 now2)) = cache.basePath c.
Proof.
  unfold cache.Get.
  destruct (_ || _); [reflexivity|].
  assert (Hd : forall c1, cache.basePath c1 = cache.basePath c ->
    cache.basePath (snd (
      if String.eqb (cache.basePath c1) "" then (Err cache.ErrCacheMiss, c1)
      else match cache.readFromDisk c1 (cache.getFilePath c1 (cache.generateKey artist title)) with
           | (Err err, c2) => (Err err, c2)
           | (Ok entry, c2) =>
               if cache.ExpiresAt (cache.deref c2 entry) <=? now2
               then (Err cache.ErrCacheExpired,
                     cache.os_Remove c2 (cache.getFilePath c1 (cache.generateKey artist title)))
               else (Ok entry, cache.set_memCache c2
                       (<[cache.generateKey artist title := entry]> (cache.memCache c2)))
           end)) = cache.basePath c).
  { intros c1 Hb. destruct (String.eqb (cache.basePath c1) ""); [assumption|].
    unfold cache.readFromDisk.
    destruct (cache.files c1 !! _) as [[e| |e]|]; try assumption.
    destruct (negb _); [assumption|]. simpl.
    destruct (_ <=? now2); assumption. }
  destruct (cache.memCache c !! _) as [p|].
  - destruct (_ >? now1); [reflexivity|]. now apply Hd.
  - now apply Hd.
Qed.

Lemma Set_writes_file `{UnicodeCase} c artist title p now :
  artist <> "" -> title <> "" -> cache.basePath c <> "" ->
  let c' := snd (cache.Set_ c artist title (Some p) now cache.NoFault) in
  cache.files c' !! cache.getFilePath c (cache.generateKey artist title)
  = Some (cache.Gob (cache.deref c' p)).
Proof.
  intros Ha Ht Hb. unfold cache.Set_.
  rewrite (eqb_empty_false _ Ha), (eqb_empty_false _ Ht). simpl.
  rewrite (eqb_empty_false _ Hb).
  unfold cache.writeToDisk, cache.getFilePath. simpl.
  rewrite (eqb_empty_false _ Hb). apply lookup_insert_eq.
Qed.

(** C6. For a query that passes the checks, [Fetch] looks the original
    artist and title up in the cache first: on a hit it issues no request
    and answers with the cached entry, field by field (track, artist and
    album name, duration, instrumental flag, plain and synced lyrics, sync
    offset).  A response with plain lyrics, synced lyrics or the
    instrumental flag ends the call: it is the answer whatever the fate of
    the file write, no further request is issued, and the cache holds its
    eight fields under the key of the original artist and title (in the
    memory tier always, and in the file when the write succeeds). *)
Theorem Fetch_cache_first `{UnicodeCase} `{NetURL}
    (env : lyrics.Env) (c : cache.DiskCache) (baseURL : string)
    (track : lyrics.TrackParams) :
  resolvable baseURL track ->
  let o := lyrics.Fetch env c baseURL (Some track) in
  let key := cache.generateKey (lyrics.Artist track) (lyrics.Title track) in
  (forall q c1,
     cache.Get c (lyrics.Artist track) (lyrics.Title track)
       (lyrics.now_get_memory env) (lyrics.now_get_file env) = (Ok q, c1) ->
     exists resp,
       o = (Ok resp, [], c1) /\ same_fields (cache.deref c1 q) resp)
  /\ (forall i v payload,
        lyrics.requests o !! i = Some v ->
        lyrics.remote env i v = Ok payload ->
        lyrics.no_lyrics payload = false ->
        lyrics.answer o = Ok payload
        /\ length (lyrics.requests o) = S i
        /\ exists p,
             cache.memCache (lyrics.cache_after o) !! key = Some p
             /\ same_fields (cache.deref (lyrics.cache_after o) p) payload
             /\ cache.Version (cache.deref (lyrics.cache_after o) p) = cache.cacheVersion
             /\ cache.CreatedAt (cache.deref (lyrics.cache_after o) p) = lyrics.now_set env
             /\ (cache.basePath c <> "" -> lyrics.fault env = cache.NoFault ->
                 cache.files (lyrics.cache_after o) !! cache.getFilePath c key
                 = Some (cache.Gob (cache.deref (lyrics.cache_after o) p)))).
Proof.
  intros Hres o key. pose proof Hres as (Ht & Ha & Hb & Hnt & Hna). split.
  - intros q c1 Hget. unfold o, lyrics.Fetch.
    rewrite (eqb_empty_false _ Ht), (eqb_empty_false _ Ha), (eqb_empty_false _ Hb).
    rewrite (eqb_empty_false _ Hnt), (eqb_empty_false _ Hna). simpl.
    rewrite Hget. eexists. split; [reflexivity|].
    unfold same_fields. simpl. now repeat split.
  - intros i v payload Hi Hrem Hno.
    destruct (cache.Get c (lyrics.Artist track) (lyrics.Title track)
                (lyrics.now_get_memory env) (lyrics.now_get_file env))
      as [[q|e0] c1] eqn:Hget.
    { exfalso. revert Hi. unfold o, lyrics.Fetch.
      rewrite (eqb_empty_false _ Ht), (eqb_empty_false _ Ha), (eqb_empty_false _ Hb).
      rewrite (eqb_empty_false _ Hnt), (eqb_empty_false _ Hna). simpl.
      rewrite Hget. discriminate. }
    destruct (url_Parse baseURL) as [u|e1] eqn:Hurl.
    2:{ exfalso. revert Hi. unfold o, lyrics.Fetch.
        rewrite (eqb_empty_false _ Ht), (eqb_empty_false _ Ha), (eqb_empty_false _ Hb).
        rewrite (eqb_empty_false _ Hnt), (eqb_empty_false _ Hna). simpl.
        rewrite Hget, Hurl. discriminate. }
    pose proof (Fetch_runs_loop env track c baseURL Hres e0 c1 u Hget Hurl) as Ho.
    fold o in Ho. rewrite Ho in Hi |- *.
    destruct (fetch_loop_trace env track _ 0 u None c1 i v Hi) as [_ Hacc].
    destruct (Hacc payload Hrem Hno) as (Hans & Hlen & Hc).
    split; [exact Hans|]. split; [exact Hlen|]. rewrite Hc.
    unfold persisted.
    set (pc := cache.alloc c1 (lyrics.entry_of payload)).
    destruct (Set_memory (snd pc) (lyrics.Artist track) (lyrics.Title track) (fst pc)
                (lyrics.now_set env) (lyrics.fault env) Ha Ht) as (Hm' & Hh' & Hbp').
    exists (fst pc).
    assert (Hd : cache.deref (snd (cache.Set_ (snd pc) (lyrics.Artist track)
                   (lyrics.Title track) (Some (fst pc)) (lyrics.now_set env)
                   (lyrics.fault env))) (fst pc)
                 = cache.stamp (lyrics.entry_of payload) (lyrics.now_set env)).
    { unfold cache.deref at 1. rewrite Hh', lookup_total_insert_eq.
      unfold pc. now rewrite alloc_deref. }
    rewrite Hd. split; [rewrite Hm'; apply lookup_insert_eq|].
    split; [unfold same_fields; simpl; now repeat split|].
    split; [reflexivity|]. split; [reflexivity|].
    intros Hbase Hnf. rewrite Hnf, <- Hd.
    assert (Hbc : cache.basePath (snd pc) = cache.basePath c).
    { unfold pc, cache.alloc. simpl.
      replace c1 with (snd (cache.Get c (lyrics.Artist track) (lyrics.Title track)
                (lyrics.now_get_memory env) (lyrics.now_get_file env)))
        by now rewrite Hget.
      apply Get_basePath. }
    pose proof (Set_writes_file (snd pc) (lyrics.Artist track) (lyrics.Title track)
                  (fst pc) (lyrics.now_set env) Ha Ht) as Hw.
    cbv zeta in Hw.
    assert (Hp : cache.getFilePath (snd pc) key = cache.getFilePath c key)
      by (unfold cache.getFilePath; now rewrite Hbc).
    fold key in Hw. rewrite Hp in Hw. rewrite Hnf. apply Hw. now rewrite Hbc.
Qed.

Lemma Fetch_cache_first_witness :
  let o := lyrics.Fetch (H := ascii_case) (H0 := plain_url) found_env
             sample_cache sample_base (Some sample_track) in
  let o' := lyrics.Fetch (H := ascii_case) (H0 := plain_url) timeout_env
              (lyrics.cache_after o) sample_base (Some sample_track) in
  (lyrics.answer o = Ok sample_payload /\ length (lyrics.requests o) = 1%nat)
  /\ exists resp,
       lyrics.answer o' = Ok resp /\ lyrics.requests o' = []
       /\ lyrics.PlainLyrics resp = "la la"
       /\ lyrics.SyncedLyrics resp = "[00:01.50]la la".
Proof.
  intros o o'. split.
  - destruct (Fetch_cache_first (H := ascii_case) (H0 := plain_url) found_env
                sample_cache sample_base sample_track resolvable_sample) as (_ & H2).
    fold o in H2.
    destruct (lyrics.requests o !! 0%nat) as [v|] eqn:Hv;
      [|vm_compute in Hv; discriminate Hv].
    destruct (H2 0%nat v sample_payload Hv eq_refl eq_refl) as (Ha & Hl & _).
    split; assumption.
  - destruct (Fetch_cache_first (H := ascii_case) (H0 := plain_url) timeout_env
                (lyrics.cache_after o) sample_base sample_track resolvable_sample)
      as (H1 & _).
    fold o' in H1.
    destruct (cache.Get (H := ascii_case) (lyrics.cache_after o)
                (lyrics.Artist sample_track) (lyrics.Title sample_track)
                (lyrics.now_get_memory timeout_env) (lyrics.now_get_file timeout_env))
      as [[q|e] c1] eqn:Hget; [|vm_compute in Hget; discriminate Hget].
    destruct (H1 q c1 eq_refl) as (resp & Ho & Hf).
    exists resp. rewrite Ho.
    destruct Hf as (_ & _ & _ & _ & _ & Hp & Hs & _).
    rewrite <- Hp, <- Hs.
    assert (Hq : cache.deref c1 q
                 = cache.stamp (lyrics.entry_of sample_payload) 1700000000).
    { vm_compute in Hget. injection Hget as <- <-. vm_compute. reflexivity. }
    rewrite Hq. repeat split.
Defined.

(** C3, at the query (Daft Punk, One More Time, Discovery, 320 s) with a
    remote that never finds lyrics.  The candidates come in the stated
    order, without duplicates.  The requests do not carry the candidates'
    fields: [parsedURL] is reused from one iteration to the next, so the
    album_name and duration of the first candidate stay in the query of every
    later request, and the first three requests are the same request. *)
Theorem Fetch_requests_keep_stale_parameters :
  let o := lyrics.Fetch (H := ascii_case) (H0 := plain_url) no_match_env
             cache.memoryOnly sample_base (Some sample_track) in
  let candidates := lyrics.uniqueStrategies (H := ascii_case) sample_track in
  map strategy_fields candidates
    = [ ("Daft Punk", "One More Time", "Discovery", 320);
        ("Daft Punk", "One More Time", "", 320);
        ("Daft Punk", "One More Time", "", 0);
        ("DAFT PUNK", "ONE MORE TIME", "", 0);
        ("daft punk", "one more time", "", 0) ]
  /\ map request_parameters (lyrics.requests o)
    = [ [Some ["Daft Punk"]; Some ["One More Time"]; Some ["Discovery"]; Some ["320"]];
        [Some ["Daft Punk"]; Some ["One More Time"]; Some ["Discovery"]; Some ["320"]];
        [Some ["Daft Punk"]; Some ["One More Time"]; Some ["Discovery"]; Some ["320"]];
        [Some ["DAFT PUNK"]; Some ["ONE MORE TIME"]; Some ["Discovery"]; Some ["320"]];
        [Some ["daft punk"]; Some ["one more time"]; Some ["Discovery"]; Some ["320"]] ]
  /\ map (fun s => request_parameters (url.mkURL sample_base (candidate_query ∅ s)))
         candidates
    = [ [Some ["Daft Punk"]; Some ["One More Time"]; Some ["Discovery"]; Some ["320"]];
        [Some ["Daft Punk"]; Some ["One More Time"]; None; Some ["320"]];
        [Some ["Daft Punk"]; Some ["One More Time"]; None; None];
        [Some ["DAFT PUNK"]; Some ["ONE MORE TIME"]; None; None];
        [Some ["daft punk"]; Some ["one more time"]; None; None] ]
  /\ (exists u, lyrics.requests o !! 0%nat = Some u
        /\ lyrics.requests o !! 1%nat = Some u
        /\ lyrics.requests o !! 2%nat = Some u).
Proof.
  intros o candidates. split; [|split; [|split]].
  - vm_compute. reflexivity.
  - vm_compute. reflexivity.
  - vm_compute. reflexivity.
  - destruct (lyrics.requests o !! 0%nat) as [u|] eqn:Hu;
      [|vm_compute in Hu; discriminate].
    exists u. split; [reflexivity|].
    rewrite <- Hu. split; vm_compute; reflexivity.
Qed.

(** ** Timed lines *)

Lemma SFcompare_finite_trans s1 m1 e1 s2 m2 e2 s3 m3 e3 :
  SFleb (S754_finite s1 m1 e1) (S754_finite s2 m2 e2) = true ->
  SFleb (S754_finite s2 m2 e2) (S754_finite s3 m3 e3) = true ->
  SFleb (S754_finite s1 m1 e1) (S754_finite s3 m3 e3) = true.
Proof.
  unfold SFleb, SFcompare.
  destruct s1, s2, s3; try reflexivity; try discriminate;
    destruct (Z.compare_spec e1 e2), (Z.compare_spec e2 e3), (Z.compare_spec e1 e3);
    try reflexivity; try discriminate; try lia; subst;
    change (Pcompare ?a ?b Eq) with (Pos.compare a b);
    destruct (Pos.compare_spec m1 m2), (Pos.compare_spec m2 m3),
      (Pos.compare_spec m1 m3);
    simpl; try reflexivity; try discriminate; try lia.
Qed.

(** [<=] on floats is transitive (a comparison with NaN is false). *)
Lemma leb_trans a b c :
  Float64.leb a b = true -> Float64.leb b c = true -> Float64.leb a c = true.
Proof.
  unfold Float64.leb.
  destruct a as [sa|sa| |sa ma ea], b as [sb|sb| |sb mb eb], c as [sc|sc| |sc mc ec];
    try (intros H1 H2; exact (SFcompare_finite_trans _ _ _ _ _ _ _ _ _ H1 H2));
    unfold SFleb, SFcompare;
    repeat match goal with s : bool |- _ => destruct s end;
    try reflexivity; try discriminate; auto.
Qed.

Lemma chronological_tail a rest : chronological (a :: rest) -> chronological rest.
Proof. destruct rest; simpl; tauto. Qed.

Lemma chronological_head a rest :
  chronological (a :: rest) ->
  forall b, In b rest ->
    Float64.leb (lyrics.TimeSeconds a) (lyrics.TimeSeconds b) = true.
Proof.
  revert a. induction rest as [|x rest IH]; intros a Hc b Hb; [destruct Hb|].
  destruct Hc as [Hax Hc]. destruct Hb as [<-|Hb]; [exact Hax|].
  eapply leb_trans; [exact Hax|]. now apply IH.
Qed.

(** Once a timestamp is past the position, no later line is found. *)
Lemma last_index_le_none lines position i found :
  (forall b, In b lines -> Float64.leb (lyrics.TimeSeconds b) position = false) ->
  last_index_le lines position i found = found.
Proof.
  revert i found. induction lines as [|x rest IH]; intros i found Hall; [reflexivity|].
  simpl. rewrite (Hall x) by now left.
  apply IH. intros b Hb. apply Hall. now right.
Qed.

Lemma find_from_predecessor lines position :
  chronological lines ->
  forall i found,
    lyrics.find_from lines position i found = last_index_le lines position i found.
Proof.
  induction lines as [|x rest IH]; intros Hc i found; [reflexivity|].
  simpl. destruct (Float64.leb (lyrics.TimeSeconds x) position) eqn:Hx.
  - apply IH. eapply chronological_tail, Hc.
  - symmetry. apply last_index_le_none. intros b Hb.
    destruct (Float64.leb (lyrics.TimeSeconds b) position) eqn:Hb'; [|reflexivity].
    rewrite (leb_trans _ _ _ (chronological_head x rest Hc b Hb) Hb') in Hx.
    discriminate.
Qed.

(** What the index found by looking at every line is: either no line is at
    or before the position, or it is the index of a line that is, and no
    later line is. *)
Lemma last_index_le_spec lines position :
  forall i found,
    let r := last_index_le lines position i found in
    (r = found
     /\ forall b, In b lines -> Float64.leb (lyrics.TimeSeconds b) position = false)
    \/ (i <= r < i + Z.of_nat (length lines)
        /\ (exists l, nth_error lines (Z.to_nat (r - i)) = Some l
                      /\ Float64.leb (lyrics.TimeSeconds l) position = true)
        /\ forall j l, r - i < Z.of_nat j ->
             nth_error lines j = Some l ->
             Float64.leb (lyrics.TimeSeconds l) position = false).
Proof.
  induction lines as [|x rest IH]; intros i found r.
  - left. split; [reflexivity|intros b []].
  - unfold r. clear r. cbn [last_index_le length].
    destruct (Float64.leb (lyrics.TimeSeconds x) position) eqn:Hx.
    + right. destruct (IH (i + 1) i) as [(Hr & Hnone)|(Hr & (l & Hl & Hle) & Hafter)].
      * rewrite Hr, Z.sub_diag. split; [lia|]. split; [exists x; now split|].
        intros [|j] l Hj Hl; [lia|]. simpl in Hl.
        apply Hnone. eapply nth_error_In, Hl.
      * set (r := last_index_le rest position (i + 1) i) in *.
        split; [lia|]. split.
        -- exists l. split; [|exact Hle].
           replace (Z.to_nat (r - i)) with (S (Z.to_nat (r - (i + 1)))) by lia.
           exact Hl.
        -- intros [|j] l' Hj Hl'; [lia|]. simpl in Hl'.
           apply (Hafter j l'); [lia|exact Hl'].
    + destruct (IH (i + 1) found) as [(Hr & Hnone)|(Hr & (l & Hl & Hle) & Hafter)].
      * left. split; [exact Hr|]. intros b [<-|Hb]; [exact Hx|now apply Hnone].
      * right. set (r := last_index_le rest position (i + 1) found) in *.
        split; [lia|]. split.
        -- exists l. split; [|exact Hle].
           replace (Z.to_nat (r - i)) with (S (Z.to_nat (r - (i + 1)))) by lia.
           exact Hl.
        -- intros [|j] l' Hj Hl'; [lia|]. simpl in Hl'.
           apply (Hafter j l'); [lia|exact Hl'].
Qed.

(** C9. The example text parses to the two lines (1.5, "Hello") and
    (3.0, "World"), in that order.  On lines in chronological order,
    [FindCurrentLineIndex] is the index of the last line whose timestamp is
    at most the position: either it is -1 and no line is at or before the
    position (so it is -1 when the position precedes every timestamp), or it
    is the index of such a line and every later line is after the position.
    On the example: 2.0 gives 0, 0.5 gives -1, 10.0 gives 1. *)
Theorem FindCurrentLineIndex_predecessor :
  lyrics.ParseSynced lrc_example
    = [lyrics.mkTimedLine f1_5 "Hello"; lyrics.mkTimedLine f3 "World"]
  /\ (forall lines position,
        chronological lines ->
        let r := lyrics.FindCurrentLineIndex lines position in
        r = predecessor_index lines position
        /\ ((r = -1
             /\ forall b, In b lines ->
                  Float64.leb (lyrics.TimeSeconds b) position = false)
            \/ (0 <= r < Z.of_nat (length lines)
                /\ (exists l, nth_error lines (Z.to_nat r) = Some l
                      /\ Float64.leb (lyrics.TimeSeconds l) position = true)
                /\ forall j l, r < Z.of_nat j -> nth_error lines j = Some l ->
                     Float64.leb (lyrics.TimeSeconds l) position = false))
        /\ ((forall b, In b lines ->
               Float64.ltb position (lyrics.TimeSeconds b) = true) -> r = -1))
  /\ lyrics.FindCurrentLineIndex (lyrics.ParseSynced lrc_example) f2 = 0
  /\ lyrics.FindCurrentLineIndex (lyrics.ParseSynced lrc_example) f0_5 = -1
  /\ lyrics.FindCurrentLineIndex (lyrics.ParseSynced lrc_example) f10 = 1.
Proof.
  split; [vm_compute; reflexivity|].
  split; [|repeat split; vm_compute; reflexivity].
  intros lines position Hc r.
  assert (Hr : r = predecessor_index lines position).
  { unfold r, lyrics.FindCurrentLineIndex, predecessor_index.
    destruct lines as [|x rest]; [reflexivity|].
    now apply find_from_predecessor. }
  split; [exact Hr|].
  assert (Hspec := last_index_le_spec lines position 0 (-1)).
  cbv zeta in Hspec. fold (predecessor_index lines position) in Hspec.
  rewrite <- Hr in Hspec. rewrite Z.sub_0_r in Hspec.
  split.
  - destruct Hspec as [Hs|(Hb & Hl & Ha)]; [now left|right].
    split; [lia|]. split; [exact Hl|].
    intros j l Hj. apply Ha. lia.
  - intros Hall. destruct Hspec as [[Hs _]|(Hb & (l & Hl & Hle) & _)]; [exact Hs|].
    exfalso. apply nth_error_In in Hl. specialize (Hall l Hl).
    revert Hall Hle. unfold Float64.ltb, Float64.leb, SFltb, SFleb.
    destruct (SFcompare position (lyrics.TimeSeconds l)) as [[]|] eqn:H1;
      try discriminate.
    intros _.
    assert (H2 : SFcompare (lyrics.TimeSeconds l) position = Some Gt).
    { revert H1. generalize (lyrics.TimeSeconds l) as t. intros t.
      unfold SFcompare.
      destruct position as [s1|s1| |s1 m1 e1], t as [s2|s2| |s2 m2 e2];
        try discriminate;
        repeat match goal with s : bool |- _ => destruct s end;
        try discriminate; try reflexivity;
        destruct (Z.compare_spec e1 e2), (Z.compare_spec e2 e1);
        try discriminate; try reflexivity; try lia; subst;
        change (Pcompare ?a ?b Eq) with (Pos.compare a b);
        destruct (Pos.compare_spec m1 m2), (Pos.compare_spec m2 m1);
        simpl; try discriminate; try reflexivity; try lia. }
    rewrite H2. discriminate.
Qed.

Lemma FindCurrentLineIndex_predecessor_witness :
  chronological (lyrics.ParseSynced lrc_example)
  /\ lyrics.FindCurrentLineIndex (lyrics.ParseSynced lrc_example) f2
     = predecessor_index (lyrics.ParseSynced lrc_example) f2.
Proof.
  assert (Hc : chronological (lyrics.ParseSynced lrc_example)).
  { vm_compute. split; reflexivity. }
  split; [exact Hc|].
  destruct FindCurrentLineIndex_predecessor as (_ & H & _).
  exact (proj1 (H (lyrics.ParseSynced lrc_example) f2 Hc)).
Defined.

(** ** The seek heuristic *)

(** ** Binary64 arithmetic on durations

    [Duration.Seconds] adds the whole seconds to the nanoseconds divided by
    1e9, each operation rounding to nearest.  The lemmas below follow the
    rounding of [SpecFloat] through that computation. *)

Lemma digits2_pos_bounds p :
  2 ^ (Z.pos (digits2_pos p) - 1) <= Z.pos p < 2 ^ Z.pos (digits2_pos p).
Proof.
  induction p as [p IH|p IH|]; cbn [digits2_pos].
  - rewrite Pos2Z.inj_succ.
    replace (Z.succ (Z.pos (digits2_pos p)) - 1)
      with (Z.succ (Z.pos (digits2_pos p) - 1)) by lia.
    rewrite !Z.pow_succ_r by lia.
    revert IH. generalize (2 ^ (Z.pos (digits2_pos p) - 1)) (2 ^ Z.pos (digits2_pos p)).
    lia.
  - rewrite Pos2Z.inj_succ.
    replace (Z.succ (Z.pos (digits2_pos p)) - 1)
      with (Z.succ (Z.pos (digits2_pos p) - 1)) by lia.
    rewrite !Z.pow_succ_r by lia.
    revert IH. generalize (2 ^ (Z.pos (digits2_pos p) - 1)) (2 ^ Z.pos (digits2_pos p)).
    lia.
  - simpl. lia.
Qed.

Lemma digits2_pos_unique p k :
  2 ^ (k - 1) <= Z.pos p < 2 ^ k -> Z.pos (digits2_pos p) = k.
Proof.
  intros [Hlo Hhi]. pose proof (digits2_pos_bounds p) as [Dlo Dhi].
  set (d := Z.pos (digits2_pos p)) in *.
  destruct (Z.lt_trichotomy d k) as [Hlt|[Heq|Hgt]]; [|assumption|].
  - pose proof (Z.pow_le_mono_r 2 d (k - 1) ltac:(lia) ltac:(lia)). lia.
  - assert (0 <= k).
    { destruct (Z.le_gt_cases 0 k) as [?|Hneg]; [assumption|].
      rewrite (Z.pow_neg_r 2 k) in Hhi by assumption. lia. }
    pose proof (Z.pow_le_mono_r 2 k (d - 1) ltac:(lia) ltac:(lia)). lia.
Qed.

Lemma shr_1_nonneg m r s :
  0 <= m -> shr_1 (Build_shr_record m r s) = Build_shr_record (m / 2) (Z.odd m) (r || s).
Proof.
  intros Hm. rewrite <- Z.div2_div.
  destruct m as [|[p|p|]|p]; try reflexivity. lia.
Qed.

Lemma iter_pos_nat {A} (f : A -> A) p :
  forall x, SpecFloat.iter_pos f p x = Nat.iter (Pos.to_nat p) f x.
Proof.
  induction p as [p IH|p IH|]; intros x; cbn [SpecFloat.iter_pos].
  - rewrite !IH, <- Nat.iter_add, <- Nat.iter_succ_r.
    f_equal. lia.
  - rewrite !IH, <- Nat.iter_add. f_equal. lia.
  - reflexivity.
Qed.

Lemma shr_m_iter k :
  forall m r s, 0 <= m ->
    shr_m (Nat.iter k shr_1 (Build_shr_record m r s)) = m / 2 ^ Z.of_nat k.
Proof.
  induction k as [|k IH]; intros m r s Hm.
  - simpl. now rewrite Z.div_1_r.
  - rewrite Nat.iter_succ. specialize (IH m r s Hm).
    destruct (Nat.iter k shr_1 _) as [m' r' s']. cbn [shr_m] in IH. subst m'.
    rewrite shr_1_nonneg by (apply Z.div_pos; [assumption|apply Z.pow_pos_nonneg; lia]).
    cbn [shr_m]. rewrite Z.div_div by (try apply Z.pow_nonzero; lia).
    rewrite Nat2Z.inj_succ, Z.pow_succ_r by lia. f_equal. lia.
Qed.

Lemma iter_shr_exact k M :
  0 <= M ->
  Nat.iter (S k) shr_1 (Build_shr_record M false false) = shifted M (Z.of_nat (S k)).
Proof.
  intros HM. induction k as [|k IH].
  - rewrite Nat.iter_succ. cbn [Nat.iter nat_rect]. rewrite shr_1_nonneg by assumption. unfold shifted.
    change (Z.of_nat 1) with 1. change (2 ^ 1) with 2. change (2 ^ (1 - 1)) with 1.
    rewrite Z.mod_1_r. cbn [negb Z.eqb orb]. f_equal.
    rewrite Zmod_odd. now destruct (Z.odd M).
  - remember (S k) as j. rewrite Nat.iter_succ, IH. unfold shifted.
    set (n := Z.of_nat j). assert (Hn : 1 <= n) by lia.
    replace (Z.of_nat (S j)) with (n + 1) by lia.
    replace (n + 1 - 1) with n by lia.
    assert (Hp : 0 < 2 ^ n) by (apply Z.pow_pos_nonneg; lia).
    assert (Hp1 : 0 < 2 ^ (n - 1)) by (apply Z.pow_pos_nonneg; lia).
    assert (Hpp : 2 ^ n = 2 * 2 ^ (n - 1)).
    { replace n with (Z.succ (n - 1)) at 1 by lia. apply Z.pow_succ_r. lia. }
    rewrite shr_1_nonneg by (apply Z.div_pos; lia).
    rewrite Z.pow_add_r by lia. change (2 ^ 1) with 2.
    rewrite Z.div_div by lia.
    rewrite (Z.rem_mul_r M (2 ^ n) 2) by lia.
    pose proof (Z.mod_pos_bound M (2 ^ n) Hp) as Hrem.
    set (a := M mod 2 ^ n) in *.
    rewrite Zmod_odd. f_equal.
    + destruct (Z.odd (M / 2 ^ n)); symmetry; [apply Z.leb_le|apply Z.leb_gt]; lia.
    + replace ((a + 2 ^ n * (if Z.odd (M / 2 ^ n) then 1 else 0)) mod 2 ^ n) with a.
      2:{ symmetry. rewrite Z.mul_comm, Z.mod_add by lia. apply Z.mod_small. lia. }
      destruct (2 ^ (n - 1) <=? a) eqn:Hr.
      * apply Z.leb_le in Hr. cbn [orb]. symmetry. apply negb_true_iff, Z.eqb_neq. lia.
      * apply Z.leb_gt in Hr. cbn [orb]. now rewrite (Z.mod_small a) by lia.
Qed.

(** Rounding to nearest, ties to even, of an exact mantissa shifted by
    [k >= 1] places: down when the dropped part is at most half, up when it
    is at least half. *)
Lemma round_shifted M k :
  0 <= M -> 1 <= k ->
  let m2 := round_nearest_even (shr_m (shifted M k)) (loc_of_shr_record (shifted M k)) in
  (m2 = M / 2 ^ k /\ M mod 2 ^ k <= 2 ^ (k - 1))
  \/ (m2 = M / 2 ^ k + 1 /\ 2 ^ (k - 1) <= M mod 2 ^ k).
Proof.
  intros HM Hk. unfold shifted. cbn [shr_m loc_of_shr_record].
  assert (Hp1 : 0 < 2 ^ (k - 1)) by (apply Z.pow_pos_nonneg; lia).
  assert (Hpp : 2 ^ k = 2 * 2 ^ (k - 1)).
  { replace k with (Z.succ (k - 1)) at 1 by lia. apply Z.pow_succ_r. lia. }
  pose proof (Z.mod_pos_bound M (2 ^ k) ltac:(lia)) as Hrem.
  set (a := M mod 2 ^ k) in *.
  destruct (2 ^ (k - 1) <=? a) eqn:Hr.
  - apply Z.leb_le in Hr.
    destruct (negb (a mod 2 ^ (k - 1) =? 0)) eqn:Hs; cbn [round_nearest_even].
    + right. split; [reflexivity|assumption].
    + apply negb_false_iff, Z.eqb_eq in Hs.
      assert (a = 2 ^ (k - 1)).
      { pose proof (Z.div_mod a (2 ^ (k - 1)) ltac:(lia)) as Hd. rewrite Hs in Hd.
        assert (a / 2 ^ (k - 1) = 1); [|lia].
        assert (0 < a / 2 ^ (k - 1)) by (apply Z.div_str_pos; lia).
        assert (a / 2 ^ (k - 1) < 2) by (apply Z.div_lt_upper_bound; lia). lia. }
      destruct (Z.even _); [left|right]; split; lia.
  - apply Z.leb_gt in Hr. left.
    destruct (negb _); cbn [round_nearest_even]; split; lia.
Qed.
Lemma shr_iter rec e k :
  0 <= k -> shr rec e k = (Nat.iter (Z.to_nat k) shr_1 rec, e + k).
Proof.
  intros Hk. destruct k as [|p|p]; [| |lia].
  - simpl. now rewrite Z.add_0_r.
  - unfold shr. now rewrite iter_pos_nat, Z2Nat.inj_pos.
Qed.

Lemma fexp_normal d : -1074 <= d - 53 -> fexp Float64.prec Float64.emax d = d - 53.
Proof. unfold fexp, emin, Float64.prec, Float64.emax. lia. Qed.

Lemma round_nearest_even_bracket m l : m <= round_nearest_even m l <= m + 1.
Proof. destruct l as [|[]]; cbn [round_nearest_even]; try destruct (Z.even m); lia. Qed.

Lemma shr_m_record_of_loc m l : shr_m (shr_record_of_loc m l) = m.
Proof. now destruct l as [|[]]. Qed.

Lemma shr_m_iter_loc k m l :
  0 <= m -> shr_m (Nat.iter k shr_1 (shr_record_of_loc m l)) = m / 2 ^ Z.of_nat k.
Proof. intros Hm. destruct l as [|[]]; now apply shr_m_iter. Qed.

(** A mantissa of 53 + k bits: what is left after dropping k bits has 53. *)
Lemma top_bits M k :
  0 <= k -> Z.pos (digits2_pos M) = 53 + k ->
  2 ^ 52 <= Z.pos M / 2 ^ k < 2 ^ 53.
Proof.
  intros Hk Hd. pose proof (digits2_pos_bounds M) as [Hlo Hhi]. rewrite Hd in Hlo, Hhi.
  replace (53 + k - 1) with (52 + k) in Hlo by lia.
  rewrite Z.pow_add_r in Hlo, Hhi by lia.
  assert (0 < 2 ^ k) by (apply Z.pow_pos_nonneg; lia).
  split.
  - apply Z.div_le_lower_bound; lia.
  - apply Z.div_lt_upper_bound; lia.
Qed.

(** [binary_round_aux] on a positive mantissa of 53 + k bits, in the normal
    range: the mantissa is shifted by k places and rounded; a rounding that
    reaches 2^53 moves to the next exponent. *)
Lemma binary_round_aux_pos (M : positive) e l k :
  0 <= k -> Z.pos (digits2_pos M) = 53 + k ->
  -1074 <= e + k -> e + k < 971 ->
  let rec := Nat.iter (Z.to_nat k) shr_1 (shr_record_of_loc (Z.pos M) l) in
  let m2 := round_nearest_even (shr_m rec) (loc_of_shr_record rec) in
  binary_round_aux Float64.prec Float64.emax false (Z.pos M) e l =
    if m2 <? 2 ^ 53 then S754_finite false (Z.to_pos m2) (e + k)
    else S754_finite false (Z.to_pos (2 ^ 52)) (e + k + 1).
Proof.
  intros Hk Hd Hlo Hhi rec m2.
  pose proof (top_bits M k Hk Hd) as Htop.
  assert (Hm1 : shr_m rec = Z.pos M / 2 ^ k).
  { unfold rec. rewrite shr_m_iter_loc by lia. now rewrite Z2Nat.id. }
  pose proof (round_nearest_even_bracket (shr_m rec) (loc_of_shr_record rec)) as Hb.
  fold m2 in Hb. rewrite Hm1 in Hb.
  unfold binary_round_aux, shr_fexp.
  change (Zdigits2 (Z.pos M)) with (Z.pos (digits2_pos M)). rewrite Hd.
  rewrite fexp_normal by lia.
  replace (53 + k + e - 53 - e) with k by lia.
  rewrite shr_iter by assumption. fold rec. cbv beta iota zeta. fold m2.
  destruct (m2 <? 2 ^ 53) eqn:Hlt.
  - apply Z.ltb_lt in Hlt.
    destruct m2 as [|m2p|m2p] eqn:Em2; [lia| |lia].
    assert (Hd2 : Z.pos (digits2_pos m2p) = 53)
      by (apply digits2_pos_unique; change (53 - 1) with 52; lia).
    change (Zdigits2 (Z.pos m2p)) with (Z.pos (digits2_pos m2p)). rewrite Hd2.
    rewrite fexp_normal by lia.
    replace (53 + (e + k) - 53 - (e + k)) with 0 by lia.
    cbn [shr shr_record_of_loc shr_m Z.to_pos].
    unfold Float64.emax, Float64.prec.
    replace (e + k <=? 1024 - 53) with true by (symmetry; apply Z.leb_le; lia).
    reflexivity.
  - apply Z.ltb_ge in Hlt. assert (Em2 : m2 = 2 ^ 53) by lia. rewrite Em2.
    change (Zdigits2 (2 ^ 53)) with 54. rewrite fexp_normal by lia.
    replace (54 + (e + k) - 53 - (e + k)) with 1 by lia.
    cbn [shr shr_record_of_loc SpecFloat.iter_pos]. change (2 ^ 53) with 9007199254740992.
    cbn [shr_1 orb shr_m]. unfold Float64.emax, Float64.prec.
    replace (e + k + 1 <=? 1024 - 53) with true by (symmetry; apply Z.leb_le; lia).
    reflexivity.
Qed.

Lemma iter_xO M d : Z.pos (Pos.iter xO M d) = Z.pos M * 2 ^ Z.pos d.
Proof.
  induction d as [|d IH] using Pos.peano_ind.
  - simpl. lia.
  - rewrite Pos.iter_succ, Pos2Z.inj_succ, Z.pow_succ_r by lia.
    rewrite (Pos2Z.inj_xO (Pos.iter xO M d)), IH. ring.
Qed.

(** A mantissa of at most 53 bits is normalised without rounding. *)
Lemma binary_round_small (M : positive) e j :
  0 <= j -> Z.pos (digits2_pos M) = 53 - j ->
  -1074 <= e - j -> e - j < 971 ->
  binary_round Float64.prec Float64.emax false M e
  = S754_finite false (Z.to_pos (Z.pos M * 2 ^ j)) (e - j).
Proof.
  intros Hj Hd Hlo Hhi. unfold binary_round. rewrite Hd.
  rewrite fexp_normal by lia.
  assert (Hal : shl_align M e (53 - j + e - 53)
                = (Z.to_pos (Z.pos M * 2 ^ j), e - j)).
  { unfold shl_align. replace (53 - j + e - 53 - e) with (- j) by lia.
    destruct j as [|jp|jp]; [| |lia].
    - change (- 0) with 0. cbv iota.
      rewrite Z.pow_0_r, Z.mul_1_r, Z.sub_0_r. reflexivity.
    - change (- Z.pos jp) with (Z.neg jp). cbv iota.
      rewrite <- iter_xO. cbn [Z.to_pos]. f_equal. lia. }
  rewrite Hal.
  assert (Hpos : 0 < Z.pos M * 2 ^ j) by (apply Z.mul_pos_pos; [lia|apply Z.pow_pos_nonneg; lia]).
  destruct (Z.pos M * 2 ^ j) as [|M'|M'] eqn:EM; [lia| |lia].
  cbn [Z.to_pos].
  assert (Hd' : Z.pos (digits2_pos M') = 53 + 0).
  { apply digits2_pos_unique. rewrite <- EM.
    pose proof (digits2_pos_bounds M) as [Dlo Dhi]. rewrite Hd in Dlo, Dhi.
    replace (53 + 0 - 1) with ((53 - j - 1) + j) by lia.
    replace (53 + 0) with ((53 - j) + j) by lia.
    assert (1 <= 53 - j) by (pose proof (Pos2Z.is_pos (digits2_pos M)); lia).
    rewrite !Z.pow_add_r by lia.
    assert (0 < 2 ^ j) by (apply Z.pow_pos_nonneg; lia). nia. }
  rewrite (binary_round_aux_pos M' (e - j) loc_Exact 0 (Z.le_refl 0) Hd') by lia.
  change (Z.to_nat 0) with O. unfold Nat.iter.
  cbn [nat_rect shr_record_of_loc shr_m loc_of_shr_record round_nearest_even].
  pose proof (digits2_pos_bounds M') as [_ Dhi]. rewrite Hd' in Dhi.
  replace (Z.pos M' <? 2 ^ 53) with true by (symmetry; apply Z.ltb_lt; exact Dhi).
  cbn [Z.to_pos]. f_equal. lia.
Qed.

Lemma of_Z_pos p :
  Z.pos (digits2_pos p) <= 53 ->
  Float64.of_Z (Z.pos p)
  = S754_finite false (Z.to_pos (Z.pos p * 2 ^ (53 - Z.pos (digits2_pos p))))
      (Z.pos (digits2_pos p) - 53).
Proof.
  intros Hd. unfold Float64.of_Z. cbn [binary_normalize].
  rewrite (binary_round_small p 0 (53 - Z.pos (digits2_pos p))) by lia.
  f_equal. lia.
Qed.

(** A positive mantissa of more than 53 bits is rounded to nearest. *)
Lemma binary_round_exact (M : positive) e k :
  1 <= k -> Z.pos (digits2_pos M) = 53 + k ->
  -1074 <= e + k -> e + k < 971 ->
  exists m2,
    ((m2 = Z.pos M / 2 ^ k /\ Z.pos M mod 2 ^ k <= 2 ^ (k - 1))
     \/ (m2 = Z.pos M / 2 ^ k + 1 /\ 2 ^ (k - 1) <= Z.pos M mod 2 ^ k))
    /\ binary_round Float64.prec Float64.emax false M e
       = if m2 <? 2 ^ 53 then S754_finite false (Z.to_pos m2) (e + k)
         else S754_finite false (Z.to_pos (2 ^ 52)) (e + k + 1).
Proof.
  intros Hk Hd Hlo Hhi. unfold binary_round. rewrite Hd.
  rewrite fexp_normal by lia.
  assert (Hal : shl_align M e (53 + k + e - 53) = (M, e)).
  { unfold shl_align. replace (53 + k + e - 53 - e) with k by lia.
    destruct k; [reflexivity|reflexivity|lia]. }
  rewrite Hal, (binary_round_aux_pos M e loc_Exact k) by lia.
  cbn [shr_record_of_loc].
  replace (Z.to_nat k) with (S (Z.to_nat (k - 1))) by lia.
  rewrite iter_shr_exact by lia.
  replace (Z.of_nat (S (Z.to_nat (k - 1)))) with k by lia.
  eexists. split; [|reflexivity].
  apply round_shifted; lia.
Qed.

(** The whole part of a rounded mantissa. *)
Lemma to_int64_rounded m2 e :
  2 ^ 52 <= m2 <= 2 ^ 53 -> e <= 0 -> m2 / 2 ^ (- e) <= Int64.max_int ->
  Float64.to_int64
    (if m2 <? 2 ^ 53 then S754_finite false (Z.to_pos m2) e
     else S754_finite false (Z.to_pos (2 ^ 52)) (e + 1))
  = m2 / 2 ^ (- e).
Proof.
  intros Hm He Hmax.
  assert (Hw : Z.shiftl m2 e = m2 / 2 ^ (- e)) by (apply Z.shiftl_div_pow2; lia).
  assert (H0 : 0 <= m2 / 2 ^ (- e))
    by (apply Z.div_pos; [lia|apply Z.pow_pos_nonneg; lia]).
  assert (Hr : forall v, 0 <= v <= Int64.max_int ->
             (if (Int64.min_int <=? v) && (v <=? Int64.max_int) then v else Int64.min_int) = v).
  { intros v Hv. unfold Int64.min_int, Int64.max_int in *.
    replace (- 2 ^ 63 <=? v) with true by (symmetry; apply Z.leb_le; lia).
    replace (v <=? 2 ^ 63 - 1) with true by (symmetry; apply Z.leb_le; lia).
    reflexivity. }
  destruct (m2 <? 2 ^ 53) eqn:Hlt.
  - unfold Float64.to_int64. rewrite Z2Pos.id by lia. rewrite Hw. now apply Hr.
  - apply Z.ltb_ge in Hlt. assert (Em : m2 = 2 ^ 53) by lia.
    unfold Float64.to_int64.
    replace (Z.pos (Z.to_pos (2 ^ 52))) with (2 ^ 52) by reflexivity.
    replace (e + 1) with (1 + e) by lia.
    rewrite <- Z.shiftl_shiftl by lia.
    replace (Z.shiftl (2 ^ 52) 1) with m2 by (rewrite Em; reflexivity).
    rewrite Hw. now apply Hr.
Qed.

Lemma pow2_lt_inv a b : 2 ^ a < 2 ^ b -> a < b.
Proof.
  intros H. destruct (Z.lt_ge_cases a b) as [|Hge]; [assumption|].
  destruct (Z.lt_ge_cases b 0) as [Hb|Hb].
  - rewrite (Z.pow_neg_r 2 b) in H by assumption.
    pose proof (Z.pow_nonneg 2 a ltac:(lia)). lia.
  - pose proof (Z.pow_le_mono_r 2 b a ltac:(lia) Hge). lia.
Qed.

(** The quotient and the position of the remainder that [SFdiv] rounds,
    for two mantissas of 53 bits. *)
Lemma SFdiv_core_53 (m1 m2 : positive) e1 e2 :
  Z.pos (digits2_pos m1) = 53 -> Z.pos (digits2_pos m2) = 53 ->
  -1074 <= e1 - e2 - 53 ->
  SFdiv_core_binary Float64.prec Float64.emax (Z.pos m1) e1 (Z.pos m2) e2
  = (Z.pos m1 * 2 ^ 53 / Z.pos m2, e1 - e2 - 53,
     new_location (Z.pos m2) ((Z.pos m1 * 2 ^ 53) mod Z.pos m2)).
Proof.
  intros H1 H2 Hlo. unfold SFdiv_core_binary.
  change (Zdigits2 (Z.pos m1)) with (Z.pos (digits2_pos m1)).
  change (Zdigits2 (Z.pos m2)) with (Z.pos (digits2_pos m2)).
  rewrite H1, H2.
  replace (Z.min (fexp Float64.prec Float64.emax (53 + e1 - (53 + e2))) (e1 - e2))
    with (e1 - e2 - 53) by (rewrite fexp_normal; lia).
  replace (e1 - e2 - (e1 - e2 - 53)) with 53 by lia. cbv iota.
  rewrite Z.shiftl_mul_pow2 by lia.
  unfold Z.div, Z.modulo.
  now destruct (Z.div_eucl (Z.pos m1 * 2 ^ 53) (Z.pos m2)).
Qed.

(** The nanoseconds of a duration, divided by 1e9: a binary64 number
    below 1 - 2^-30. *)
Lemma div_nanoseconds (pn : positive) :
  Z.pos pn < 1000000000 ->
  exists mq eq,
    Float64.div (Float64.of_Z (Z.pos pn)) (Float64.of_Z 1000000000)
    = S754_finite false mq eq
    /\ 2 ^ 52 <= Z.pos mq /\ -82 <= eq
    /\ Z.pos mq * 2 ^ 30 < (2 ^ 30 - 1) * 2 ^ (- eq).
Proof.
  intros Hn.
  pose proof (digits2_pos_bounds pn) as [Dlo Dhi].
  set (dn := Z.pos (digits2_pos pn)) in *.
  assert (Hdn1 : 1 <= dn) by (unfold dn; lia).
  assert (Hdn : dn <= 30).
  { assert (2 ^ (dn - 1) < 2 ^ 30) by (change (2 ^ 30) with 1073741824; lia).
    apply pow2_lt_inv in H. lia. }
  rewrite of_Z_pos by (fold dn; lia). fold dn.
  change (Float64.of_Z 1000000000) with (S754_finite false 8388608000000000 (-23)).
  set (U := 2 ^ (53 - dn)).
  assert (HU : 2 ^ 23 <= U) by (apply Z.pow_le_mono_r; lia).
  assert (HU52 : 2 ^ 52 <= Z.pos pn * U < 2 ^ 53).
  { assert (E1 : 2 ^ 52 = 2 ^ (dn - 1) * U)
      by (unfold U; rewrite <- Z.pow_add_r by lia; f_equal; lia).
    assert (E2 : 2 ^ 53 = 2 ^ dn * U)
      by (unfold U; rewrite <- Z.pow_add_r by lia; f_equal; lia).
    assert (0 < U) by (change (2 ^ 23) with 8388608 in HU; lia).
    rewrite E1, E2. split.
    - apply Z.mul_le_mono_nonneg_r; lia.
    - apply Z.mul_lt_mono_pos_r; lia. }
  destruct (Z.pos pn * U) as [|m1|m1] eqn:Em1;
    [change (2 ^ 52) with 4503599627370496 in HU52; lia| |lia].
  cbn [Z.to_pos].
  assert (Hd1 : Z.pos (digits2_pos m1) = 53)
    by (apply digits2_pos_unique; change (53 - 1) with 52; exact HU52).
  unfold Float64.div, SFdiv.
  rewrite (SFdiv_core_53 m1 8388608000000000 (dn - 53) (-23) Hd1 eq_refl) by lia.
  replace (dn - 53 - -23 - 53) with (dn - 83) by lia.
  cbn [xorb].
  set (Q := Z.pos m1 * 2 ^ 53 / 8388608000000000).
  set (lz := new_location _ _).
  (* the quotient *)
  assert (HQ : Q = Z.pos m1 * 2 ^ 30 / 1000000000).
  { unfold Q. replace (Z.pos m1 * 2 ^ 53) with (Z.pos m1 * 2 ^ 30 * 2 ^ 23)
      by (rewrite <- Z.mul_assoc, <- Z.pow_add_r by lia; reflexivity).
    change 8388608000000000 with (1000000000 * 2 ^ 23).
    apply Z.div_mul_cancel_r; discriminate. }
  assert (HQle : Q * 1000000000 <= Z.pos m1 * 2 ^ 30)
    by (rewrite HQ, Z.mul_comm; apply Z.mul_div_le; lia).
  assert (HQlo : 2 ^ 52 <= Q).
  { rewrite HQ. apply Z.div_le_lower_bound; [lia|].
    change (2 ^ 52) with 4503599627370496 in *. change (2 ^ 30) with 1073741824. lia. }
  assert (HQhi : Q < 2 ^ 54).
  { rewrite HQ. apply Z.div_lt_upper_bound; [lia|].
    change (2 ^ 53) with 9007199254740992 in *. change (2 ^ 30) with 1073741824.
    change (2 ^ 54) with 18014398509481984. lia. }
  assert (Hm1 : Z.pos m1 <= (1000000000 - 1) * U).
  { rewrite <- Em1. apply Z.mul_le_mono_nonneg_r; [|lia].
    change (2 ^ 23) with 8388608 in HU. lia. }
  assert (HQ2 : Q + 2 < (2 ^ 30 - 1) * U).
  { change (2 ^ 30) with 1073741824 in *. change (2 ^ 23) with 8388608 in HU. lia. }
  destruct Q as [|Qp|Qp] eqn:EQ; [change (2 ^ 52) with 4503599627370496 in HQlo; lia| |lia].
  pose proof (digits2_pos_bounds Qp) as [QDlo QDhi].
  set (k := Z.pos (digits2_pos Qp) - 53).
  assert (Hk : k = 0 \/ k = 1).
  { assert (2 ^ (Z.pos (digits2_pos Qp) - 1) < 2 ^ 54) by lia.
    assert (2 ^ 52 < 2 ^ Z.pos (digits2_pos Qp)) by lia.
    apply pow2_lt_inv in H, H0. unfold k. lia. }
  assert (Hdq : Z.pos (digits2_pos Qp) = 53 + k) by (unfold k; lia).
  rewrite (binary_round_aux_pos Qp (dn - 83) lz k) by lia.
  set (rec := Nat.iter (Z.to_nat k) shr_1 (shr_record_of_loc (Z.pos Qp) lz)).
  assert (Hrec : shr_m rec = Z.pos Qp / 2 ^ k).
  { unfold rec. rewrite shr_m_iter_loc by lia. rewrite Z2Nat.id by lia. reflexivity. }
  pose proof (round_nearest_even_bracket (shr_m rec) (loc_of_shr_record rec)) as Hb.
  set (m2 := round_nearest_even (shr_m rec) (loc_of_shr_record rec)) in *.
  rewrite Hrec in Hb.
  pose proof (top_bits Qp k ltac:(lia) Hdq) as Htop.
  assert (E83 : 2 ^ (83 - dn) = 2 ^ 30 * U)
    by (unfold U; rewrite <- Z.pow_add_r by lia; f_equal; lia).
  assert (E82 : 2 ^ (82 - dn) = 2 ^ 29 * U)
    by (unfold U; rewrite <- Z.pow_add_r by lia; f_equal; lia).
  assert (E81 : 2 ^ (81 - dn) = 2 ^ 28 * U)
    by (unfold U; rewrite <- Z.pow_add_r by lia; f_equal; lia).
  change (2 ^ 30) with 1073741824 in *. change (2 ^ 29) with 536870912 in *.
  change (2 ^ 28) with 268435456 in *. change (2 ^ 52) with 4503599627370496 in *.
  change (2 ^ 53) with 9007199254740992 in *. change (2 ^ 23) with 8388608 in *.
  destruct Hk as [Hk|Hk]; rewrite Hk in *.
  - change (2 ^ 0) with 1 in *. rewrite Z.div_1_r in *.
    destruct (m2 <? 9007199254740992) eqn:Hlt.
    + apply Z.ltb_lt in Hlt. exists (Z.to_pos m2), (dn - 83 + 0).
      rewrite Z2Pos.id by lia. split; [reflexivity|]. split; [lia|]. split; [lia|].
      replace (- (dn - 83 + 0)) with (83 - dn) by lia. rewrite E83. lia.
    + apply Z.ltb_ge in Hlt. exists (Z.to_pos 4503599627370496), (dn - 83 + 0 + 1).
      split; [reflexivity|]. split; [cbn; lia|]. split; [lia|].
      replace (- (dn - 83 + 0 + 1)) with (82 - dn) by lia. rewrite E82.
      cbn [Z.to_pos]. lia.
  - change (2 ^ 1) with 2 in *.
    assert (Hh : 2 * (Z.pos Qp / 2) <= Z.pos Qp) by (apply Z.mul_div_le; lia).
    destruct (m2 <? 9007199254740992) eqn:Hlt.
    + apply Z.ltb_lt in Hlt. exists (Z.to_pos m2), (dn - 83 + 1).
      rewrite Z2Pos.id by lia. split; [reflexivity|]. split; [lia|]. split; [lia|].
      replace (- (dn - 83 + 1)) with (82 - dn) by lia. rewrite E82. lia.
    + apply Z.ltb_ge in Hlt. exists (Z.to_pos 4503599627370496), (dn - 83 + 1 + 1).
      split; [reflexivity|]. split; [cbn; lia|]. split; [lia|].
      replace (- (dn - 83 + 1 + 1)) with (81 - dn) by lia. rewrite E81.
      cbn [Z.to_pos]. lia.
Qed.

Lemma shl_align_left m e e' :
  e' < e -> shl_align m e e' = (Z.to_pos (Z.pos m * 2 ^ (e - e')), e').
Proof.
  intros H. unfold shl_align.
  destruct (e' - e) as [|p|p] eqn:E; [lia|lia|].
  replace (e - e') with (Z.pos p) by lia. now rewrite <- iter_xO.
Qed.

Lemma shl_align_same m e : shl_align m e e = (m, e).
Proof. unfold shl_align. now rewrite Z.sub_diag. Qed.

(** The whole part of a number of seconds below 2^53. *)
Lemma to_int64_of_Z p :
  Z.pos (digits2_pos p) <= 53 -> Float64.to_int64 (Float64.of_Z (Z.pos p)) = Z.pos p.
Proof.
  intros Hd. rewrite of_Z_pos by assumption.
  set (d := Z.pos (digits2_pos p)) in *.
  assert (HP : 0 < 2 ^ (53 - d)) by (apply Z.pow_pos_nonneg; lia).
  unfold Float64.to_int64. rewrite Z2Pos.id by lia.
  rewrite Z.shiftl_div_pow2 by lia. replace (- (d - 53)) with (53 - d) by lia.
  rewrite Z.div_mul by lia.
  pose proof (digits2_pos_bounds p) as [_ Dhi]. fold d in Dhi.
  assert (2 ^ d <= 2 ^ 53) by (apply Z.pow_le_mono_r; lia).
  unfold Int64.min_int, Int64.max_int.
  change (2 ^ 53) with 9007199254740992 in *. change (2 ^ 63) with 9223372036854775808.
  replace (_ <=? Z.pos p) with true by (symmetry; apply Z.leb_le; lia).
  replace (Z.pos p <=? _) with true by (symmetry; apply Z.leb_le; lia).
  reflexivity.
Qed.

(** Whole seconds plus a fraction below 1 - 2^-30, in binary64: the sum is
    rounded to the whole seconds or to the next second, and below 2^24
    seconds it stays under the next second. *)
Lemma add_seconds (ps mq : positive) eq :
  Z.pos ps < 2 ^ 34 -> 2 ^ 52 <= Z.pos mq -> -82 <= eq ->
  Z.pos mq * 2 ^ 30 < (2 ^ 30 - 1) * 2 ^ (- eq) ->
  exists m e,
    Float64.add (Float64.of_Z (Z.pos ps)) (S754_finite false mq eq) = S754_finite false m e
    /\ Z.pos ps <= Float64.to_int64 (S754_finite false m e) <= Z.pos ps + 1
    /\ (Z.pos ps < 2 ^ 24 -> Float64.to_int64 (S754_finite false m e) = Z.pos ps).
Proof.
  intros Hs Hmq Heq Hq.
  pose proof (digits2_pos_bounds ps) as [Dlo Dhi].
  set (d := Z.pos (digits2_pos ps)) in *.
  assert (Hd1 : 1 <= d) by (unfold d; lia).
  assert (Hd : d <= 34).
  { assert (2 ^ (d - 1) < 2 ^ 34) by lia. apply pow2_lt_inv in H. lia. }
  (* the fraction is below 1 *)
  assert (Heq53 : eq <= -53).
  { assert (2 ^ 52 < 2 ^ (- eq)).
    { change (2 ^ 30) with 1073741824 in Hq.
      assert (0 <= 2 ^ (- eq)) by (apply Z.pow_nonneg; lia). lia. }
    apply pow2_lt_inv in H. lia. }
  rewrite of_Z_pos by (fold d; lia). fold d.
  set (P := 2 ^ (53 - d)).
  assert (HP : 0 < P) by (apply Z.pow_pos_nonneg; lia).
  set (n := d - 53 - eq). assert (Hn : 1 <= n) by (unfold n; lia).
  assert (HPn : 2 ^ (- eq) = P * 2 ^ n)
    by (unfold P, n; rewrite <- Z.pow_add_r by lia; f_equal; lia).
  assert (Hn0 : 0 < 2 ^ n) by (apply Z.pow_pos_nonneg; lia).
  assert (Hsec : 2 ^ 52 <= Z.pos ps * P <= 2 ^ 53 - P).
  { assert (E1 : 2 ^ 52 = 2 ^ (d - 1) * P)
      by (unfold P; rewrite <- Z.pow_add_r by lia; f_equal; lia).
    assert (E2 : 2 ^ 53 = 2 ^ d * P)
      by (unfold P; rewrite <- Z.pow_add_r by lia; f_equal; lia).
    rewrite E1, E2. split; [apply Z.mul_le_mono_nonneg_r; lia|].
    replace (2 ^ d * P - P) with ((2 ^ d - 1) * P) by ring.
    apply Z.mul_le_mono_nonneg_r; lia. }
  assert (Hmq' : Z.pos mq < P * 2 ^ n).
  { rewrite <- HPn. change (2 ^ 30) with 1073741824 in Hq.
    assert (0 <= 2 ^ (- eq)) by (apply Z.pow_nonneg; lia). lia. }
  destruct (Z.pos ps * P) as [|mx|mx] eqn:Emx;
    [change (2 ^ 52) with 4503599627370496 in Hsec; lia| |lia].
  cbn [Z.to_pos].
  unfold Float64.add, SFadd.
  rewrite Z.min_r by lia.
  rewrite shl_align_left by lia. rewrite shl_align_same.
  cbn [fst cond_Zopp]. fold n.
  assert (Hmxn : 0 < Z.pos mx * 2 ^ n) by lia.
  rewrite Z2Pos.id by lia.
  destruct (Z.pos mx * 2 ^ n + Z.pos mq) as [|M|M] eqn:EM; [lia| |lia].
  cbn [binary_normalize].
  assert (HdM : Z.pos (digits2_pos M) = 53 + n).
  { apply digits2_pos_unique. rewrite <- EM.
    replace (53 + n - 1) with (52 + n) by lia. rewrite !Z.pow_add_r by lia.
    split; nia. }
  destruct (binary_round_exact M eq n Hn HdM ltac:(unfold n; lia) ltac:(unfold n; lia))
    as (m2 & Hm2 & ->).
  replace (eq + n) with (d - 53) by (unfold n; lia).
  (* the mantissa, cut and rounded *)
  assert (Hdiv : Z.pos M / 2 ^ n = Z.pos mx + Z.pos mq / 2 ^ n)
    by (rewrite <- EM; apply Z.div_add_l; lia).
  assert (Hmod : Z.pos M mod 2 ^ n = Z.pos mq mod 2 ^ n)
    by (rewrite <- EM, Z.add_comm; apply Z.mod_add; lia).
  set (t := Z.pos mq / 2 ^ n) in *.
  assert (Ht : 0 <= t <= P - 1).
  { split; [apply Z.div_pos; lia|].
    assert (t < P) by (apply Z.div_lt_upper_bound; lia). lia. }
  rewrite Hdiv, Hmod in Hm2.
  assert (Hm2r : 2 ^ 52 <= m2 <= 2 ^ 53) by lia.
  assert (Hwhole : m2 / P = Z.pos ps \/ (m2 / P = Z.pos ps + 1 /\ m2 = Z.pos mx + P)).
  { destruct Hm2 as [[-> _]|[-> _]].
    - left. rewrite <- Emx. rewrite Z.div_add_l by lia.
      rewrite (Z.div_small t P) by lia. lia.
    - destruct (Z.eq_dec t (P - 1)) as [Et|Et].
      + right. split; [|lia]. replace (Z.pos mx + t + 1) with (Z.pos mx + 1 * P) by lia.
        rewrite <- Emx, <- Z.mul_add_distr_r. now rewrite Z.div_mul by lia.
      + left. rewrite <- Emx, <- Z.add_assoc, Z.div_add_l by lia.
        rewrite (Z.div_small (t + 1) P) by lia. lia. }
  assert (Hto : Float64.to_int64
            (if m2 <? 2 ^ 53 then S754_finite false (Z.to_pos m2) (d - 53)
             else S754_finite false (Z.to_pos (2 ^ 52)) (d - 53 + 1)) = m2 / P).
  { rewrite to_int64_rounded; [|assumption|lia|].
    - now replace (- (d - 53)) with (53 - d) by lia.
    - replace (- (d - 53)) with (53 - d) by lia. fold P.
      unfold Int64.max_int. change (2 ^ 63) with 9223372036854775808.
      change (2 ^ 34) with 17179869184 in Hs. lia. }
  assert (Hform : exists m e,
            (if m2 <? 2 ^ 53 then S754_finite false (Z.to_pos m2) (d - 53)
             else S754_finite false (Z.to_pos (2 ^ 52)) (d - 53 + 1))
            = S754_finite false m e)
    by (destruct (m2 <? 2 ^ 53); eauto).
  destruct Hform as (m & e & Hform). rewrite Hform in Hto |- *.
  exists m, e. split; [reflexivity|]. rewrite Hto. split; [lia|].
  intros Hs24. destruct Hwhole as [?|[_ Hup]]; [assumption|]. exfalso.
  (* below 2^24 seconds a rounding up to the next second needs a fraction of
     at least 1 - 2^-30 *)
  assert (Hd24 : d <= 24).
  { assert (2 ^ (d - 1) < 2 ^ 24) by lia. apply pow2_lt_inv in H. lia. }
  assert (HP29 : 2 ^ 29 <= P) by (apply Z.pow_le_mono_r; lia).
  destruct Hm2 as [[-> _]|[Em2 Hhalf]]; [lia|].
  assert (Et : t = P - 1) by lia.
  set (W := 2 ^ (n - 1)) in *.
  assert (HW : 0 < W) by (apply Z.pow_pos_nonneg; lia).
  assert (HnW : 2 ^ n = 2 * W).
  { unfold W. replace n with (Z.succ (n - 1)) at 1 by lia. apply Z.pow_succ_r. lia. }
  pose proof (Z.div_mod (Z.pos mq) (2 ^ n) ltac:(lia)) as Hdm. fold t in Hdm.
  set (r := Z.pos mq mod 2 ^ n) in *.
  rewrite HPn, HnW in Hq. rewrite HnW, Et in Hdm.
  assert (HX : 2 ^ 29 * W <= P * W) by (apply Z.mul_le_mono_nonneg_r; lia).
  change (2 ^ 30) with 1073741824 in *. change (2 ^ 29) with 536870912 in *.
  rewrite Hdm in Hq. clear - Hq HX Hhalf HW. lia.
Qed.

Lemma to_int64_fraction mq eq :
  Z.pos mq < 2 ^ (- eq) -> Float64.to_int64 (S754_finite false mq eq) = 0.
Proof.
  intros H.
  assert (He : eq < 0).
  { destruct (Z.lt_ge_cases eq 0) as [|Hge]; [assumption|].
    destruct (Z.eq_dec eq 0) as [->|]; [simpl in H; lia|].
    rewrite Z.pow_neg_r in H by lia. lia. }
  unfold Float64.to_int64. rewrite Z.shiftl_div_pow2 by lia.
  rewrite Z.div_small by lia. reflexivity.
Qed.

(** The seconds of a non-negative duration: a binary64 number that is not
    negative, whose whole part is the whole seconds of the duration or one
    more, and the whole seconds below 2^24 seconds. *)
Lemma Seconds_nonneg d :
  0 <= d <= 2 ^ 63 ->
  (time.Seconds d = S754_zero false \/ exists m e, time.Seconds d = S754_finite false m e)
  /\ d / time.Second <= time.whole_seconds d <= d / time.Second + 1
  /\ (d < 2 ^ 24 * time.Second \/ d mod time.Second = 0 ->
      time.whole_seconds d = d / time.Second).
Proof.
  intros Hd. unfold time.whole_seconds, time.Seconds, time.Second.
  rewrite Z.quot_div_nonneg, Z.rem_mod_nonneg by lia.
  pose proof (Z.mod_pos_bound d 1000000000 ltac:(lia)) as Hn.
  pose proof (Z.div_mod d 1000000000 ltac:(lia)) as Hdm.
  assert (Hsec : 0 <= d / 1000000000 < 2 ^ 34).
  { split; [apply Z.div_pos; lia|]. apply Z.div_lt_upper_bound; [lia|].
    change (2 ^ 63) with 9223372036854775808 in Hd. change (2 ^ 34) with 17179869184. lia. }
  assert (Hs24 : d < 2 ^ 24 * 1000000000 -> d / 1000000000 < 2 ^ 24)
    by (intros H; apply Z.div_lt_upper_bound; lia).
  set (sec := d / 1000000000) in *. set (nsec := d mod 1000000000) in *.
  destruct nsec as [|pn|pn]; [| |lia].
  - (* a whole number of seconds *)
    replace (Float64.div (Float64.of_Z 0) (Float64.of_Z 1000000000))
      with (S754_zero false) by reflexivity.
    destruct sec as [|ps|ps]; [| |lia].
    + split; [now left|]. split; [cbn; lia|reflexivity].
    + assert (Hdp : Z.pos (digits2_pos ps) <= 53).
      { pose proof (digits2_pos_bounds ps) as [Dlo _].
        assert (2 ^ (Z.pos (digits2_pos ps) - 1) < 2 ^ 34) by lia.
        apply pow2_lt_inv in H. lia. }
      replace (Float64.add (Float64.of_Z (Z.pos ps)) (S754_zero false))
        with (Float64.of_Z (Z.pos ps)) by (rewrite of_Z_pos by assumption; reflexivity).
      rewrite to_int64_of_Z by assumption.
      split; [right; rewrite of_Z_pos by assumption; eauto|]. split; [lia|reflexivity].
  - destruct (div_nanoseconds pn ltac:(lia)) as (mq & eq & -> & Hmq & Heq & Hq).
    destruct sec as [|ps|ps]; [| |lia].
    + (* less than a second *)
      replace (Float64.add (Float64.of_Z 0) (S754_finite false mq eq))
        with (S754_finite false mq eq) by reflexivity.
      rewrite to_int64_fraction.
      * split; [right; eauto|]. split; [lia|reflexivity].
      * change (2 ^ 30) with 1073741824 in Hq.
        assert (0 <= 2 ^ (- eq)) by (apply Z.pow_nonneg; lia). lia.
    + destruct (add_seconds ps mq eq ltac:(lia) Hmq Heq Hq) as (m & e & -> & Hb & H24).
      split; [right; eauto|]. split; [exact Hb|].
      intros [H|H]; [|discriminate H]. apply H24. now apply Hs24.
Qed.

Lemma binary_round_aux_opp m e l :
  binary_round_aux Float64.prec Float64.emax true m e l
  = SFopp (binary_round_aux Float64.prec Float64.emax false m e l).
Proof.
  unfold binary_round_aux.
  destruct (shr_fexp _ _ m e l) as [mrs e'].
  destruct (shr_fexp _ _ _ e' loc_Exact) as [mrs' e''].
  destruct (shr_m mrs'); [reflexivity| |reflexivity].
  destruct (_ <=? _); reflexivity.
Qed.

Lemma binary_round_opp m e :
  binary_round Float64.prec Float64.emax true m e
  = SFopp (binary_round Float64.prec Float64.emax false m e).
Proof.
  unfold binary_round. destruct (shl_align _ _ _). apply binary_round_aux_opp.
Qed.

Lemma SFadd_opp m1 e1 m2 e2 :
  Float64.add (S754_finite true m1 e1) (S754_finite true m2 e2)
  = SFopp (Float64.add (S754_finite false m1 e1) (S754_finite false m2 e2)).
Proof.
  unfold Float64.add, SFadd. cbn [cond_Zopp].
  generalize (fst (shl_align m1 e1 (Z.min e1 e2))) (fst (shl_align m2 e2 (Z.min e1 e2))).
  intros a b. cbn [Z.opp Z.add binary_normalize]. apply binary_round_opp.
Qed.

Lemma SFdiv_opp m1 e1 m2 e2 :
  Float64.div (S754_finite true m1 e1) (S754_finite false m2 e2)
  = SFopp (Float64.div (S754_finite false m1 e1) (S754_finite false m2 e2)).
Proof.
  unfold Float64.div, SFdiv.
  destruct (SFdiv_core_binary _ _ _ _ _ _) as [[mz ez] lz]. cbn [xorb].
  apply binary_round_aux_opp.
Qed.

Lemma of_Z_neg p : Float64.of_Z (Z.neg p) = SFopp (Float64.of_Z (Z.pos p)).
Proof. unfold Float64.of_Z. cbn [binary_normalize]. apply binary_round_opp. Qed.

Lemma to_int64_opp m e :
  0 <= Float64.to_int64 (S754_finite false m e) ->
  Float64.to_int64 (S754_finite true m e) = - Float64.to_int64 (S754_finite false m e).
Proof.
  unfold Float64.to_int64.
  assert (Hw : 0 <= Z.shiftl (Z.pos m) e) by (apply Z.shiftl_nonneg; lia).
  set (w := Z.shiftl (Z.pos m) e) in *.
  destruct (Int64.min_int <=? w) eqn:A, (w <=? Int64.max_int) eqn:B,
    (Int64.min_int <=? - w) eqn:C, (- w <=? Int64.max_int) eqn:D;
    cbn [andb]; intros H; try reflexivity;
    rewrite ?Z.leb_le, ?Z.leb_gt in *;
    unfold Int64.min_int, Int64.max_int in *;
    change (2 ^ 63) with 9223372036854775808 in *; lia.
Qed.

(** The seconds of a negative duration mirror those of its opposite. *)
Lemma whole_seconds_opp d :
  0 < d <= 2 ^ 63 -> time.whole_seconds (- d) = - time.whole_seconds d.
Proof.
  intros Hd.
  destruct (Seconds_nonneg d ltac:(lia)) as (Hform & Hb & _).
  assert (H0 : 0 <= time.whole_seconds d).
  { assert (0 <= d / time.Second) by (apply Z.div_pos; unfold time.Second; lia). lia. }
  revert Hform H0. unfold time.whole_seconds, time.Seconds, time.Second.
  rewrite Z.quot_opp_l, Z.rem_opp_l by lia.
  rewrite Z.quot_div_nonneg, Z.rem_mod_nonneg by lia.
  pose proof (Z.mod_pos_bound d 1000000000 ltac:(lia)) as Hn.
  pose proof (Z.div_mod d 1000000000 ltac:(lia)) as Hdm.
  assert (Hsec : 0 <= d / 1000000000 < 2 ^ 34).
  { split; [apply Z.div_pos; lia|]. apply Z.div_lt_upper_bound; [lia|].
    change (2 ^ 63) with 9223372036854775808 in Hd. change (2 ^ 34) with 17179869184. lia. }
  set (sec := d / 1000000000) in *. set (nsec := d mod 1000000000) in *.
  change (Float64.of_Z 1000000000) with (S754_finite false 8388608000000000 (-23)).
  assert (Hfin : forall p, Z.pos p < 2 ^ 34 ->
            exists m e, Float64.of_Z (Z.pos p) = S754_finite false m e).
  { intros p Hp. rewrite of_Z_pos; [eauto|].
    pose proof (digits2_pos_bounds p) as [Dlo _].
    assert (2 ^ (Z.pos (digits2_pos p) - 1) < 2 ^ 34) by lia.
    apply pow2_lt_inv in H. lia. }
  destruct nsec as [|pn|pn]; [| |lia]; (destruct sec as [|ps|ps]; [| |lia]).
  - exfalso. lia.
  - (* whole seconds *)
    change (- Z.pos ps) with (Z.neg ps). change (- 0) with 0. rewrite of_Z_neg.
    destruct (Hfin ps ltac:(lia)) as (m & e & ->).
    replace (Float64.div (Float64.of_Z 0) (S754_finite false 8388608000000000 (-23)))
      with (S754_zero false) by reflexivity.
    cbn [SFopp negb Float64.add SFadd]. intros _ H0. now apply to_int64_opp.
  - (* less than a second *)
    change (- Z.pos pn) with (Z.neg pn). change (- 0) with 0. rewrite of_Z_neg.
    destruct (div_nanoseconds pn ltac:(lia)) as (mq & eq & Hq & _).
    change (Float64.of_Z 1000000000) with (S754_finite false 8388608000000000 (-23)) in Hq.
    destruct (Hfin pn ltac:(change (2 ^ 34) with 17179869184; lia)) as (m & e & Hp).
    rewrite Hp in *. cbn [SFopp negb]. rewrite SFdiv_opp, Hq. cbn [SFopp negb].
    replace (Float64.add (Float64.of_Z 0) (S754_finite true mq eq))
      with (S754_finite true mq eq) by reflexivity.
    replace (Float64.add (Float64.of_Z 0) (S754_finite false mq eq))
      with (S754_finite false mq eq) by reflexivity.
    intros _ H0. now apply to_int64_opp.
  - change (- Z.pos pn) with (Z.neg pn). change (- Z.pos ps) with (Z.neg ps).
    rewrite !of_Z_neg.
    destruct (div_nanoseconds pn ltac:(lia)) as (mq & eq & Hq & _).
    change (Float64.of_Z 1000000000) with (S754_finite false 8388608000000000 (-23)) in Hq.
    destruct (Hfin pn ltac:(change (2 ^ 34) with 17179869184; lia)) as (m1 & e1 & Hp).
    destruct (Hfin ps ltac:(lia)) as (m & e & Hs).
    rewrite Hp, Hs in *. cbn [SFopp negb]. rewrite SFdiv_opp, Hq. cbn [SFopp negb].
    rewrite SFadd_opp.
    intros [Hf|(m' & e' & Hf)]; rewrite Hf; cbn [SFopp negb]; intros H0;
      [reflexivity|now apply to_int64_opp].
Qed.

(** [int64(d.Seconds())] for a duration [d]: the whole seconds of [d],
    counted toward zero, or one further from zero; and exactly the whole
    seconds when [d] is under 2^24 seconds. *)
Lemma whole_seconds_spec d :
  Int64.in_range d ->
  let s := Z.quot d time.Second in
  (0 <= d -> s <= time.whole_seconds d <= s + 1)
  /\ (d <= 0 -> s - 1 <= time.whole_seconds d <= s)
  /\ (Z.abs d < 2 ^ 24 * time.Second \/ Z.rem d time.Second = 0 ->
      time.whole_seconds d = s).
Proof.
  intros Hd s. unfold Int64.in_range, Int64.min_int, Int64.max_int in Hd.
  destruct (Z.le_gt_cases 0 d) as [Hpos|Hneg].
  - destruct (Seconds_nonneg d ltac:(lia)) as (_ & Hb & H24).
    unfold s. rewrite Z.quot_div_nonneg by (unfold time.Second; lia).
    split; [intros _; exact Hb|]. split.
    + intros H0. rewrite H24 by (left; unfold time.Second; lia). lia.
    + intros Ha. apply H24.
      rewrite Z.rem_mod_nonneg in Ha by (unfold time.Second; lia). lia.
  - set (d' := - d). assert (Hd' : 0 < d' <= 2 ^ 63) by (unfold d'; lia).
    destruct (Seconds_nonneg d' ltac:(lia)) as (_ & Hb & H24).
    pose proof (whole_seconds_opp d' Hd') as Hopp.
    replace (- d') with d in Hopp by (unfold d'; lia).
    assert (Hs : s = - (d' / time.Second)).
    { unfold s. replace d with (- d') by (unfold d'; lia).
      rewrite Z.quot_opp_l by (unfold time.Second; lia).
      rewrite Z.quot_div_nonneg by (unfold time.Second; lia). reflexivity. }
    rewrite Hopp, Hs. split; [lia|]. split; [lia|].
    intros Ha. rewrite H24; [reflexivity|].
    destruct Ha as [Ha|Ha]; [left; lia|right].
    replace d with (- d') in Ha by (unfold d'; lia).
    rewrite Z.rem_opp_l in Ha by (unfold time.Second; lia).
    rewrite Z.rem_mod_nonneg in Ha by (unfold time.Second; lia). lia.
Qed.

Lemma whole_seconds_bound d :
  Int64.in_range d -> - 9223372038 < time.whole_seconds d < 9223372038.
Proof.
  intros Hd. pose proof (whole_seconds_spec d Hd) as (Hp & Hn & _).
  cbv zeta in Hp, Hn.
  assert (- 9223372037 < d ÷ time.Second < 9223372037).
  { unfold time.Second. unfold Int64.in_range, Int64.min_int, Int64.max_int in Hd.
    change (2 ^ 63) with 9223372036854775808 in Hd.
    Z.to_euclidean_division_equations. lia. }
  destruct (Z.le_gt_cases 0 d); [specialize (Hp ltac:(lia))|specialize (Hn ltac:(lia))]; lia.
Qed.

Ltac int64_numerals :=
  unfold Int64.in_range, Int64.min_int, Int64.max_int in *;
  change (2 ^ 63) with 9223372036854775808 in *.


Lemma Sub_in_range t u : Int64.in_range (time.Sub t u).
Proof.
  unfold time.Sub.
  destruct (_ <? _) eqn:H1; [int64_numerals; lia|].
  destruct (_ <? t - u) eqn:H2; [int64_numerals; lia|].
  apply Z.ltb_ge in H1, H2. int64_numerals. lia.
Qed.

(** With a recorded baseline and positions the control surface can report,
    [DetectSeek] compares the reading with the last position plus the whole
    seconds elapsed. *)
Lemma DetectSeek_whole_seconds s now a :
  time.IsZero (player.lastPositionUpdate s) = false ->
  position_ok (player.lastPositionSecs s) -> position_ok a ->
  player.DetectSeek s now a = true
  <-> Z.abs (a - (player.lastPositionSecs s
                  + time.whole_seconds (time.Since now (player.lastPositionUpdate s)))) > 3.
Proof.
  intros Hz Hp Ha. unfold player.DetectSeek. rewrite Hz.
  set (w := time.whole_seconds (time.Since now (player.lastPositionUpdate s))).
  assert (Hw : - 9223372038 < w < 9223372038)
    by (apply whole_seconds_bound, Sub_in_range).
  unfold position_ok in *.
  assert (Hm : Int64.max_int / 1000000 = 9223372036854) by reflexivity.
  rewrite Hm in *.
  unfold Int64.add, Int64.sub, Int64.neg.
  rewrite (wrap_in_range (player.lastPositionSecs s + w))
    by (int64_numerals; lia).
  rewrite (wrap_in_range (a - _)) by (int64_numerals; lia).
  destruct (_ <? 0) eqn:Hneg.
  - apply Z.ltb_lt in Hneg.
    rewrite wrap_in_range by (int64_numerals; lia).
    rewrite Z.gtb_ltb, Z.ltb_lt. lia.
  - apply Z.ltb_ge in Hneg. rewrite Z.gtb_ltb, Z.ltb_lt. lia.
Qed.

(** C7, as the code has it.  With a recorded baseline (last position p0 at
    instant t0) and positions the control surface can report, a reading a at
    instant t0 + d is a seek if and only if |a - (p0 + s)| > 3, where s is
    [int64(d.Seconds())]: the elapsed time in binary64 seconds, cut down to
    an integer.  For an elapsed time under 2^24 seconds (194 days), and for
    any whole number of seconds, s is d cut down to whole seconds; beyond, s
    is that or one second further, as the binary64 sum rounds (at
    16777216.999999999 s it is 16777217).  When d is a whole number of
    seconds the test is |a - (p0 + d)| > 3 s.  With p0 = 10 s and d = 5 s, a
    reading of 16 s is no seek and a reading of 25 s is one. *)
Theorem DetectSeek_threshold s now a :
  time.IsZero (player.lastPositionUpdate s) = false ->
  position_ok (player.lastPositionSecs s) -> position_ok a ->
  let d := time.Since now (player.lastPositionUpdate s) in
  (player.DetectSeek s now a = true
   <-> Z.abs (a - (player.lastPositionSecs s + time.whole_seconds d)) > 3)
  /\ (Z.abs d < 2 ^ 24 * time.Second \/ Z.rem d time.Second = 0 ->
      time.whole_seconds d = Z.quot d time.Second)
  /\ (0 <= d -> Z.quot d time.Second <= time.whole_seconds d <= Z.quot d time.Second + 1)
  /\ (d <= 0 -> Z.quot d time.Second - 1 <= time.whole_seconds d <= Z.quot d time.Second)
  /\ time.whole_seconds 16777216999999999 = 16777217
  /\ (Z.rem d time.Second = 0 ->
      (player.DetectSeek s now a = true
       <-> deviates_exactly (player.lastPositionSecs s) d a))
  /\ (forall t0, t0 <> time.zero ->
        player.DetectSeek (baseline_state t0) (t0 + 5 * time.Second) 16 = false
        /\ player.DetectSeek (baseline_state t0) (t0 + 5 * time.Second) 25 = true).
Proof.
  intros Hz Hp Ha d.
  pose proof (whole_seconds_spec d (Sub_in_range _ _)) as (Hpos & Hneg & Hex).
  cbv zeta in Hpos, Hneg, Hex.
  split; [|split; [|split; [|split; [|split; [|split]]]]].
  - now apply DetectSeek_whole_seconds.
  - exact Hex.
  - exact Hpos.
  - exact Hneg.
  - vm_compute. reflexivity.
  - intros Hrem. rewrite (DetectSeek_whole_seconds s now a Hz Hp Ha). fold d.
    rewrite (Hex (or_intror Hrem)).
    unfold deviates_exactly, time.Second in *.
    pose proof (Z.quot_rem' d 1000000000) as Hq. rewrite Hrem in Hq.
    set (q := d ÷ 1000000000) in *. lia.
  - intros t0 Ht0.
    assert (Hs : time.Since (t0 + 5 * time.Second) t0 = 5 * time.Second).
    { unfold time.Since, time.Sub. replace (t0 + 5 * time.Second - t0)
        with (5 * time.Second) by lia. reflexivity. }
    unfold player.DetectSeek, baseline_state. simpl.
    rewrite Hs. unfold time.IsZero.
    destruct (t0 =? 0) eqn:E; [apply Z.eqb_eq in E; contradiction|].
    split; vm_compute; reflexivity.
Qed.

Lemma position_ok_small p : 0 <= p <= 1000 -> position_ok p.
Proof.
  intros Hp. unfold position_ok.
  change (Int64.max_int / 1000000) with 9223372036854. lia.
Defined.

Lemma DetectSeek_threshold_witness :
  player.DetectSeek (baseline_state sample_instant)
    (sample_instant + 5900000000) 19 = true
  <-> Z.abs (19 - (10 + 5)) > 3.
Proof.
  destruct (DetectSeek_threshold (baseline_state sample_instant)
              (sample_instant + 5900000000) 19) as (H1 & _).
  - reflexivity.
  - apply position_ok_small. simpl. lia.
  - apply position_ok_small. lia.
  - assert (E : time.whole_seconds
                  (time.Since (sample_instant + 5900000000)
                     (player.lastPositionUpdate (baseline_state sample_instant))) = 5)
      by (vm_compute; reflexivity).
    rewrite E in H1. exact H1.
Defined.

(** Against C7 as stated: 5.9 s after a baseline of 10 s, a reading of 12 s
    is 3.9 s away from the expected 15.9 s, yet [DetectSeek] answers false:
    it expects 10 + 5 = 15 and finds a difference of exactly 3. *)
Lemma DetectSeek_exact_elapsed_counterexample :
  let s := baseline_state sample_instant in
  let now := sample_instant + 5900000000 in
  ~ (player.DetectSeek s now 12 = true
     <-> deviates_exactly (player.lastPositionSecs s)
           (time.Since now (player.lastPositionUpdate s)) 12).
Proof.
  intros s now [_ H].
  assert (Hd : deviates_exactly (player.lastPositionSecs s)
                 (time.Since now (player.lastPositionUpdate s)) 12)
    by (vm_compute; reflexivity).
  specialize (H Hd). vm_compute in H. discriminate H.
Qed.

(** C10. Without a recorded observation (the last-observed instant is the
    zero value) [DetectSeek] answers false for every position and clock
    reading.  The state of a service that [NewService] has just built is of
    that kind, so a [Poll] on it puts no seek event on the channel. *)
Theorem DetectSeek_no_baseline :
  (forall s now a,
     time.IsZero (player.lastPositionUpdate s) = true ->
     player.DetectSeek s now a = false)
  /\ (forall bus name svc,
        player.NewService bus name = Ok svc ->
        player.state svc = player.zeroState
        /\ player.eventChan svc = []
        /\ forall now a, player.DetectSeek (player.state svc) now a = false)
  /\ (forall bus name svc trk pos now1 now2,
        player.NewService bus name = Ok svc ->
        forall ev,
          In ev (player.eventChan (snd (player.Poll svc trk pos now1 now2))) ->
          player.Type_ ev <> player.EventSeeked).
Proof.
  assert (Hnew : forall bus name svc, player.NewService bus name = Ok svc ->
            svc = player.mkService name player.zeroState []).
  { intros bus name svc. unfold player.NewService.
    destruct bus; [discriminate|]. destruct (String.eqb name ""); [discriminate|].
    now intros [= <-]. }
  split; [|split].
  - intros s now a Hz. unfold player.DetectSeek. now rewrite Hz.
  - intros bus name svc Hsvc. rewrite (Hnew _ _ _ Hsvc). repeat split.
  - intros bus name svc trk pos now1 now2 Hsvc ev. rewrite (Hnew _ _ _ Hsvc).
    unfold player.Poll. destruct trk as [trk|e]; [|intros []].
    destruct pos as [pos|e]; [|intros []].
    cbn [player.state player.DetectSeek player.zeroState player.lastPositionUpdate
         time.IsZero time.zero Z.eqb player.state_Track track.IsSameTrack negb
         player.eventChan player.service].
    unfold player.emitEvent. simpl. intros [<-|[]]. discriminate.
Qed.

Lemma DetectSeek_no_baseline_witness :
  exists svc,
    player.NewService false "org.mpris.MediaPlayer2.spotify" = Ok svc
    /\ player.DetectSeek (player.state svc) sample_instant 25 = false.
Proof.
  destruct DetectSeek_no_baseline as (_ & H & _).
  eexists. split; [reflexivity|].
  refine (proj2 (proj2 (H false "org.mpris.MediaPlayer2.spotify" _ eq_refl)) _ _).
Defined.

(** * Further properties *)

(** ** The cache: deletion, persistence, failures *)

Lemma length_append (s1 s2 : string) :
  String.length (s1 ++ s2) = (String.length s1 + String.length s2)%nat.
Proof. induction s1 as [|c r IH]; simpl; [reflexivity|now rewrite IH]. Qed.

Lemma append_tmp_ne (s : string) : s ++ ".tmp" <> s.
Proof.
  intros Heq. apply (f_equal String.length) in Heq.
  rewrite length_append in Heq. simpl in Heq. lia.
Qed.

Lemma evicted_absent c key :
  cache.memCache c !! key = None -> evicted c key = c.
Proof.
  intros Hk. unfold evicted. rewrite delete_id by assumption. now destruct c.
Qed.

(** With nothing to return from the memory tier, [Get] answers from a
    valid, unexpired file. *)
Lemma Get_from_file `{UnicodeCase} c artist title e now1 now2 :
  artist <> "" -> title <> "" -> cache.basePath c <> "" ->
  mem_stale c (cache.generateKey artist title) now1 ->
  cache.files c !! cache.getFilePath c (cache.generateKey artist title)
    = Some (cache.Gob e) ->
  cache.Version e = cache.cacheVersion -> cache.ExpiresAt e > now2 ->
  let r := cache.Get c artist title now1 now2 in
  exists q, fst r = Ok q /\ cache.deref (snd r) q = e.
Proof.
  intros Ha Ht Hb Hst Hf Hv He r.
  set (key := cache.generateKey artist title) in *.
  unfold r. rewrite (Get_mem_stale c artist title now1 now2 Ha Ht Hst).
  fold key. rewrite (eqb_empty_false _ Hb).
  unfold cache.readFromDisk.
  change (cache.files (evicted c key)) with (cache.files c).
  rewrite Hf, Hv. simpl.
  pose proof (alloc_deref (evicted c key) e) as Hd.
  unfold cache.alloc in Hd |- *. simpl in Hd |- *. rewrite Hd.
  assert (Hle : (cache.ExpiresAt e <=? now2) = false) by (apply Z.leb_gt; lia).
  rewrite Hle. simpl. eexists. split; [reflexivity|exact Hd].
Qed.

(** X1. [Delete] of a non-empty artist and title always drops the entry
    from the memory tier.  When the file can be removed (or there is no file
    tier) it reports no error, the file is gone and a [Get] that follows is a
    cache miss that changes nothing.  When the removal fails, [Delete]
    returns that error and leaves the file, so a [Get] that follows still
    answers from a valid file. *)
Theorem Delete_then_Get `{UnicodeCase} c artist title remove_err now1 now2 :
  artist <> "" -> title <> "" ->
  let r := cache.Delete c artist title remove_err in
  let c' := snd r in
  let key := cache.generateKey artist title in
  let path := cache.getFilePath c key in
  cache.memCache c' !! key = None
  /\ (cache.basePath c = "" \/ remove_err = None ->
      fst r = None
      /\ cache.files c' !! path
         = (if String.eqb (cache.basePath c) "" then cache.files c !! path else None)
      /\ cache.Get c' artist title now1 now2 = (Err cache.ErrCacheMiss, c'))
  /\ (cache.basePath c <> "" ->
      forall err, remove_err = Some err ->
        fst r = Some err
        /\ cache.files c' = cache.files c
        /\ forall e,
             cache.files c !! path = Some (cache.Gob e) ->
             cache.Version e = cache.cacheVersion -> cache.ExpiresAt e > now2 ->
             exists q, fst (cache.Get c' artist title now1 now2) = Ok q
                       /\ cache.deref (snd (cache.Get c' artist title now1 now2)) q = e).
Proof.
  intros Ha Ht r c' key path.
  assert (Hr : r = if String.eqb (cache.basePath c) "" then (None, evicted c key)
                   else match remove_err with
                        | Some err => (Some err, evicted c key)
                        | None => (None, cache.os_Remove (evicted c key) path)
                        end).
  { unfold r, cache.Delete. rewrite (eqb_empty_false _ Ha), (eqb_empty_false _ Ht).
    simpl. fold key. reflexivity. }
  assert (Hmem : cache.memCache c' !! key = None).
  { unfold c'. rewrite Hr.
    destruct (String.eqb (cache.basePath c) ""), remove_err; simpl;
      apply lookup_delete_eq. }
  assert (Hb : cache.basePath c' = cache.basePath c).
  { unfold c'. rewrite Hr.
    now destruct (String.eqb (cache.basePath c) ""), remove_err. }
  assert (Hst : mem_stale c' key now1) by (unfold mem_stale; now rewrite Hmem).
  assert (Hp : cache.getFilePath c' key = path)
    by (unfold path, cache.getFilePath; now rewrite Hb).
  split; [exact Hmem|]. split.
  - intros Hok.
    assert (Hr' : r = if String.eqb (cache.basePath c) "" then (None, evicted c key)
                      else (None, cache.os_Remove (evicted c key) path)).
    { rewrite Hr. destruct Hok as [Hbase| ->]; [|reflexivity].
      now rewrite Hbase. }
    split; [rewrite Hr'; now destruct (String.eqb (cache.basePath c) "")|].
    split.
    + unfold c'. rewrite Hr'. destruct (String.eqb (cache.basePath c) ""); simpl;
        [reflexivity|apply lookup_delete_eq].
    + rewrite (Get_mem_stale c' artist title now1 now2 Ha Ht Hst).
      fold key. rewrite (evicted_absent c' key Hmem), Hb, Hp.
      destruct (String.eqb (cache.basePath c) "") eqn:Hbase; [reflexivity|].
      unfold cache.readFromDisk. unfold c' at 1. rewrite Hr'. simpl.
      now rewrite lookup_delete_eq.
  - intros Hbase err ->.
    assert (Hr' : r = (Some err, evicted c key))
      by (rewrite Hr; now rewrite (eqb_empty_false _ Hbase)).
    split; [now rewrite Hr'|]. split; [unfold c'; now rewrite Hr'|].
    intros e Hf Hv He.
    apply Get_from_file; try assumption.
    + now rewrite Hb.
    + fold key. rewrite Hp. unfold c'. now rewrite Hr'.
Qed.

Lemma Delete_then_Get_witness :
  cache.Get (H := ascii_case)
    (snd (cache.Delete (H := ascii_case) disk_sample "Abc" "X" None)) "Abc" "X" 1000 1000
  = (Err cache.ErrCacheMiss,
     snd (cache.Delete (H := ascii_case) disk_sample "Abc" "X" None)).
Proof.
  destruct (Delete_then_Get (H := ascii_case) disk_sample "Abc" "X" None
              1000 1000) as (_ & H2 & _); [discriminate|discriminate|].
  destruct H2 as (_ & _ & H3); [now right|exact H3].
Defined.

(** X2. The write is atomic at the destination path: whatever step of
    [writeToDisk] fails, the destination holds what it held before, and on
    success it holds the complete new record; no other path than the
    destination and its temporary file is touched, and neither is the memory
    tier. *)
Theorem writeToDisk_atomic c filePath p fault :
  let r := cache.writeToDisk c filePath p fault in
  (fst r = None <-> fault = cache.NoFault)
  /\ (fst r = None ->
      cache.files (snd r) !! filePath = Some (cache.Gob (cache.deref c p)))
  /\ (fst r <> None -> cache.files (snd r) !! filePath = cache.files c !! filePath)
  /\ (forall path, path <> filePath -> path <> filePath ++ ".tmp" ->
        cache.files (snd r) !! path = cache.files c !! path)
  /\ cache.memCache (snd r) = cache.memCache c
  /\ cache.heap (snd r) = cache.heap c.
Proof.
  intros r. unfold r, cache.writeToDisk. pose proof (append_tmp_ne filePath) as Hne.
  split; [destruct fault; simpl; split; congruence|].
  split; [destruct fault; simpl; try discriminate; intros _; apply lookup_insert_eq|].
  split.
  - destruct fault; simpl; intros Herr; try congruence;
      rewrite ?lookup_delete_ne, ?lookup_insert_ne by congruence; reflexivity.
  - split; [|destruct fault; split; reflexivity].
    intros path H1 H2. destruct fault; simpl;
      rewrite ?lookup_insert_ne, ?lookup_delete_ne by congruence; reflexivity.
Qed.

Lemma Get_after_reopen `{UnicodeCase} c artist title e now1 now2 :
  artist <> "" -> title <> "" -> cache.basePath c <> "" ->
  cache.files c !! cache.getFilePath c (cache.generateKey artist title)
    = Some (cache.Gob e) ->
  cache.Version e = cache.cacheVersion -> cache.ExpiresAt e > now2 ->
  let r := cache.Get (reopened c) artist title now1 now2 in
  exists q, fst r = Ok q /\ cache.deref (snd r) q = e
    /\ cache.memCache (snd r) !! cache.generateKey artist title = Some q.
Proof.
  intros Ha Ht Hb Hf Hv He r.
  set (key := cache.generateKey artist title) in *.
  assert (Hst : mem_stale (reopened c) key now1)
    by (unfold mem_stale, reopened; simpl; now rewrite lookup_empty).
  unfold r. rewrite (Get_mem_stale (reopened c) artist title now1 now2 Ha Ht Hst).
  fold key. rewrite (evicted_absent (reopened c) key) by apply lookup_empty.
  change (cache.basePath (reopened c)) with (cache.basePath c).
  rewrite (eqb_empty_false _ Hb).
  change (cache.getFilePath (reopened c) key) with (cache.getFilePath c key).
  unfold cache.readFromDisk. change (cache.files (reopened c)) with (cache.files c).
  rewrite Hf, Hv. simpl.
  pose proof (alloc_deref (reopened c) e) as Hd. unfold cache.alloc in Hd. simpl in Hd.
  unfold cache.alloc. simpl. rewrite Hd.
  assert (Hle : (cache.ExpiresAt e <=? now2) = false) by (apply Z.leb_gt; lia).
  rewrite Hle. simpl. eexists. split; [reflexivity|]. split; [exact Hd|].
  apply lookup_insert_eq.
Qed.

(** X3. What [Set] wrote survives the process: after a successful [Set], a
    cache opened anew on the same directory, with an empty memory tier,
    answers [Get] from the file with the entry as [Set] stamped it, as long
    as the TTL has not run out, and promotes it into its memory tier. *)
Theorem Set_persists_across_reopen `{UnicodeCase} c artist title p now now1 now2 :
  artist <> "" -> title <> "" -> cache.basePath c <> "" ->
  clock_ok now -> now2 < now + ttl_seconds ->
  let c1 := snd (cache.Set_ c artist title (Some p) now cache.NoFault) in
  let r := cache.Get (reopened c1) artist title now1 now2 in
  exists q, fst r = Ok q
    /\ cache.deref (snd r) q = cache.stamp (cache.deref c p) now
    /\ cache.memCache (snd r) !! cache.generateKey artist title = Some q.
Proof.
  intros Ha Ht Hb Hc Hnow c1 r.
  destruct (Set_memory c artist title p now cache.NoFault Ha Ht) as (Hm & Hh & Hbp).
  fold c1 in Hm, Hh, Hbp.
  assert (Hd : cache.deref c1 p = cache.stamp (cache.deref c p) now).
  { unfold cache.deref at 1. rewrite Hh. apply lookup_total_insert_eq. }
  pose proof (Set_writes_file c artist title p now Ha Ht Hb) as Hw.
  cbv zeta in Hw. fold c1 in Hw. rewrite Hd in Hw.
  assert (Hp : cache.getFilePath c1 (cache.generateKey artist title)
               = cache.getFilePath c (cache.generateKey artist title))
    by (unfold cache.getFilePath; now rewrite Hbp).
  rewrite <- Hp in Hw.
  apply (Get_after_reopen c1 artist title _ now1 now2 Ha Ht); try assumption.
  - now rewrite Hbp.
  - reflexivity.
  - rewrite stamp_ExpiresAt by assumption. lia.
Qed.

Lemma Set_persists_across_reopen_witness :
  let c1 := snd (cache.Set_ (H := ascii_case) sample_cache "Abc" "X"
                   (Some 1%positive) 1700000000 cache.NoFault) in
  exists q,
    fst (cache.Get (H := ascii_case) (reopened c1) "Abc" "X" 1700000100 1700000100) = Ok q
    /\ cache.PlainLyrics
         (cache.deref (snd (cache.Get (H := ascii_case) (reopened c1) "Abc" "X"
                              1700000100 1700000100)) q) = "la la".
Proof.
  cbv zeta.
  destruct (Set_persists_across_reopen (H := ascii_case) sample_cache "Abc" "X"
              1%positive 1700000000 1700000100 1700000100) as (q & Hq & Hd & _).
  - discriminate.
  - discriminate.
  - discriminate.
  - exact clock_ok_sample.
  - unfold ttl_seconds. lia.
  - exists q. split; [exact Hq|].
    exact (eq_trans (f_equal cache.PlainLyrics Hd) eq_refl).
Defined.

Lemma writeToDisk_atomic_witness :
  let r := cache.writeToDisk disk_sample "/c/336591ab7e90f75ec33592d6.bin" 1%positive
             (cache.SyncFails (ErrNew "sync: input/output error")) in
  cache.files (snd r) !! "/c/336591ab7e90f75ec33592d6.bin" = Some (cache.Gob disk_entry).
Proof.
  cbv zeta.
  destruct (writeToDisk_atomic disk_sample "/c/336591ab7e90f75ec33592d6.bin" 1%positive
              (cache.SyncFails (ErrNew "sync: input/output error")))
    as (_ & _ & H & _).
  rewrite H; [reflexivity|discriminate].
Defined.

(** X4. Degraded mode: a cache without a directory ([basePath] empty, as the
    fallback of [GetGlobalCache]) works from memory alone.  [Set] of a valid
    entry reports no error; [Set], [Get] and [Delete] leave the files alone;
    and the only error [Get] reports is a cache miss. *)
Theorem degraded_mode_memory_only `{UnicodeCase} c artist title :
  cache.basePath c = "" ->
  (forall p now fault,
     artist <> "" -> title <> "" ->
     fst (cache.Set_ c artist title (Some p) now fault) = None)
  /\ (forall entry now fault,
        cache.files (snd (cache.Set_ c artist title entry now fault)) = cache.files c)
  /\ (forall now1 now2,
        cache.files (snd (cache.Get c artist title now1 now2)) = cache.files c
        /\ forall e, fst (cache.Get c artist title now1 now2) = Err e ->
             e = cache.ErrCacheMiss)
  /\ (forall remove_err,
        cache.files (snd (cache.Delete c artist title remove_err)) = cache.files c
        /\ (artist <> "" -> title <> "" ->
            fst (cache.Delete c artist title remove_err) = None))
  /\ cache.basePath cache.memoryOnly = "".
Proof.
  intros Hb. split; [|split; [|split; [|split]]].
  - intros p now fault Ha Ht. unfold cache.Set_.
    rewrite (eqb_empty_false _ Ha), (eqb_empty_false _ Ht). simpl. now rewrite Hb.
  - intros entry now fault. unfold cache.Set_. destruct entry as [p|]; [|reflexivity].
    destruct (_ || _); [reflexivity|]. simpl. now rewrite Hb.
  - intros now1 now2. unfold cache.Get.
    destruct (_ || _); [split; [reflexivity|now intros e [= <-]]|].
    destruct (cache.memCache c !! _) as [p|].
    + destruct (_ >? now1); simpl; rewrite ?Hb; simpl;
        (split; [reflexivity|]); [discriminate|now intros e [= <-]].
    + rewrite Hb. simpl. split; [reflexivity|now intros e [= <-]].
  - intros remove_err. split.
    + unfold cache.Delete. destruct (_ || _); [reflexivity|]. simpl. now rewrite Hb.
    + intros Ha Ht. unfold cache.Delete.
      rewrite (eqb_empty_false _ Ha), (eqb_empty_false _ Ht). simpl. now rewrite Hb.
  - reflexivity.
Qed.

Lemma degraded_mode_memory_only_witness :
  fst (cache.Set_ (H := ascii_case) cache.memoryOnly "Abc" "X" (Some 1%positive)
         1700000000 (cache.CreateFails (ErrNew "no such directory"))) = None.
Proof.
  refine (proj1 (degraded_mode_memory_only (H := ascii_case) cache.memoryOnly
                   "Abc" "X" eq_refl) _ _ _ _ _); discriminate.
Defined.

Lemma Get_hit_in_memory `{UnicodeCase} c artist title now1 now2 q c' :
  cache.Get c artist title now1 now2 = (Ok q, c') ->
  artist <> "" /\ title <> ""
  /\ cache.memCache c' !! cache.generateKey artist title = Some q.
Proof.
  unfold cache.Get.
  destruct (String.eqb artist "") eqn:Ea; [discriminate|].
  destruct (String.eqb title "") eqn:Et; [discriminate|]. simpl.
  apply String.eqb_neq in Ea, Et. intros Hget. split; [exact Ea|]. split; [exact Et|].
  revert Hget.
  assert (Hdisk : forall c1,
    (if String.eqb (cache.basePath c1) "" then (Err cache.ErrCacheMiss, c1)
     else match cache.readFromDisk c1 (cache.getFilePath c1 (cache.generateKey artist title)) with
          | (Err err, c2) => (Err err, c2)
          | (Ok entry, c2) =>
              if cache.ExpiresAt (cache.deref c2 entry) <=? now2
              then (Err cache.ErrCacheExpired,
                    cache.os_Remove c2 (cache.getFilePath c1 (cache.generateKey artist title)))
              else (Ok entry, cache.set_memCache c2
                      (<[cache.generateKey artist title := entry]> (cache.memCache c2)))
          end) = (Ok q, c') ->
    cache.memCache c' !! cache.generateKey artist title = Some q).
  { intros c1. destruct (String.eqb (cache.basePath c1) ""); [discriminate|].
    destruct (cache.readFromDisk c1 _) as [[p|e] c2]; [|discriminate].
    destruct (_ <=? now2); [discriminate|].
    intros [= <- <-]. simpl. apply lookup_insert_eq. }
  destruct (cache.memCache c !! _) as [p|] eqn:Hp.
  - destruct (_ >? now1); [|apply Hdisk]. now intros [= <- <-].
  - apply Hdisk.
Qed.

(** X5. Asking again.  A hit is repeatable: the entry [Get] returned is in
    the memory tier, so the next [Get] returns the same pointer as long as it
    has not expired.  After [Get] has met an expired file, or one of another
    version, the file is gone and the next [Get] is a plain miss.  An
    undecodable file is left in place by [Get], which reports it as corrupt
    each time. *)
Theorem Get_again `{UnicodeCase} c artist title now1 now2 now1' now2' :
  let key := cache.generateKey artist title in
  let path := cache.getFilePath c key in
  let r := cache.Get c artist title now1 now2 in
  (forall q, fst r = Ok q ->
     cache.ExpiresAt (cache.deref (snd r) q) > now1' ->
     cache.Get (snd r) artist title now1' now2' = (Ok q, snd r))
  /\ (artist <> "" -> title <> "" -> cache.basePath c <> "" ->
      mem_stale c key now1 ->
      (forall e, cache.files c !! path = Some (cache.Gob e) ->
         cache.Version e <> cache.cacheVersion
         \/ cache.ExpiresAt e <= now2 ->
         (fst r = Err cache.ErrCacheCorrupt \/ fst r = Err cache.ErrCacheExpired)
         /\ cache.Get (snd r) artist title now1' now2'
            = (Err cache.ErrCacheMiss, snd r))
      /\ (cache.files c !! path = Some cache.Garbage ->
          fst r = Err cache.ErrCacheCorrupt
          /\ cache.files (snd r) !! path = Some cache.Garbage
          /\ cache.Get (snd r) artist title now1' now2'
             = (Err cache.ErrCacheCorrupt, snd r))).
Proof.
  intros key path r. split.
  - intros q Hq Hexp. destruct r as [r1 c'] eqn:Hr. simpl in Hq, Hexp |- *. subst r1.
    destruct (Get_hit_in_memory c artist title now1 now2 q c' Hr) as (Ha & Ht & Hm).
    now apply Get_mem_hit.
  - intros Ha Ht Hb Hst.
    pose proof (Get_mem_stale c artist title now1 now2 Ha Ht Hst) as Hget.
    cbv zeta in Hget. fold key path r in Hget. rewrite (eqb_empty_false _ Hb) in Hget.
    assert (Hmiss : forall c2,
      cache.basePath c2 = cache.basePath c ->
      cache.memCache c2 !! key = None ->
      cache.files c2 !! path = None ->
      cache.Get c2 artist title now1' now2' = (Err cache.ErrCacheMiss, c2)).
    { intros c2 Hb2 Hm2 Hf2.
      assert (Hst2 : mem_stale c2 key now1') by (unfold mem_stale; now rewrite Hm2).
      rewrite (Get_mem_stale c2 artist title now1' now2' Ha Ht Hst2).
      fold key. rewrite (evicted_absent c2 key Hm2), Hb2, (eqb_empty_false _ Hb).
      unfold cache.readFromDisk.
      replace (cache.getFilePath c2 key) with path
        by (unfold path, cache.getFilePath; now rewrite Hb2).
      now rewrite Hf2. }
    split.
    + intros e Hf Hbad. revert Hget. unfold cache.readFromDisk.
      change (cache.files (evicted c key)) with (cache.files c). rewrite Hf.
      destruct (Z.eq_dec (cache.Version e) cache.cacheVersion) as [Hv|Hv].
      * destruct Hbad as [Hbad|Hle]; [contradiction|].
        rewrite Hv. simpl.
        pose proof (alloc_deref (evicted c key) e) as Hd.
        unfold cache.alloc in Hd. simpl in Hd. unfold cache.alloc. simpl.
        rewrite Hd. apply Z.leb_le in Hle. rewrite Hle.
        intros ->. simpl. split; [now right|].
        apply Hmiss; simpl; [reflexivity|apply lookup_delete_eq|apply lookup_delete_eq].
      * apply Z.eqb_neq in Hv. rewrite Hv. simpl.
        intros ->. simpl. split; [now left|].
        apply Hmiss; simpl; [reflexivity|apply lookup_delete_eq|apply lookup_delete_eq].
    + intros Hf. revert Hget. unfold cache.readFromDisk.
      change (cache.files (evicted c key)) with (cache.files c). rewrite Hf.
      intros ->. simpl. split; [reflexivity|]. split; [exact Hf|].
      assert (Hm2 : cache.memCache (evicted c key) !! key = None)
        by (simpl; apply lookup_delete_eq).
      assert (Hst2 : mem_stale (evicted c key) key now1')
        by (unfold mem_stale; now rewrite Hm2).
      rewrite (Get_mem_stale (evicted c key) artist title now1' now2' Ha Ht Hst2).
      fold key. rewrite (evicted_absent _ key Hm2).
      change (cache.basePath (evicted c key)) with (cache.basePath c).
      rewrite (eqb_empty_false _ Hb). unfold cache.readFromDisk.
      change (cache.getFilePath (evicted c key) key) with path.
      change (cache.files (evicted c key)) with (cache.files c).
      now rewrite Hf.
Qed.

Lemma Get_again_witness :
  let r := cache.Get (H := ascii_case) disk_sample "Abc" "X" 3000 3000 in
  fst r = Err cache.ErrCacheExpired
  /\ cache.Get (H := ascii_case) (snd r) "Abc" "X" 3001 3001
     = (Err cache.ErrCacheMiss, snd r).
Proof.
  cbv zeta.
  destruct (Get_again (H := ascii_case) disk_sample "Abc" "X" 3000 3000 3001 3001)
    as (_ & H2).
  destruct H2 as (H3 & _); [discriminate|discriminate|discriminate|exact I|].
  destruct (H3 disk_entry) as ([Hc|He] & Hnext).
  - vm_compute. reflexivity.
  - right. vm_compute. discriminate.
  - vm_compute in Hc. discriminate Hc.
  - split; [exact He|exact Hnext].
Defined.

(** ** The resolver: candidates and requests *)

Section CandidateFacts.
Context `{UnicodeCase}.

(** What [deduplicate] keeps: strategies of the input, in their order, with
    artist and title, whose keys are new and pairwise different; and every
    strategy with artist and title has its key among the seen or the kept. *)
Lemma deduplicate_spec l :
  forall seen : gset string,
    let out := lyrics.deduplicate seen l in
    sublist out l
    /\ NoDup (lyrics.strategy_key <$> out)
    /\ (forall s, s ∈ out ->
          lyrics.artist s <> "" /\ lyrics.title s <> "" /\ lyrics.strategy_key s ∉ seen)
    /\ (forall s, s ∈ l -> lyrics.artist s <> "" -> lyrics.title s <> "" ->
          lyrics.strategy_key s ∈ seen
          \/ lyrics.strategy_key s ∈ (lyrics.strategy_key <$> out)).
Proof.
  induction l as [|x rest IH]; intros seen out.
  - unfold out. simpl. split; [constructor|]. split; [constructor|].
    split; intros s Hs; inversion Hs.
  - unfold out. clear out. cbn [lyrics.deduplicate].
    destruct (String.eqb (lyrics.artist x) "" || String.eqb (lyrics.title x) "") eqn:Hemp.
    + destruct (IH seen) as (Hsub & Hnd & Hin & Hall).
      split; [now apply sublist_cons|]. split; [exact Hnd|]. split; [exact Hin|].
      intros s Hs Ha Ht. apply elem_of_cons in Hs as [->|Hs]; [|now apply Hall].
      rewrite (eqb_empty_false _ Ha), (eqb_empty_false _ Ht) in Hemp. discriminate.
    + apply orb_false_elim in Hemp as [Ea Et]. apply String.eqb_neq in Ea, Et.
      destruct (decide (lyrics.strategy_key x ∈ seen)) as [Hseen|Hnew].
      * destruct (IH seen) as (Hsub & Hnd & Hin & Hall).
        split; [now apply sublist_cons|]. split; [exact Hnd|]. split; [exact Hin|].
        intros s Hs Ha Ht. apply elem_of_cons in Hs as [->|Hs]; [now left|now apply Hall].
      * destruct (IH ({[lyrics.strategy_key x]} ∪ seen)) as (Hsub & Hnd & Hin & Hall).
        split; [now apply sublist_skip|]. split.
        { rewrite fmap_cons. apply NoDup_cons. split; [|exact Hnd].
          intros Hx. apply list_elem_of_fmap in Hx as (s & Hk & Hs).
          destruct (Hin s Hs) as (_ & _ & Hns). apply Hns. rewrite <- Hk. set_solver. }
        split.
        { intros s Hs. apply elem_of_cons in Hs as [->|Hs]; [now repeat split|].
          destruct (Hin s Hs) as (Ha & Ht & Hns). repeat split; try assumption.
          set_solver. }
        intros s Hs Ha Ht. rewrite fmap_cons.
        apply elem_of_cons in Hs as [->|Hs]; [right; now left|].
        destruct (Hall s Hs Ha Ht) as [Hk|Hk]; [|right; now right].
        apply elem_of_union in Hk as [Hk|Hk]; [|now left].
        apply elem_of_singleton in Hk. right. rewrite Hk. now left.
Qed.

(** X6. The candidates of a query: at most eight, taken from the eight
    strategies in their order, each with a non-empty artist and title, no two
    with the same (artist, title, album, duration) key, hence no two equal;
    and every strategy with artist and title is represented, by its key. *)
Theorem uniqueStrategies_distinct (track : lyrics.TrackParams) :
  let u := lyrics.uniqueStrategies track in
  sublist u (lyrics.searchStrategies track)
  /\ (length u <= 8)%nat
  /\ NoDup (lyrics.strategy_key <$> u)
  /\ NoDup u
  /\ (forall s, s ∈ u -> lyrics.artist s <> "" /\ lyrics.title s <> "")
  /\ (forall s, s ∈ lyrics.searchStrategies track ->
        lyrics.artist s <> "" -> lyrics.title s <> "" ->
        exists s', s' ∈ u /\ lyrics.strategy_key s' = lyrics.strategy_key s).
Proof.
  intros u.
  destruct (deduplicate_spec (lyrics.searchStrategies track) ∅) as (Hsub & Hnd & Hin & Hall).
  fold (lyrics.uniqueStrategies track) in Hsub, Hnd, Hin, Hall. fold u in Hsub, Hnd, Hin, Hall.
  split; [exact Hsub|]. split.
  { apply sublist_length in Hsub. exact Hsub. }
  split; [exact Hnd|]. split.
  { eapply NoDup_fmap_1, Hnd. }
  split.
  { intros s Hs. destruct (Hin s Hs) as (Ha & Ht & _). now split. }
  intros s Hs Ha Ht. destruct (Hall s Hs Ha Ht) as [Hk|Hk]; [set_solver|].
  apply list_elem_of_fmap in Hk as (s' & Hk & Hs'). exists s'. now split.
Qed.

End CandidateFacts.

Section RequestFacts.
Context `{UnicodeCase} `{NetURL}.
Variable env : lyrics.Env.

Lemma fetch_loop_requests_bound track strategies :
  forall idx u lastErr c,
    (length (lyrics.requests (lyrics.fetch_loop env track idx strategies u lastErr c))
     <= length strategies)%nat.
Proof.
  induction strategies as [|s rest IH]; intros idx u lastErr c.
  - cbn [lyrics.fetch_loop]. destruct lastErr; simpl; lia.
  - cbn [lyrics.fetch_loop].
    destruct (if (0 <? idx)%nat then lyrics.ctx_Err env idx else None); [simpl; lia|].
    destruct (lyrics.remote env idx _) as [payload|err].
    + destruct (lyrics.no_lyrics payload).
      * unfold lyrics.issued, lyrics.requests. simpl.
        specialize (IH (S idx) (lyrics.next_url u s)
                      (Some (ErrNew "no lyrics in response")) c).
        unfold lyrics.requests in IH. lia.
      * destruct (cache.alloc c _) as [p c1].
        destruct (cache.Set_ c1 _ _ _ _ _) as [w c2]. simpl. lia.
    + destruct (lyrics.isTimeoutError err); [simpl; lia|].
      unfold lyrics.issued, lyrics.requests. simpl.
      specialize (IH (S idx) (lyrics.next_url u s) (Some err) c).
      unfold lyrics.requests in IH. lia.
Qed.

(** X7. One call of [Fetch] issues at most one request per candidate, so
    never more than eight, whatever the remote answers. *)
Theorem Fetch_requests_bounded c baseURL otrack :
  let o := lyrics.Fetch env c baseURL otrack in
  (length (lyrics.requests o) <= 8)%nat
  /\ forall track, otrack = Some track ->
       (length (lyrics.requests o) <= length (lyrics.uniqueStrategies track))%nat.
Proof.
  intros o.
  destruct (Fetch_cases env c baseURL otrack) as [Hnil|(tr & u & c1 & Htr & Ho)];
    fold o in Hnil || fold o in Ho.
  - rewrite Hnil. simpl. split; [lia|]. intros; lia.
  - pose proof (fetch_loop_requests_bound tr (lyrics.uniqueStrategies tr) 0 u None c1) as Hb.
    rewrite <- Ho in Hb.
    destruct (uniqueStrategies_distinct tr) as (_ & Hlen & _).
    split; [lia|]. intros track Ht. rewrite Htr in Ht. injection Ht as <-. exact Hb.
Qed.

End RequestFacts.

Section FetchFacts.
Context `{UnicodeCase} `{NetURL}.
Variable env : lyrics.Env.

(** X8. An input that fails validation costs no request and no cache
    lookup or store: for a nil track, an empty title or artist, an empty
    base URL, or a title or artist that normalisation empties, [Fetch]
    answers with the error of the first check that fails, in that order,
    and leaves the cache as it was handed to it.  In the process, the first
    three checks come before the global cache is asked for, so they leave
    the variable as it is (on a first use nothing is built); an input that
    only the check of the normalised names rejects is rejected after
    [GetGlobalCache] has run, with the cache it handed out untouched. *)
Theorem Fetch_rejects_invalid c baseURL otrack :
  (otrack = None
   \/ exists track, otrack = Some track
        /\ (lyrics.Title track = "" \/ lyrics.Artist track = "" \/ baseURL = ""
            \/ lyrics.normalizeString (lyrics.Title track) = ""
            \/ lyrics.normalizeString (lyrics.Artist track) = "")) ->
  exists e,
    lyrics.Fetch env c baseURL otrack = (Err e, [], c)
    /\ (otrack = None -> e = ErrNew "nil track info")
    /\ (forall track, otrack = Some track ->
          (lyrics.Title track = "" \/ lyrics.Artist track = "" ->
           e = ErrNew "track title or artist is empty")
          /\ (lyrics.Title track <> "" -> lyrics.Artist track <> "" ->
              (baseURL = "" -> e = ErrNew "lrclib base url is empty")
              /\ (baseURL <> "" ->
                  e = ErrNew "track title or artist is empty after normalization")))
    /\ (forall globalCache built,
          let r := lyrics.Fetch_process env globalCache built baseURL otrack in
          fst r = (Err e, [])
          /\ (otrack = None
              \/ (exists track, otrack = Some track
                    /\ (lyrics.Title track = "" \/ lyrics.Artist track = ""
                        \/ baseURL = "")) ->
              snd r = globalCache)
          /\ (forall track, otrack = Some track ->
                lyrics.Title track <> "" -> lyrics.Artist track <> "" ->
                baseURL <> "" ->
                snd r = Some (fst (cache.GetGlobalCache globalCache built)))).
Proof.
  intros [->|(track & -> & Hbad)].
  { eexists. split; [reflexivity|]. split; [reflexivity|]. split; [discriminate|].
    intros g built r. split; [reflexivity|]. split; [reflexivity|discriminate]. }
  unfold lyrics.Fetch_process, lyrics.Fetch.
  destruct (String.eqb (lyrics.Title track) "") eqn:E1.
  { apply String.eqb_eq in E1. eexists. split; [reflexivity|].
    split; [discriminate|]. split.
    - intros ? [= <-]. split; [reflexivity|]. congruence.
    - intros g built. split; [reflexivity|]. split; [reflexivity|].
      intros ? [= <-]. congruence. }
  destruct (String.eqb (lyrics.Artist track) "") eqn:E2.
  { apply String.eqb_eq in E2. eexists. split; [reflexivity|].
    split; [discriminate|]. split.
    - intros ? [= <-]. split; [reflexivity|]. congruence.
    - intros g built. split; [reflexivity|]. split; [reflexivity|].
      intros ? [= <-]. congruence. }
  cbn [orb]. apply String.eqb_neq in E1, E2.
  destruct (String.eqb baseURL "") eqn:E3.
  { apply String.eqb_eq in E3. eexists. split; [reflexivity|].
    split; [discriminate|]. split.
    - intros ? [= <-].
      split; [intros [?|?]; contradiction|]. intros _ _. split; [reflexivity|congruence].
    - intros g built. split; [reflexivity|]. split; [reflexivity|].
      intros ? [= <-]. congruence. }
  apply String.eqb_neq in E3.
  assert (Hn : String.eqb (lyrics.normalizeString (lyrics.Title track)) ""
               || String.eqb (lyrics.normalizeString (lyrics.Artist track)) "" = true).
  { destruct Hbad as [?|[?|[?|[Hn|Hn]]]]; try contradiction;
      rewrite Hn; cbn; rewrite ?orb_true_r; reflexivity. }
  rewrite Hn. eexists. split; [reflexivity|].
  split; [discriminate|]. split.
  - intros ? [= <-].
    split; [intros [?|?]; contradiction|]. intros _ _. split; [contradiction|reflexivity].
  - intros g built. split; [reflexivity|]. split; [|reflexivity].
    intros [Hc|(tr & [= <-] & [?|[?|?]])]; [discriminate Hc|contradiction..].
Qed.

(** The loop stops at a delay during which the caller's context is done. *)
Lemma fetch_loop_cancelled track strategies :
  forall idx u lastErr c i e,
    (idx <= i)%nat -> (0 < i)%nat -> lyrics.ctx_Err env i = Some e ->
    let o := lyrics.fetch_loop env track idx strategies u lastErr c in
    (length (lyrics.requests o) <= i - idx)%nat
    /\ ((length (lyrics.requests o) = i - idx)%nat ->
        (i - idx < length strategies)%nat ->
        (forall j v, lyrics.requests o !! j = Some v ->
           match lyrics.remote env (idx + j) v with
           | Ok payload => lyrics.no_lyrics payload = true
           | Err err => lyrics.isTimeoutError err = false
           end) ->
        lyrics.answer o = Err e /\ lyrics.cache_after o = c).
Proof.
  induction strategies as [|s rest IH]; intros idx u lastErr c i e Hle Hpos Hctx o.
  - unfold o. cbn [lyrics.fetch_loop]. split.
    + destruct lastErr; simpl; lia.
    + simpl. lia.
  - unfold o. clear o. cbn [lyrics.fetch_loop].
    set (u' := lyrics.next_url u s).
    destruct (Nat.eq_dec idx i) as [->|Hne].
    + replace (0 <? i)%nat with true by (symmetry; apply Nat.ltb_lt; lia).
      rewrite Hctx. unfold lyrics.requests, lyrics.answer, lyrics.cache_after. simpl.
      split; [lia|]. intros _ _ _. now split.
    + assert (Hlt : (S idx <= i)%nat) by lia.
      destruct (if (0 <? idx)%nat then lyrics.ctx_Err env idx else None);
        [unfold lyrics.requests; simpl; split; [lia|]; intros Hl; simpl in Hl; lia|].
      destruct (lyrics.remote env idx u') as [payload|err] eqn:Hrem.
      * destruct (lyrics.no_lyrics payload) eqn:Hno.
        -- destruct (IH (S idx) u' (Some (ErrNew "no lyrics in response")) c i e
                       Hlt Hpos Hctx) as (Hb & Hans).
           unfold lyrics.issued, lyrics.requests, lyrics.answer, lyrics.cache_after in *.
           simpl. split; [lia|]. intros Hl Hs Hall. apply Hans; [lia|simpl in Hs; lia|].
           intros j v Hj. specialize (Hall (S j) v Hj).
           now replace (idx + S j)%nat with (S idx + j)%nat in Hall by lia.
        -- destruct (cache.alloc c _) as [p c1].
           destruct (cache.Set_ c1 _ _ _ _ _) as [w c2].
           unfold lyrics.requests, lyrics.answer, lyrics.cache_after. simpl.
           split; [lia|]. intros _ _ Hall. specialize (Hall 0%nat u' eq_refl).
           rewrite Nat.add_0_r, Hrem in Hall. congruence.
      * destruct (lyrics.isTimeoutError err) eqn:Hto.
        -- unfold lyrics.requests, lyrics.answer, lyrics.cache_after. simpl.
           split; [lia|]. intros _ _ Hall. specialize (Hall 0%nat u' eq_refl).
           rewrite Nat.add_0_r, Hrem in Hall. congruence.
        -- destruct (IH (S idx) u' (Some err) c i e Hlt Hpos Hctx) as (Hb & Hans).
           unfold lyrics.issued, lyrics.requests, lyrics.answer, lyrics.cache_after in *.
           simpl. split; [lia|]. intros Hl Hs Hall. apply Hans; [lia|simpl in Hs; lia|].
           intros j v Hj. specialize (Hall (S j) v Hj).
           now replace (idx + S j)%nat with (S idx + j)%nat in Hall by lia.
Qed.

(** X9. Cancellation: if the caller's context is done during the delay
    before candidate number i (counting from 0, i >= 1), no request is
    issued for that candidate or any later one; and when the i requests
    before it settled nothing (no lyrics, or a failure that is no timeout)
    and a candidate was left, [Fetch] answers with the context's error. *)
Theorem Fetch_cancelled_during_delay c baseURL track i e :
  (0 < i)%nat -> lyrics.ctx_Err env i = Some e ->
  let o := lyrics.Fetch env c baseURL (Some track) in
  (length (lyrics.requests o) <= i)%nat
  /\ ((length (lyrics.requests o) = i)%nat ->
      (i < length (lyrics.uniqueStrategies track))%nat ->
      (forall j v, lyrics.requests o !! j = Some v ->
         match lyrics.remote env j v with
         | Ok payload => lyrics.no_lyrics payload = true
         | Err err => lyrics.isTimeoutError err = false
         end) ->
      lyrics.answer o = Err e).
Proof.
  intros Hpos Hctx o.
  destruct (Fetch_cases env c baseURL (Some track)) as [Hnil|(tr & u & c1 & Htr & Ho)];
    fold o in Hnil || fold o in Ho.
  - rewrite Hnil. simpl. split; [lia|]. intros Hl. simpl in Hl. lia.
  - injection Htr as <-.
    destruct (fetch_loop_cancelled track (lyrics.uniqueStrategies track) 0 u None c1 i e
                ltac:(lia) Hpos Hctx) as (Hb & Hans).
    rewrite <- Ho in Hb, Hans. rewrite Nat.sub_0_r in Hb, Hans.
    split; [exact Hb|]. intros Hl Hs Hall. now apply Hans.
Qed.

Lemma response_of_entry_of payload now :
  lyrics.response_of (cache.stamp (lyrics.entry_of payload) now) = payload.
Proof. now destruct payload. Qed.

(** X10. Write-back: once a call of [Fetch] has accepted a response, the
    next call for the same artist and title, made before the TTL runs out,
    answers with that response from the cache, issues no request and leaves
    the cache as it is, whatever its remote would say and whatever happened
    to the file write of the first call. *)
Theorem Fetch_again_from_cache c baseURL track env' i v payload :
  let o := lyrics.Fetch env c baseURL (Some track) in
  lyrics.requests o !! i = Some v ->
  lyrics.remote env i v = Ok payload ->
  lyrics.no_lyrics payload = false ->
  clock_ok (lyrics.now_set env) ->
  lyrics.now_get_memory env' < lyrics.now_set env + ttl_seconds ->
  lyrics.Fetch env' (lyrics.cache_after o) baseURL (Some track)
  = (Ok payload, [], lyrics.cache_after o).
Proof.
  intros o Hi Hrem Hno Hclock Hnow.
  assert (Hres : resolvable baseURL track).
  { unfold o, lyrics.Fetch, resolvable in *.
    destruct (String.eqb (lyrics.Title track) "") eqn:E1; [discriminate Hi|].
    destruct (String.eqb (lyrics.Artist track) "") eqn:E2; [discriminate Hi|].
    cbn [orb] in Hi.
    destruct (String.eqb baseURL "") eqn:E3; [discriminate Hi|].
    destruct (String.eqb (lyrics.normalizeString (lyrics.Title track)) "") eqn:E4;
      [discriminate Hi|].
    destruct (String.eqb (lyrics.normalizeString (lyrics.Artist track)) "") eqn:E5;
      [discriminate Hi|].
    apply String.eqb_neq in E1, E2, E3, E4, E5. now repeat split. }
  pose proof Hres as (Ht & Ha & Hb & Hnt & Hna).
  destruct (Fetch_cases env c baseURL (Some track)) as [Hnil|(tr & u & c1 & Htr & Ho)];
    fold o in Hnil || fold o in Ho.
  { rewrite Hnil in Hi. discriminate Hi. }
  injection Htr as <-. rewrite Ho in Hi.
  destruct (fetch_loop_trace env track _ 0 u None c1 i v Hi) as [_ Hacc].
  destruct (Hacc payload Hrem Hno) as (_ & _ & Hc). rewrite <- Ho in Hc.
  set (pc := cache.alloc c1 (lyrics.entry_of payload)) in *.
  destruct (Set_memory (snd pc) (lyrics.Artist track) (lyrics.Title track) (fst pc)
              (lyrics.now_set env) (lyrics.fault env) Ha Ht) as (Hm & Hh & _).
  unfold persisted in Hc. fold pc in Hc. rewrite <- Hc in Hm, Hh.
  assert (Hd : cache.deref (lyrics.cache_after o) (fst pc)
               = cache.stamp (lyrics.entry_of payload) (lyrics.now_set env)).
  { unfold cache.deref at 1. rewrite Hh, lookup_total_insert_eq.
    unfold pc. now rewrite alloc_deref. }
  assert (Hget : cache.Get (lyrics.cache_after o) (lyrics.Artist track) (lyrics.Title track)
                   (lyrics.now_get_memory env') (lyrics.now_get_file env')
                 = (Ok (fst pc), lyrics.cache_after o)).
  { apply Get_mem_hit; try assumption.
    - rewrite Hm. apply lookup_insert_eq.
    - rewrite Hd, stamp_ExpiresAt by assumption. lia. }
  unfold lyrics.Fetch.
  rewrite (eqb_empty_false _ Ht), (eqb_empty_false _ Ha), (eqb_empty_false _ Hb).
  rewrite (eqb_empty_false _ Hnt), (eqb_empty_false _ Hna). cbn [orb].
  rewrite Hget, Hd, response_of_entry_of. reflexivity.
Qed.

End FetchFacts.

Lemma Fetch_rejects_invalid_witness :
  lyrics.Fetch (H := ascii_case) (H0 := plain_url) found_env sample_cache sample_base
    (Some (lyrics.mkTrackParams "   " "Daft Punk" "" 0))
  = (Err (ErrNew "track title or artist is empty after normalization"), [], sample_cache).
Proof.
  destruct (Fetch_rejects_invalid (H := ascii_case) (H0 := plain_url) found_env
              sample_cache sample_base
              (Some (lyrics.mkTrackParams "   " "Daft Punk" "" 0)))
    as (e & Hf & _ & He & _).
  - right. eexists. split; [reflexivity|].
    right. right. right. left. vm_compute. reflexivity.
  - destruct (He _ eq_refl) as (_ & He2).
    destruct He2 as (_ & He3); [discriminate|discriminate|].
    rewrite Hf. now rewrite He3 by discriminate.
Defined.

Lemma Fetch_again_from_cache_witness :
  let o := lyrics.Fetch (H := ascii_case) (H0 := plain_url) found_env
             sample_cache sample_base (Some sample_track) in
  lyrics.Fetch (H := ascii_case) (H0 := plain_url) timeout_env
    (lyrics.cache_after o) sample_base (Some sample_track)
  = (Ok sample_payload, [], lyrics.cache_after o).
Proof.
  cbv zeta.
  destruct (lyrics.requests (lyrics.Fetch (H := ascii_case) (H0 := plain_url) found_env
              sample_cache sample_base (Some sample_track)) !! 0%nat) as [v|] eqn:Hv;
    [|vm_compute in Hv; discriminate Hv].
  apply (Fetch_again_from_cache (H := ascii_case) (H0 := plain_url) found_env
           sample_cache sample_base sample_track timeout_env 0%nat v sample_payload Hv).
  - reflexivity.
  - reflexivity.
  - exact clock_ok_sample.
  - unfold ttl_seconds. simpl. lia.
Defined.

Lemma Fetch_cancelled_during_delay_witness :
  let o := lyrics.Fetch (H := ascii_case) (H0 := plain_url) cancel_env
             cache.memoryOnly sample_base (Some sample_track) in
  (length (lyrics.requests o) <= 1)%nat /\ lyrics.answer o = Err Canceled.
Proof.
  cbv zeta.
  destruct (Fetch_cancelled_during_delay (H := ascii_case) (H0 := plain_url) cancel_env
              cache.memoryOnly sample_base sample_track 1%nat Canceled)
    as (Hb & Hans).
  - lia.
  - reflexivity.
  - split; [exact Hb|]. apply Hans.
    + vm_compute. reflexivity.
    + vm_compute. lia.
    + intros j v _. reflexivity.
Defined.

(** ** Timed lines: the index in general, and the parser *)

Lemma find_from_leading lines position :
  forall i,
    lyrics.find_from lines position i (i - 1)
    = i - 1 + Z.of_nat (leading_le lines position).
Proof.
  induction lines as [|x rest IH]; intros i; simpl; [lia|].
  destruct (Float64.leb (lyrics.TimeSeconds x) position); [|lia].
  replace i with (i + 1 - 1) at 2 by lia. rewrite IH. lia.
Qed.

Lemma FindCurrentLineIndex_leading lines position :
  lyrics.FindCurrentLineIndex lines position
  = Z.of_nat (leading_le lines position) - 1.
Proof.
  unfold lyrics.FindCurrentLineIndex. destruct lines as [|x rest]; [reflexivity|].
  change (-1) with (0 - 1). rewrite find_from_leading. lia.
Qed.

Lemma leading_le_spec lines position :
  (leading_le lines position <= length lines)%nat
  /\ (forall j l, (j < leading_le lines position)%nat -> nth_error lines j = Some l ->
        Float64.leb (lyrics.TimeSeconds l) position = true)
  /\ (forall l, nth_error lines (leading_le lines position) = Some l ->
        Float64.leb (lyrics.TimeSeconds l) position = false).
Proof.
  induction lines as [|x rest (IH1 & IH2 & IH3)]; simpl.
  - split; [lia|]. split; [intros; lia|]. intros l Hl. discriminate Hl.
  - destruct (Float64.leb (lyrics.TimeSeconds x) position) eqn:Hx.
    + split; [lia|]. split.
      * intros [|j] l Hj Hl; simpl in Hl; [now injection Hl as <-|].
        apply (IH2 j l); [lia|exact Hl].
      * intros l Hl. simpl in Hl. now apply IH3.
    + split; [lia|]. split; [intros; lia|].
      intros l Hl. simpl in Hl. now injection Hl as <-.
Qed.

(** X11. Whatever the order of the lines, [FindCurrentLineIndex] is the end
    of the longest run of lines, from the first one on, that are at or before
    the position: an index between -1 and the last index, every line up to
    it is at or before the position, and the line after it, if any, is not.
    (Lines after one that lies in the future are never looked at.) *)
Theorem FindCurrentLineIndex_run lines position :
  let r := lyrics.FindCurrentLineIndex lines position in
  -1 <= r < Z.of_nat (length lines)
  /\ (forall j l, Z.of_nat j <= r -> nth_error lines j = Some l ->
        Float64.leb (lyrics.TimeSeconds l) position = true)
  /\ (forall l, nth_error lines (Z.to_nat (r + 1)) = Some l ->
        Float64.leb (lyrics.TimeSeconds l) position = false)
  /\ (lines <> [] -> lyrics.FindCurrentLineIndex lines S754_nan = -1).
Proof.
  intros r. unfold r. rewrite FindCurrentLineIndex_leading.
  destruct (leading_le_spec lines position) as (H1 & H2 & H3).
  split.
  { split; [lia|]. destruct (Nat.eq_dec (leading_le lines position) (length lines)) as [E|E];
      [|lia].
    destruct lines as [|x rest]; [simpl in *; lia|]. lia. }
  split; [intros j l Hj; apply H2; lia|]. split.
  - intros l. replace (Z.to_nat _) with (leading_le lines position) by lia. apply H3.
  - intros Hne. rewrite FindCurrentLineIndex_leading.
    destruct lines as [|x rest]; [contradiction|]. simpl.
    replace (Float64.leb (lyrics.TimeSeconds x) S754_nan) with false; [reflexivity|].
    unfold Float64.leb, SFleb, SFcompare. now destruct (lyrics.TimeSeconds x).
Qed.

Lemma leading_le_monotone lines p1 p2 :
  Float64.leb p1 p2 = true ->
  (leading_le lines p1 <= leading_le lines p2)%nat.
Proof.
  intros Hp. induction lines as [|x rest IH]; simpl; [lia|].
  destruct (Float64.leb (lyrics.TimeSeconds x) p1) eqn:H1; [|lia].
  rewrite (leb_trans _ _ _ H1 Hp). lia.
Qed.

(** X12. The index never goes back as the position advances: for positions
    p1 <= p2, the index at p1 is at most the index at p2, whatever the
    lines. *)
Theorem FindCurrentLineIndex_monotone lines p1 p2 :
  Float64.leb p1 p2 = true ->
  lyrics.FindCurrentLineIndex lines p1 <= lyrics.FindCurrentLineIndex lines p2.
Proof.
  intros Hp. rewrite !FindCurrentLineIndex_leading.
  pose proof (leading_le_monotone lines p1 p2 Hp). lia.
Qed.

Lemma FindCurrentLineIndex_monotone_witness :
  lyrics.FindCurrentLineIndex (lyrics.ParseSynced lrc_example) f0_5
  <= lyrics.FindCurrentLineIndex (lyrics.ParseSynced lrc_example) f2.
Proof.
  apply FindCurrentLineIndex_monotone. vm_compute. reflexivity.
Defined.

Lemma Split_nonempty s sep : Strings.Split s sep <> [].
Proof.
  destruct s as [|c r]; simpl; [discriminate|].
  destruct (Ascii.eqb c sep); [discriminate|].
  destruct (Strings.Split r sep); discriminate.
Qed.

Lemma Split_app a b sep :
  Strings.Split (a ++ String sep b) sep
  = (Strings.Split a sep ++ Strings.Split b sep)%list.
Proof.
  induction a as [|c r IH]; simpl.
  - now rewrite Ascii.eqb_refl.
  - destruct (Ascii.eqb c sep); [now rewrite IH|].
    rewrite IH. pose proof (Split_nonempty r sep).
    destruct (Strings.Split r sep) as [|h t]; [contradiction|reflexivity].
Qed.

Lemma parse_lines_app l1 l2 :
  lyrics.parse_lines (l1 ++ l2)%list
  = (lyrics.parse_lines l1 ++ lyrics.parse_lines l2)%list.
Proof.
  induction l1 as [|x rest IH]; simpl; [reflexivity|].
  destruct (lyrics.parse_line x); simpl; now rewrite IH.
Qed.

Lemma ParseSynced_lines raw :
  lyrics.ParseSynced raw = lyrics.parse_lines (Strings.Split raw (byte_of 10)).
Proof.
  unfold lyrics.ParseSynced. destruct (String.eqb raw "") eqn:E; [|reflexivity].
  apply String.eqb_eq in E. subst. reflexivity.
Qed.

Lemma parse_line_sound line l :
  lyrics.parse_line line = Some l ->
  lyrics.Text l <> ""
  /\ Float64.ltb (lyrics.TimeSeconds l) Float64.zero = false
  /\ Strings.HasPrefix (Strings.TrimSpace line) "[" = true
  /\ Strings.Contains (Strings.TrimSpace line) "]" = true.
Proof.
  unfold lyrics.parse_line.
  destruct (String.eqb (Strings.TrimSpace line) ""); [discriminate|].
  unfold lyrics.splitLrcLine.
  destruct (Strings.HasPrefix (Strings.TrimSpace line) "[") eqn:Hpre; [|discriminate].
  cbn [negb].
  destruct (Strings.Index (Strings.TrimSpace line) "]" <=? 1) eqn:Hidx; [discriminate|].
  destruct (String.eqb (Strings.TrimSpace (Strings.slice_from _ _)) "") eqn:Htxt;
    [discriminate|].
  pose proof (proj1 (String.eqb_neq _ _) Htxt) as Hne.
  destruct (String.eqb (Strings.slice _ _ _) "") eqn:Etime; [discriminate|]. cbn [orb].
  rewrite Htxt.
  destruct (lyrics.parseLrcTimeToSeconds _) as [seconds|err] eqn:Htime; [|discriminate].
  intros [= <-]. cbn [lyrics.Text lyrics.TimeSeconds].
  split; [exact Hne|]. split.
  - revert Htime. unfold lyrics.parseLrcTimeToSeconds. rewrite Etime.
    assert (Hfin : forall h m s0 t,
      (if Float64.ltb (Float64.add (Float64.add (Float64.mul h (Float64.of_Z 3600))
            (Float64.mul m (Float64.of_Z 60))) s0) Float64.zero
       then Err (ErrNew "negative time not allowed")
       else Ok (Float64.add (Float64.add (Float64.mul h (Float64.of_Z 3600))
            (Float64.mul m (Float64.of_Z 60))) s0)) = Ok t ->
      Float64.ltb t Float64.zero = false).
    { intros h m s0 t. destruct (Float64.ltb _ _) eqn:E; [discriminate|].
      now intros [= <-]. }
    destruct (Strings.Split _ ":") as [|p0 [|p1 [|p2 [|p3 ps]]]]; try discriminate.
    + destruct (lyrics.parseFloatSafe p0); [|discriminate].
      destruct (lyrics.parseFloatSafe p1); [|discriminate]. apply Hfin.
    + destruct (lyrics.parseFloatSafe p0); [|discriminate].
      destruct (lyrics.parseFloatSafe p1); [|discriminate].
      destruct (lyrics.parseFloatSafe p2); [|discriminate]. apply Hfin.
  - split; [reflexivity|]. unfold Strings.Contains.
    apply Z.leb_gt in Hidx. apply Z.leb_le. lia.
Qed.

(** X13. What [ParseSynced] produces.  The lines of a text joined by a line
    feed parse to the concatenation of what each part parses to, so source
    order is kept and a line that is skipped does not affect the others.
    Every line produced has a non-empty text and a timestamp that is not
    negative, and comes from a source line that, trimmed, starts with "["
    and contains "]"; there are never more lines than source lines. *)
Theorem ParseSynced_linewise :
  (forall a b : string,
     lyrics.ParseSynced (a ++ String (byte_of 10) b)
     = (lyrics.ParseSynced a ++ lyrics.ParseSynced b)%list)
  /\ (forall raw l, In l (lyrics.ParseSynced raw) ->
        lyrics.Text l <> ""
        /\ Float64.ltb (lyrics.TimeSeconds l) Float64.zero = false
        /\ exists line, In line (Strings.Split raw (byte_of 10))
             /\ lyrics.parse_line line = Some l
             /\ Strings.HasPrefix (Strings.TrimSpace line) "[" = true
             /\ Strings.Contains (Strings.TrimSpace line) "]" = true)
  /\ (forall raw,
        (length (lyrics.ParseSynced raw) <= length (Strings.Split raw (byte_of 10)))%nat)
  /\ lyrics.ParseSynced "" = [].
Proof.
  split; [|split; [|split]].
  - intros a b. rewrite !ParseSynced_lines, Split_app. apply parse_lines_app.
  - intros raw l. rewrite ParseSynced_lines.
    induction (Strings.Split raw (byte_of 10)) as [|x rest IH]; simpl; [intros []|].
    destruct (lyrics.parse_line x) as [l'|] eqn:Hx.
    + intros [<-|Hin].
      * destruct (parse_line_sound x l' Hx) as (H1 & H2 & H3 & H4).
        split; [exact H1|]. split; [exact H2|]. exists x. repeat split; auto.
      * destruct (IH Hin) as (H1 & H2 & line & Hl & Hrest).
        split; [exact H1|]. split; [exact H2|]. exists line. split; [now right|exact Hrest].
    + intros Hin. destruct (IH Hin) as (H1 & H2 & line & Hl & Hrest).
      split; [exact H1|]. split; [exact H2|]. exists line. split; [now right|exact Hrest].
  - intros raw. rewrite ParseSynced_lines.
    induction (Strings.Split raw (byte_of 10)) as [|x rest IH]; simpl; [lia|].
    destruct (lyrics.parse_line x); simpl; lia.
  - reflexivity.
Qed.

(** ** The observer *)

Lemma string_eqb_sym (a b : string) : String.eqb a b = String.eqb b a.
Proof.
  destruct (String.eqb a b) eqn:E.
  - apply String.eqb_eq in E. subst. symmetry. apply String.eqb_refl.
  - symmetry. apply String.eqb_neq. apply String.eqb_neq in E. congruence.
Qed.

(** X14. Track identity is reflexive and symmetric; when both tracks carry
    an identifier it alone decides, and otherwise title and artist decide,
    compared exactly.  It is not transitive: a track without identifier
    matches two tracks of the same title and artist whose identifiers
    differ. *)
Theorem IsSameTrack_identity :
  (forall t, track.IsSameTrack t t = true)
  /\ (forall t other, track.IsSameTrack t other = track.IsSameTrack other t)
  /\ (forall t other,
        track.TrackID t <> "" -> track.TrackID other <> "" ->
        (track.IsSameTrack (Some t) (Some other) = true
         <-> track.TrackID t = track.TrackID other))
  /\ (forall t other,
        track.TrackID t = "" \/ track.TrackID other = "" ->
        (track.IsSameTrack (Some t) (Some other) = true
         <-> track.Title t = track.Title other /\ track.Artist t = track.Artist other))
  /\ (exists a b c,
        track.IsSameTrack (Some a) (Some b) = true
        /\ track.IsSameTrack (Some b) (Some c) = true
        /\ track.IsSameTrack (Some a) (Some c) = false).
Proof.
  split; [|split; [|split; [|split]]].
  - intros [t|]; [|reflexivity]. simpl.
    destruct (negb (String.eqb (track.TrackID t) "")); simpl;
      now rewrite !String.eqb_refl.
  - intros [t|] [o|]; try reflexivity. simpl.
    rewrite (andb_comm (negb (String.eqb (track.TrackID t) ""))).
    destruct (_ && _); [apply string_eqb_sym|].
    now rewrite (string_eqb_sym (track.Title t)), (string_eqb_sym (track.Artist t)).
  - intros t o Ht Ho. simpl.
    rewrite (eqb_empty_false _ Ht), (eqb_empty_false _ Ho). simpl.
    apply String.eqb_eq.
  - intros t o Hemp. simpl.
    replace (negb (String.eqb (track.TrackID t) "") && negb (String.eqb (track.TrackID o) ""))
      with false.
    + rewrite andb_true_iff, !String.eqb_eq. tauto.
    + destruct Hemp as [-> | ->]; simpl; [reflexivity|now rewrite andb_false_r].
  - exists (track.mkInfo "T" "A" "" 0 "" "id1"), (track.mkInfo "T" "A" "" 0 "" ""),
      (track.mkInfo "T" "A" "" 0 "" "id2").
    repeat split.
Qed.

Lemma emitEvent_events s ev :
  player.eventChan (player.emitEvent s ev)
  = if (length (player.eventChan s) <? 16)%nat
    then (player.eventChan s ++ [ev])%list else player.eventChan s.
Proof. unfold player.emitEvent. now destruct (_ <? _)%nat. Qed.

Lemma emitEvent_bounded s ev :
  (length (player.eventChan s) <= 16)%nat ->
  (length (player.eventChan (player.emitEvent s ev)) <= 16)%nat
  /\ player.eventChan s `prefix_of` player.eventChan (player.emitEvent s ev)
  /\ player.state (player.emitEvent s ev) = player.state s.
Proof.
  intros Hb. rewrite emitEvent_events. unfold player.emitEvent.
  destruct (_ <? _)%nat eqn:E.
  - apply Nat.ltb_lt in E. rewrite length_app. simpl.
    split; [lia|]. split; [now apply prefix_app_r|reflexivity].
  - split; [lia|]. split; reflexivity.
Qed.

(** X15. The event channel never holds more than 16 events, and the
    producers only append to it: started empty by [NewService], every step
    of the observer ([Poll], the seek signal, the property-changed signal)
    keeps the bound and leaves the waiting events in place, adding at most
    one event (two for a property change). *)
Theorem eventChan_bounded :
  (forall bus name svc, player.NewService bus name = Ok svc ->
     player.eventChan svc = [])
  /\ forall s,
       (length (player.eventChan s) <= 16)%nat ->
       (forall metadata position now1 now2,
          let s' := snd (mpris.Poll s metadata position now1 now2) in
          (length (player.eventChan s') <= 16)%nat
          /\ player.eventChan s `prefix_of` player.eventChan s'
          /\ (length (added_events s s') <= 1)%nat)
       /\ (forall body now,
          let s' := mpris.handleSeeked s body now in
          (length (player.eventChan s') <= 16)%nat
          /\ player.eventChan s `prefix_of` player.eventChan s'
          /\ (length (added_events s s') <= 1)%nat)
       /\ (forall body now1 now2,
          let s' := mpris.handlePropertiesChanged s body now1 now2 in
          (length (player.eventChan s') <= 16)%nat
          /\ player.eventChan s `prefix_of` player.eventChan s'
          /\ (length (added_events s s') <= 2)%nat).
Proof.
  assert (Hsame : forall s, (length (player.eventChan s) <= 16)%nat ->
            (length (player.eventChan s) <= 16)%nat
            /\ player.eventChan s `prefix_of` player.eventChan s
            /\ (length (added_events s s) <= 1)%nat).
  { intros s Hb. split; [exact Hb|]. split; [reflexivity|].
    unfold added_events. rewrite length_drop. lia. }
  assert (Hemit : forall s st ev, (length (player.eventChan s) <= 16)%nat ->
            let s' := player.emitEvent
                        (player.mkService (player.service s) st (player.eventChan s)) ev in
            (length (player.eventChan s') <= 16)%nat
            /\ player.eventChan s `prefix_of` player.eventChan s'
            /\ (length (added_events s s') <= 1)%nat).
  { intros s st ev Hb s'. unfold s', added_events. rewrite emitEvent_events. simpl.
    destruct (_ <? _)%nat eqn:E.
    - apply Nat.ltb_lt in E. rewrite length_drop, length_app. simpl.
      split; [lia|]. split; [now apply prefix_app_r|lia].
    - rewrite length_drop. split; [lia|]. split; [reflexivity|lia]. }
  split.
  { intros bus name svc. unfold player.NewService.
    destruct bus; [discriminate|]. destruct (String.eqb name ""); [discriminate|].
    now intros [= <-]. }
  intros s Hb. split; [|split].
  - intros metadata position now1 now2. unfold mpris.Poll.
    destruct (mpris.GetCurrentTrack metadata) as [trk|e]; [|now apply Hsame].
    destruct (mpris.GetCurrentPosition position) as [pos|e]; [|now apply Hsame].
    unfold player.Poll.
    destruct (negb (track.IsSameTrack _ _)); [now apply Hemit|].
    destruct (player.DetectSeek _ _ _); [now apply Hemit|].
    cbn [snd]. unfold added_events. simpl. rewrite length_drop.
    split; [exact Hb|]. split; [reflexivity|lia].
  - intros body now. unfold mpris.handleSeeked.
    destruct body as [|[ | n | | ] rest]; try now apply Hsame.
    unfold player.handleSeeked. destruct (n <? 0); [now apply Hsame|].
    now apply Hemit.
  - intros body now1 now2.
    assert (Hsame2 : (length (player.eventChan s) <= 16)%nat
            /\ player.eventChan s `prefix_of` player.eventChan s
            /\ (length (added_events s s) <= 2)%nat).
    { destruct (Hsame s Hb) as (? & ? & ?). repeat split; auto; lia. }
    unfold mpris.handlePropertiesChanged.
    destruct body as [|[iface | | | ] [|[ | | changed | ] rest]]; try exact Hsame2.
    destruct (negb (String.eqb iface mpris.mprisPlayerIface)); [exact Hsame2|].
    assert (Hstatus : forall s1,
      (length (player.eventChan s1) <= 16)%nat ->
      player.eventChan s `prefix_of` player.eventChan s1 ->
      (length (added_events s s1) <= 1)%nat ->
      let s' := match changed !! "PlaybackStatus" with
                | Some (mpris.PString status) =>
                    player.emitEvent
                      (player.mkService (player.service s1)
                         (player.mkState (player.state_Track (player.state s1))
                            (player.PositionSecs (player.state s1))
                            (String.eqb status "Playing") now2
                            (player.lastPositionSecs (player.state s1)))
                         (player.eventChan s1))
                      (player.mkEventData player.EventPlaybackStateChanged None 0
                         (String.eqb status "Playing"))
                | _ => s1
                end in
      (length (player.eventChan s') <= 16)%nat
      /\ player.eventChan s `prefix_of` player.eventChan s'
      /\ (length (added_events s s') <= 2)%nat).
    { intros s1 Hb1 Hp1 Ha1 s'. unfold s'.
      destruct (changed !! "PlaybackStatus") as [[ |status| | | ]|];
        try (split; [exact Hb1|]; split; [exact Hp1|lia]).
      destruct (Hemit s1 (player.mkState (player.state_Track (player.state s1))
                            (player.PositionSecs (player.state s1))
                            (String.eqb status "Playing") now2
                            (player.lastPositionSecs (player.state s1)))
                  (player.mkEventData player.EventPlaybackStateChanged None 0
                     (String.eqb status "Playing")) Hb1) as (H1 & H2 & H3).
      split; [exact H1|]. split; [now transitivity (player.eventChan s1)|].
      unfold added_events in *. rewrite length_drop in *.
      apply prefix_length in Hp1, H2. lia. }
    destruct (Hsame s Hb) as (Hs1 & Hs2 & Hs3).
    destruct (changed !! "Metadata") as [[ | | |metadata| ]|]; try exact Hsame2;
      [|now apply Hstatus].
    destruct (track.IsValid (Some (mpris.info_of metadata))); [|now apply Hstatus].
    destruct (Hemit s (player.mkState (Some (mpris.info_of metadata))
                         (player.PositionSecs (player.state s))
                         (player.state_Playing (player.state s)) now1 0)
                (player.mkEventData player.EventTrackChanged
                   (Some (mpris.info_of metadata)) 0 false) Hb) as (H1 & H2 & H3).
    now apply Hstatus.
Qed.

Lemma eventChan_bounded_witness :
  (length (player.eventChan
     (mpris.handleSeeked (player.mkService "p" player.zeroState []) [mpris.BInt64 42000000]
        sample_instant)) <= 16)%nat.
Proof.
  destruct eventChan_bounded as (_ & H).
  destruct (H (player.mkService "p" player.zeroState [])) as (_ & Hseek & _).
  - simpl. lia.
  - exact (proj1 (Hseek [mpris.BInt64 42000000] sample_instant)).
Defined.

(** X16. What a poll does once both readings succeeded: it always moves the
    baseline to the new position and clock reading and leaves the playing
    flag alone; when the track differs it stores the new track and emits one
    TrackChanged event, and no Seeked event even if the position jumped;
    when the track is the same it emits one Seeked event if [DetectSeek]
    says so and nothing otherwise.  With a full channel the event is lost
    but the state is updated all the same.  A failed reading returns the
    error and changes nothing. *)
Theorem Poll_events s trk pos now1 now2 :
  let r := player.Poll s (Ok trk) (Ok pos) now1 now2 in
  let same := track.IsSameTrack (Some trk) (player.state_Track (player.state s)) in
  fst r = None
  /\ player.PositionSecs (player.state (snd r)) = pos
  /\ player.lastPositionSecs (player.state (snd r)) = pos
  /\ player.lastPositionUpdate (player.state (snd r)) = now2
  /\ player.state_Playing (player.state (snd r)) = player.state_Playing (player.state s)
  /\ player.state_Track (player.state (snd r))
     = (if same then player.state_Track (player.state s) else Some trk)
  /\ player.eventChan (snd r)
     = (if (length (player.eventChan s) <? 16)%nat then
          (player.eventChan s ++
             (if same then
                if player.DetectSeek (player.state s) now1 pos
                then [player.mkEventData player.EventSeeked None pos false]
                else []
              else [player.mkEventData player.EventTrackChanged (Some trk) pos false]))%list
        else player.eventChan s)
  /\ (forall e p, player.Poll s (Err e) p now1 now2 = (Some e, s))
  /\ (forall e, player.Poll s (Ok trk) (Err e) now1 now2 = (Some e, s)).
Proof.
  intros r same. unfold r, player.Poll. fold same.
  destruct same; cbn [negb];
    [destruct (player.DetectSeek (player.state s) now1 pos)|];
    unfold player.emitEvent; simpl;
    destruct (length (player.eventChan s) <? 16)%nat; simpl;
    rewrite ?app_nil_r; repeat split.
Qed.

Lemma quot_million_range n :
  0 <= n <= Int64.max_int -> position_ok (Z.quot n 1000000).
Proof.
  intros Hn. unfold position_ok.
  change (Int64.max_int / 1000000) with 9223372036854. int64_numerals.
  Z.to_euclidean_division_equations. lia.
Qed.

(** X17. What the control surface can make the observer believe.  A track
    returned by [GetCurrentTrack] has a non-empty title (a string of the
    metadata) and a non-empty artist, and a duration in whole seconds that is
    not negative; a missing or mistyped title or artist is an error, not a
    track.  A position returned by [GetCurrentPosition] is a count of whole
    seconds between 0 and max-int64 / 1,000,000: a negative reading counts
    as 0. *)
Theorem control_surface_readings :
  (forall prop info,
     mpris.GetCurrentTrack prop = Ok info ->
     track.Title info <> "" /\ track.Artist info <> ""
     /\ exists metadata, prop = Ok (mpris.PMetadata metadata)
          /\ info = mpris.info_of metadata
          /\ metadata !! "xesam:title" = Some (mpris.VString (track.Title info))
          /\ (length_well_typed metadata ->
              0 <= track.DurationSecs info <= 18446744073709))
  /\ (forall prop pos,
        mpris.GetCurrentPosition prop = Ok pos ->
        exists us, prop = Ok (mpris.PInt64 us)
          /\ pos = (if us <? 0 then 0 else Z.quot us 1000000)
          /\ (Int64.in_range us -> position_ok pos)).
Proof.
  split.
  - intros prop info. unfold mpris.GetCurrentTrack.
    destruct prop as [[ | | |metadata| ]|e]; try discriminate.
    destruct (negb (track.IsValid (Some (mpris.info_of metadata)))) eqn:Hv; [discriminate|].
    intros [= <-]. apply negb_false_iff in Hv. simpl in Hv.
    apply andb_true_iff in Hv as [Ht Ha].
    apply negb_true_iff, String.eqb_neq in Ht, Ha.
    split; [exact Ht|]. split; [exact Ha|]. exists metadata.
    split; [reflexivity|]. split; [reflexivity|]. split.
    + clear Ha. simpl in Ht |- *. unfold mpris.extractString in *.
      destruct (metadata !! "xesam:title") as [[ |t| | | | ]|];
        try reflexivity; congruence.
    + unfold length_well_typed. simpl. unfold mpris.extractDurationSeconds.
      destruct (metadata !! "mpris:length") as [[ | | |n|n| ]|]; try (intros _; lia).
      * intros Hr. destruct (n <=? 0) eqn:E; [lia|]. apply Z.leb_gt in E.
        int64_numerals. Z.to_euclidean_division_equations. lia.
      * intros Hr. destruct (n =? 0); [lia|].
        change (2 ^ 64) with 18446744073709551616 in Hr.
        assert (Hq : 0 <= n / 1000000 <= 18446744073709)
          by (Z.to_euclidean_division_equations; lia).
        rewrite wrap_in_range by (int64_numerals; lia). exact Hq.
  - intros prop pos. unfold mpris.GetCurrentPosition.
    destruct prop as [[ | |us| | ]|e]; try discriminate.
    intros Hpos. exists us. split; [reflexivity|].
    destruct (us <? 0) eqn:E; injection Hpos as <-.
    + split; [reflexivity|]. intros _. unfold position_ok.
      change (Int64.max_int / 1000000) with 9223372036854. lia.
    + split; [reflexivity|]. intros Hr. apply Z.ltb_ge in E.
      apply quot_million_range. int64_numerals. lia.
Qed.

Lemma steady_no_seek st now pos :
  now <> time.zero -> position_ok pos ->
  forall now' pos',
    position_ok pos' ->
    Z.abs (pos' - (pos + time.whole_seconds (time.Since now' now))) <= 3 ->
    player.DetectSeek (player.UpdatePosition st now pos) now' pos' = false.
Proof.
  intros Hnow Hp now' pos' Hp' Hdev.
  destruct (player.DetectSeek _ now' pos') eqn:E; [|reflexivity].
  apply DetectSeek_whole_seconds in E; simpl; try assumption.
  - simpl in E. lia.
  - unfold time.IsZero. now apply Z.eqb_neq.
Qed.

(** X18. Steady playback raises no event: after a poll that read position
    p, a poll of the same track that reads a position within 3 seconds of
    p plus the elapsed seconds as [DetectSeek] counts them
    ([int64(elapsed.Seconds())]) adds nothing to the channel; for an elapsed
    time under 2^24 seconds these are the whole seconds elapsed. *)
Theorem steady_playback_is_silent s trk pos now1 now2 trk' pos' now1' now2' :
  now2 <> time.zero -> position_ok pos -> position_ok pos' ->
  let s1 := snd (player.Poll s (Ok trk) (Ok pos) now1 now2) in
  let elapsed := time.Since now1' now2 in
  track.IsSameTrack (Some trk') (player.state_Track (player.state s1)) = true ->
  Z.abs (pos' - (pos + time.whole_seconds elapsed)) <= 3
  \/ (Z.abs elapsed < 2 ^ 24 * time.Second
      /\ Z.abs (pos' - (pos + Z.quot elapsed time.Second)) <= 3) ->
  player.eventChan (snd (player.Poll s1 (Ok trk') (Ok pos') now1' now2'))
  = player.eventChan s1.
Proof.
  intros Hnow Hp Hp' s1 elapsed Hsame Hdev.
  assert (Hdev' : Z.abs (pos' - (pos + time.whole_seconds elapsed)) <= 3).
  { destruct Hdev as [?|[Hb Hq]]; [assumption|].
    pose proof (whole_seconds_spec elapsed (Sub_in_range _ _)) as (_ & _ & Hex).
    cbv zeta in Hex. now rewrite (Hex (or_introl Hb)). }
  clear Hdev. rename Hdev' into Hdev. unfold elapsed in Hdev.
  destruct (Poll_events s1 trk' pos' now1' now2') as (_ & _ & _ & _ & _ & _ & Hev & _).
  cbv zeta in Hev. rewrite Hev, Hsame.
  assert (Hst : player.state s1
                = player.UpdatePosition
                    (player.mkState (player.state_Track (player.state s1)) 0
                       (player.state_Playing (player.state s)) 0 0) now2 pos).
  { unfold s1, player.Poll.
    destruct (negb (track.IsSameTrack _ _)); [|destruct (player.DetectSeek _ _ _)];
      unfold player.emitEvent; simpl;
      repeat match goal with |- context [if ?b then _ else _] => destruct b end;
      reflexivity. }
  rewrite Hst, steady_no_seek by assumption.
  rewrite app_nil_r. now destruct (_ <? _)%nat.
Qed.

Lemma steady_playback_is_silent_witness :
  let s0 := player.mkService "p" player.zeroState [] in
  let s1 := snd (player.Poll s0 (Ok sample_info) (Ok 10) sample_instant sample_instant) in
  player.eventChan
    (snd (player.Poll s1 (Ok sample_info) (Ok 12)
            (sample_instant + 100000000) (sample_instant + 100000000)))
  = player.eventChan s1.
Proof.
  cbv zeta.
  apply (steady_playback_is_silent (player.mkService "p" player.zeroState [])
           sample_info 10 sample_instant sample_instant sample_info 12
           (sample_instant + 100000000) (sample_instant + 100000000)).
  - discriminate.
  - apply position_ok_small. lia.
  - apply position_ok_small. lia.
  - reflexivity.
  - right. split; vm_compute; [reflexivity|discriminate].
Defined.

Lemma control_surface_readings_witness :
  exists info,
    mpris.GetCurrentTrack (Ok (mpris.PMetadata sample_metadata)) = Ok info
    /\ track.Artist info = "Daft Punk" /\ track.DurationSecs info = 320.
Proof.
  destruct control_surface_readings as (H & _).
  eexists. split; [vm_compute; reflexivity|]. split; reflexivity.
Defined.
